(** * omni2tree: identifier reconciliation, checked against the Python sources

    A shallow embedding of the identifier-handling functions of
    [utils/prepare_metadata_o2t_view.py], [utils/validate_metadata.py],
    [scripts/msa_to_position_table.py] and
    [scripts/entropy_msa_og_gene_table.py].

    Conventions of the embedding.
    - A Python [str] is a [string]; its characters are the code points
      0..255.  The regular-expression classes of the sources are ASCII ranges
      and are written out on character codes, as are the white space of
      [str.strip] and the letters of [str.lower]; [str.casefold] is a
      parameter of the gene selector.
    - Character-level work is done on [list ascii] (module [Chars]); the
      functions carrying the source's names convert at their boundary.
    - A [dict] is a [gmap], a [Counter] a [gmap] read with default 0, a
      [set] a duplicate-free list; a raised exception is a value of an
      error type; a pandas cell that can be missing is an [option].
    - File access, logging and the tree and table libraries are left out:
      the functions take the lines, rows or terminal names already read. *)

From Stdlib Require Import Ascii String NArith List DecimalString DecimalNat DecimalN
  Sorting.Permutation.
From stdpp Require Import gmap strings list sorting.

Local Open Scope N_scope.

(** ** Characters and the regular-expression fragments of the sources *)

Module Chars.

Definition code (c : ascii) : N := N_of_ascii c.

Definition in_range (lo hi : N) (c : ascii) : bool :=
  (lo <=? code c) && (code c <=? hi).

Definition is_upper : ascii -> bool := in_range 65 90.    (* A-Z *)
Definition is_lower : ascii -> bool := in_range 97 122.   (* a-z *)
Definition is_digit : ascii -> bool := in_range 48 57.    (* 0-9, also \d on code points below 256 *)

Definition underscore : ascii := "_"%char.
Definition newline : ascii := "010"%char.

Definition is_us (c : ascii) : bool := Ascii.eqb c underscore.

(** [[A-Za-z0-9]] *)
Definition is_alnum (c : ascii) : bool := is_upper c || is_lower c || is_digit c.

(** [[A-Za-z0-9_]] *)
Definition is_word (c : ascii) : bool := is_alnum c || is_us c.

(** [[A-Za-z_]] *)
Definition is_alpha_us (c : ascii) : bool := is_upper c || is_lower c || is_us c.

(** [str.isspace] on the code points below 256: tab, LF, VT, FF, CR,
    FS, GS, RS, US, space, NEL and the no-break space. *)
Definition is_space (c : ascii) : bool :=
  in_range 9 13 c || in_range 28 32 c || (code c =? 133) || (code c =? 160).

Fixpoint drop_while (p : ascii -> bool) (l : list ascii) : list ascii :=
  match l with
  | [] => []
  | c :: r => if p c then drop_while p r else l
  end.

(** [text.strip(chars)] for the character set recognised by [p]. *)
Definition strip_by (p : ascii -> bool) (l : list ascii) : list ascii :=
  reverse (drop_while p (reverse (drop_while p l))).

(** [re.sub(r"[^A-Za-z0-9]", "", text)]: every character outside the class is deleted. *)
Definition delete_non_alnum (l : list ascii) : list ascii := List.filter is_alnum l.

(** [re.sub(r"[^A-Za-z0-9_]", "", text)] *)
Definition delete_non_word (l : list ascii) : list ascii := List.filter is_word l.

(** [re.sub(CLASS+, "_", text)]: every maximal run of characters of the
    class [p] is replaced by one underscore.  [in_run] records that the
    previous character belonged to a run already replaced. *)
Fixpoint sub_runs (p : ascii -> bool) (in_run : bool) (l : list ascii) : list ascii :=
  match l with
  | [] => []
  | c :: r =>
      if p c then (if in_run then sub_runs p true r else underscore :: sub_runs p true r)
      else c :: sub_runs p false r
  end.

(** [re.sub(r"[^A-Za-z0-9_]+", "_", text)] *)
Definition sub_nonword_runs : list ascii -> list ascii :=
  sub_runs (fun c => negb (is_word c)) false.

(** [re.sub(r"_+", "_", text)] *)
Definition sub_underscore_runs : list ascii -> list ascii := sub_runs is_us false.

(** The tokens a pattern [(...)$] can match, read backwards from the end
    of the text: [head_12] recognises [_1] and [_2], [head_R12] recognises
    [_R1] and [_R2].  Each returns what is left of the (reversed) text. *)
Definition is_1_or_2 (c : ascii) : bool := Ascii.eqb c "1"%char || Ascii.eqb c "2"%char.

Definition head_12 (r : list ascii) : option (list ascii) :=
  match r with
  | d :: u :: r' => if is_1_or_2 d && is_us u then Some r' else None
  | _ => None
  end.

Definition head_R12 (r : list ascii) : option (list ascii) :=
  match r with
  | d :: k :: u :: r' =>
      if is_1_or_2 d && Ascii.eqb k "R"%char && is_us u then Some r' else None
  | _ => None
  end.

(** [re.sub(PATTERN$, "", text)] for a pattern that matches a non-empty
    token without a newline, [tok] recognising the token backwards.
    Python's [$] (no MULTILINE flag) matches at the very end of the text
    and also just before a newline that is the last character, so the
    token is deleted in either position; a text has at most one of the two. *)
Definition sub_at_dollar (tok : list ascii -> option (list ascii)) (l : list ascii)
  : list ascii :=
  match tok (reverse l) with
  | Some r' => reverse r'
  | None =>
      match reverse l with
      | nl :: r1 =>
          if Ascii.eqb nl newline then
            match tok r1 with
            | Some r' => reverse (nl :: r')
            | None => l
            end
          else l
      | [] => l
      end
  end.

(** [re.sub(r"_(1|2)$", "", text)] *)
Definition sub_suffix_12 : list ascii -> list ascii := sub_at_dollar head_12.

(** [re.sub(r"(_R[12]|_[12])$", "", text)]: the two alternatives end in
    different 2-character tails, so at most one of them matches. *)
Definition sub_suffix_pair : list ascii -> list ascii :=
  sub_at_dollar (fun r => match head_R12 r with Some r' => Some r' | None => head_12 r end).

(** [text or "NA"] *)
Definition or_NA (l : list ascii) : list ascii :=
  match l with
  | [] => list_ascii_of_string "NA"
  | _ => l
  end.

(** The body of [tree_label_sanitize] after the suffix removal. *)
Definition collapse (l : list ascii) : list ascii :=
  or_NA (strip_by is_us (sub_underscore_runs (sub_nonword_runs l))).

Definition tree_label_sanitize (l : list ascii) : list ascii :=
  collapse (sub_suffix_12 l).

(** [us_ok prev l]: no two underscores of [l] are adjacent, and [l] does
    not start with one when [prev] says that an underscore came just before. *)
Fixpoint us_ok (prev : bool) (l : list ascii) : bool :=
  match l with
  | [] => true
  | c :: r => if is_us c then negb prev && us_ok true r else us_ok false r
  end.

(** The shape of a sanitized label: non-empty, word characters only, no
    underscore in front or at the end, no two underscores in a row. *)
Record normal (y : list ascii) : Prop := {
  normal_word : Forall (fun c => is_word c = true) y;
  normal_nonempty : y <> [];
  normal_head : head y <> Some underscore;
  normal_last : last y <> Some underscore;
  normal_single : forall a b, y <> a ++ underscore :: underscore :: b
}.

End Chars.

(** ** The normalizers, with the names of the sources *)

Definition on_chars (f : list ascii -> list ascii) (s : string) : string :=
  string_of_list_ascii (f (list_ascii_of_string s)).

(** [clean_alnum] (all three files):
    [re.sub(r"[^A-Za-z0-9]", "", text or "")]. *)
Definition clean_alnum : string -> string := on_chars Chars.delete_non_alnum.

(** [tree_label_sanitize] (prepare_metadata_o2t_view.py and validate_metadata.py):
    [text = re.sub(r"_(1|2)$", "", text or "")]
    [text = re.sub(r"[^A-Za-z0-9_]+", "_", text)]
    [text = re.sub(r"_+", "_", text).strip("_")]
    [return text or "NA"]. *)
Definition tree_label_sanitize : string -> string := on_chars Chars.tree_label_sanitize.

(** [str.strip()] *)
Definition strip : string -> string := on_chars (Chars.strip_by Chars.is_space).

(** [normalize_msa_id] (msa_to_position_table.py):
    [re.sub(r'(_R[12]|_[12])$', '', str(sample_id).strip())]. *)
Definition normalize_msa_id (sample_id : string) : string :=
  on_chars Chars.sub_suffix_pair (strip sample_id).

(** [re.sub(r"_(1|2)$", "", original)], as used on its own in [rewrite_tree_labels]. *)
Definition strip_suffix_12 : string -> string := on_chars Chars.sub_suffix_12.

(** Steps 2 to 4 of [tree_label_sanitize], without the suffix removal. *)
Definition collapse_label : string -> string := on_chars Chars.collapse.

(** [re.sub(r'(_R[12]|_[12])$', '', text)], the substitution of [normalize_msa_id]. *)
Definition strip_suffix_pair : string -> string := on_chars Chars.sub_suffix_pair.

(** The sanitizer as the specification words it: [stripPairSuffix]
    (removing [_R1], [_R2], [_1] or [_2]) followed by the collapsing steps. *)
Definition sanitizeLabel_spec (text : string) : string :=
  collapse_label (strip_suffix_pair text).

(** [label_final = re.sub(r"[^A-Za-z0-9_]", "", label_safe) or "NA"]
    ([build_output_metadata], [validate_output_constraints]). *)
Definition label_final_of (label_safe : string) : string :=
  on_chars (fun l => Chars.or_NA (Chars.delete_non_word l)) label_safe.

(** ** Tree relabeling (prepare_metadata_o2t_view.py) *)

(** [str(n)] for a non-negative integer. *)
Definition str_of_nat (n : nat) : string := NilZero.string_of_uint (Nat.to_uint n).

(** [counts[label]] of a [Counter]: a missing key counts 0. *)
Definition counter_get (counts : gmap string nat) (label : string) : nat :=
  default 0%nat (counts !! label).

(** One iteration of the loop of [ensure_unique_tree_labels]:
    [counts[label] += 1], then [label] or [f"{label}_{counts[label]}"] is appended. *)
Definition unique_step (st : gmap string nat * list string) (label : string)
  : gmap string nat * list string :=
  let '(counts, out) := st in
  let n := S (counter_get counts label) in
  let counts := <[label := n]> counts in
  if decide (n = 1%nat) then (counts, out ++ [label])
  else (counts, out ++ [label +:+ "_" +:+ str_of_nat n]).

Definition ensure_unique_tree_labels (labels : list string) : list string :=
  snd (fold_left unique_step labels (∅, [])).

(** [text.split(sep)] for a one-character separator. *)
Fixpoint split_chars (sep : ascii) (l : list ascii) : list (list ascii) :=
  match l with
  | [] => [[]]
  | c :: r =>
      if Ascii.eqb c sep then [] :: split_chars sep r
      else match split_chars sep r with
           | tok :: toks => (c :: tok) :: toks
           | [] => [[c]]
           end
  end.

Definition split (sep : ascii) (s : string) : list string :=
  string_of_list_ascii <$> split_chars sep (list_ascii_of_string s).

(** The name given to one terminal in [rewrite_tree_labels]: the first
    token of the stripped name that is a key of [code_to_taxon] selects
    [code_to_preferred_label.get(tok, tree_label_sanitize(code_to_taxon[tok]))];
    without such a token the stripped name is sanitized. *)
Definition terminal_name (code_to_taxon code_to_preferred_label : gmap string string)
    (original : string) : string :=
  let stripped := strip_suffix_12 original in
  let tokens := split Chars.underscore stripped in
  match List.find (fun tok => bool_decide (is_Some (code_to_taxon !! tok))) tokens with
  | Some tok =>
      match code_to_preferred_label !! tok with
      | Some preferred => preferred
      | None => tree_label_sanitize (default "" (code_to_taxon !! tok))
      end
  | None => tree_label_sanitize stripped
  end.

Inductive tree_error := NoTerminalNodes.

(** [rewrite_tree_labels], on the list of terminal names of the tree in
    traversal order ([clade.name or ""]); the result is the list of names
    written back to the terminals. *)
Definition rewrite_tree_labels (code_to_taxon code_to_preferred_label : gmap string string)
    (terminals : list string) : tree_error + list string :=
  match terminals with
  | [] => inl NoTerminalNodes
  | _ =>
      let final_names := terminal_name code_to_taxon code_to_preferred_label <$> terminals in
      inr (ensure_unique_tree_labels final_names)
  end.

(** ** Reference code index, permissive loaders *)

(** [line.startswith("#")] *)
Definition starts_with_hash (s : string) : bool :=
  match s with
  | String c _ => Ascii.eqb c "#"%char
  | EmptyString => false
  end.

Definition tab : ascii := "009"%char.

(** A line [taxon<TAB>code] of the table. *)
Definition tsv_line (taxon code : string) : string := taxon +:+ String tab code.

(** What one line of [five_letter_taxon.tsv] holds, as both loaders read it:
    [line = line.strip()]; empty and [#] lines are ignored;
    [parts = line.split("\t")] must have two fields, each stripped. *)
Inductive line_kind :=
| Ignored
| Malformed
| Entry (taxon code : string).

Definition read_line (line : string) : line_kind :=
  let line := strip line in
  if bool_decide (line = "") || starts_with_hash line then Ignored
  else match split tab line with
       | [p0; p1] => Entry (strip p0) (strip p1)
       | _ => Malformed
       end.

(** No line of [lines] is an entry whose comparison key is [k]. *)
Definition key_free (k : string) (lines : list string) : Prop :=
  forall l t c, l ∈ lines -> read_line l = Entry t c -> clean_alnum t <> k.

(** No line of [lines] is an entry whose code is [c]. *)
Definition code_free (c : string) (lines : list string) : Prop :=
  forall l t c', l ∈ lines -> read_line l = Entry t c' -> c' <> c.

(** [load_five_letter_codes] (msa_to_position_table.py): a malformed line
    is reported on stderr and skipped, an entry with an empty key is
    skipped, and [labelkey_to_code[label_key] = code] is a plain assignment. *)
Definition load_codes_step (labelkey_to_code : gmap string string) (line : string)
  : gmap string string :=
  match read_line line with
  | Ignored | Malformed => labelkey_to_code
  | Entry taxon code =>
      let label_key := clean_alnum taxon in
      if bool_decide (label_key = "") then labelkey_to_code
      else <[label_key := code]> labelkey_to_code
  end.

Definition load_five_letter_codes (lines : list string) : gmap string string :=
  fold_left load_codes_step lines ∅.

Inductive load_error := InvalidFiveLetterLine (line_no : nat).

(** [load_five_letter] (prepare_metadata_o2t_view.py): a malformed line
    raises [ValueError]; both dictionaries are filled by plain assignment.
    [line_no] is the 1-based number of the first line of [lines]. *)
Fixpoint load_five_letter_from (line_no : nat) (lines : list string)
    (labelkey_to_code code_to_taxon : gmap string string)
  : load_error + (gmap string string * gmap string string) :=
  match lines with
  | [] => inr (labelkey_to_code, code_to_taxon)
  | line :: rest =>
      match read_line line with
      | Ignored => load_five_letter_from (S line_no) rest labelkey_to_code code_to_taxon
      | Malformed => inl (InvalidFiveLetterLine line_no)
      | Entry taxon code =>
          load_five_letter_from (S line_no) rest
            (<[clean_alnum taxon := code]> labelkey_to_code)
            (<[code := taxon]> code_to_taxon)
      end
  end.

Definition load_five_letter (lines : list string)
  : load_error + (gmap string string * gmap string string) :=
  load_five_letter_from 1 lines ∅ ∅.

(** ** Gene selector (entropy_msa_og_gene_table.py) *)

(** A stable sort, as Python's [sorted] and [list.sort]: an element is put
    in front of the first later element that is not smaller. *)
Fixpoint insert_by {A} (le : A -> A -> bool) (x : A) (l : list A) : list A :=
  match l with
  | [] => [x]
  | y :: r => if le x y then x :: l else y :: insert_by le x r
  end.

Definition sort_by {A} (le : A -> A -> bool) (l : list A) : list A :=
  foldr (insert_by le) [] l.

(** A cell of the [Gene] column (pandas "string" dtype): [None] is [pd.NA]. *)
Abbreviation gene := (option string).

(** [str(g)] *)
Definition str_of_gene (g : gene) : string := default "<NA>" g.

Definition occurrences {A} `{EqDecision A} (x : A) (l : list A) : nat :=
  length (List.filter (fun y => bool_decide (y = x)) l).

(** The distinct values of a list, in order of first appearance. *)
Fixpoint distinct {A} `{EqDecision A} (l : list A) : list A :=
  match l with
  | [] => []
  | x :: r => x :: List.filter (fun y => negb (bool_decide (y = x))) (distinct r)
  end.

(** [Series.value_counts(dropna=...)]: each distinct value with its number
    of occurrences, by decreasing count.  Values with equal counts are kept
    here in order of first appearance; nothing proved below depends on the
    order of such values. *)
Definition value_counts (dropna : bool) (s : list gene) : list (gene * nat) :=
  let s := if dropna then List.filter (fun g => bool_decide (is_Some g)) s else s in
  sort_by (fun a b => Nat.leb (snd b) (snd a)) ((fun g => (g, occurrences g s)) <$> distinct s).

Inductive selector_error :=
| NoValidRows        (* "No valid OG/Gene rows available after filtering" *)
| MaxOfEmptySeries   (* int(counts.max()) on an empty series *)
| NoWinner.          (* winners[0] on an empty list *)

(** The key of [og_sort_key]: a string and an integer or [float("inf")]. *)
Inductive og_number := Fin (n : N) | Inf.

Abbreviation og_key := (string * og_number)%type.

Fixpoint span (p : ascii -> bool) (l : list ascii) : list ascii * list ascii :=
  match l with
  | c :: r => if p c then let '(a, b) := span p r in (c :: a, b) else ([], l)
  | [] => ([], [])
  end.

(** [int(digits)] for a run of decimal digits. *)
Definition int_of_digits (ds : list ascii) : N :=
  fold_left (fun acc d => 10 * acc + (Chars.code d - 48)) ds 0.

(** [og_sort_key]: [re.match(r"^([A-Za-z_]+)(\d+)$", og_value)].  The two
    classes are disjoint, so the first group is the longest leading run of
    [[A-Za-z_]], the second the longest run of digits after it, and [$]
    needs the rest to be empty or one final newline. *)
Definition og_sort_key (og_value : string) : og_key :=
  let '(prefix, rest) := span Chars.is_alpha_us (list_ascii_of_string og_value) in
  let '(digits, tail) := span Chars.is_digit rest in
  if negb (bool_decide (prefix = [])) && negb (bool_decide (digits = []))
     && (bool_decide (tail = []) || bool_decide (tail = [Chars.newline]))
  then (string_of_list_ascii prefix, Fin (int_of_digits digits))
  else (og_value, Inf).

Definition og_number_le (a b : og_number) : bool :=
  match a, b with
  | Fin x, Fin y => x <=? y
  | Fin _, Inf => true
  | Inf, Fin _ => false
  | Inf, Inf => true
  end.

(** Python's order on the key tuples: the strings decide unless they are equal. *)
Definition og_key_le (a b : og_key) : bool :=
  match String.compare (fst a) (fst b) with
  | Lt => true
  | Gt => false
  | Eq => og_number_le (snd a) (snd b)
  end.

Definition og_key_lt (a b : og_key) : bool := negb (og_key_le b a).

(** The OG [a] may stand before the OG [b] in the sorted table. *)
Definition og_le (a b : string) : Prop :=
  og_key_le (og_sort_key a) (og_sort_key b) = true.

Record og_row := { row_og : string; row_gene : gene }.

Record conflict_record := {
  conflict_og : string;
  conflict_gene_name : string;
  conflict_count : nat;
  conflict_chosen_gene : string;
  conflict_chosen_count : nat
}.

(** [work.groupby("OG", sort=False)]: the groups in order of first
    appearance of their OG, each with its [Gene] cells in row order. *)
Definition groupby_og (work : list og_row) : list (string * list gene) :=
  (fun og => (og, row_gene <$> List.filter (fun r => bool_decide (row_og r = og)) work))
    <$> distinct (row_og <$> work).

(** The rows that survive the filtering of [build_mapping]:
    [work[work["Gene"].notna()]] then [work[work["Gene"] != ""]]. *)
Definition has_gene_name (r : og_row) : bool :=
  match row_gene r with
  | None => false
  | Some g => negb (bool_decide (g = ""))
  end.

Definition surviving (keep_empty_gene : bool) (df : list og_row) : list og_row :=
  if keep_empty_gene then df else List.filter has_gene_name df.

Section GeneSelector.

(** [str.casefold].  Its Unicode tables are not part of the sources; it is
    a parameter, and [casefold_ascii] below is its restriction to ASCII. *)
Variable casefold : string -> string.

Definition casefold_le (a b : string) : bool := String.leb (casefold a) (casefold b).

(** [choose_gene_name]: returns [(chosen, max_count, len(counts))]. *)
Definition choose_gene_name (gene_series : list gene)
  : selector_error + (string * nat * nat) :=
  let counts := value_counts false gene_series in
  match counts with
  | [] => inl MaxOfEmptySeries
  | _ =>
      let max_count := max_list (snd <$> counts) in
      let winners :=
        sort_by casefold_le
          (str_of_gene <$> (fst <$> List.filter (fun gc => Nat.eqb (snd gc) max_count) counts)) in
      match winners with
      | chosen :: _ => inr (chosen, max_count, length counts)
      | [] => inl NoWinner
      end
  end.

(** The body of the loop of [build_mapping] for one group. *)
Definition mapping_of_group (grp : string * list gene)
  : selector_error + ((string * string) * list conflict_record) :=
  let '(og, genes) := grp in
  match choose_gene_name genes with
  | inl e => inl e
  | inr (chosen, chosen_count, n_unique) =>
      let conflicts :=
        if Nat.ltb 1 n_unique then
          (fun gc => {| conflict_og := og;
                        conflict_gene_name := str_of_gene (fst gc);
                        conflict_count := snd gc;
                        conflict_chosen_gene := chosen;
                        conflict_chosen_count := chosen_count |})
            <$> value_counts true genes
        else [] in
      inr ((og, chosen), conflicts)
  end.

Fixpoint mapping_of_groups (grps : list (string * list gene))
  : selector_error + (list (string * string) * list conflict_record) :=
  match grps with
  | [] => inr ([], [])
  | grp :: rest =>
      match mapping_of_group grp with
      | inl e => inl e
      | inr (rec, cs) =>
          match mapping_of_groups rest with
          | inl e => inl e
          | inr (recs, css) => inr (rec :: recs, cs ++ css)
          end
      end
  end.

(** [build_mapping]: the [(OG, gene)] records sorted on [og_sort_key],
    and the conflict records.  [DataFrame.sort_values] sorts with
    quicksort, which is not stable: the code does not fix the order of
    records whose keys are equal ([OG8] and [OG08]).  [sort_by] keeps such
    records in the order of their groups; what is proved of the table
    (sortedness, its rows, its OGs) holds for either order. *)
Definition build_mapping (df : list og_row) (keep_empty_gene : bool)
  : selector_error + (list (string * string) * list conflict_record) :=
  let work := surviving keep_empty_gene df in
  match work with
  | [] => inl NoValidRows
  | _ =>
      match mapping_of_groups (groupby_og work) with
      | inl e => inl e
      | inr (records, conflict_records) =>
          inr (sort_by (fun a b => og_key_le (og_sort_key (fst a)) (og_sort_key (fst b))) records,
               conflict_records)
      end
  end.

End GeneSelector.

(** [str.casefold] on ASCII text: the letters A-Z are lowered. *)
Definition casefold_ascii_char (c : ascii) : ascii :=
  if Chars.is_upper c then ascii_of_N (Chars.code c + 32) else c.

Definition casefold_ascii : string -> string := on_chars (List.map casefold_ascii_char).

(** ** Label lookup builder (msa_to_position_table.py) *)

(** A cell of the metadata [DataFrame]: [None] is a missing value
    ([pd.isna]), [Some s] a value whose [str()] is [s]. *)
Abbreviation cell := (option string).

Record data_frame := {
  df_columns : list string;
  df_rows : list (list cell)
}.

(** [row[column]] *)
Definition row_get (columns : list string) (row : list cell) (column : string) : cell :=
  match list_find (fun c => c = column) columns with
  | Some (i, _) => default None (row !! i)
  | None => None
  end.

(** [candidate_ids.add(x)], the set kept as a duplicate-free list. *)
Definition set_add (x : string) (s : list string) : list string :=
  if decide (x ∈ s) then s else s ++ [x].

(** The candidate identifiers of one row, from its stripped match value. *)
Definition candidate_ids (five_letter_map : gmap string string) (match_value : string)
  : list string :=
  let ids := set_add (normalize_msa_id match_value) [] in
  let cleaned_label := clean_alnum match_value in
  let ids :=
    if bool_decide (cleaned_label = "") then ids
    else set_add (normalize_msa_id cleaned_label) ids in
  match five_letter_map !! cleaned_label with
  | Some code =>
      if bool_decide (code = "") then ids else set_add (normalize_msa_id code) ids
  | None => ids
  end.

(** What a row contributes: its output label and its candidates, or
    nothing when the match value or the output label is missing or blank. *)
Definition row_bindings (five_letter_map : gmap string string)
    (columns : list string) (match_column output_label_column : string) (row : list cell)
  : option (string * list string) :=
  match row_get columns row match_column with
  | None => None
  | Some match_value =>
      let match_value := strip match_value in
      if bool_decide (match_value = "") then None
      else match row_get columns row output_label_column with
           | None => None
           | Some output_label =>
               let output_label := strip output_label in
               if bool_decide (output_label = "") then None
               else Some (output_label, candidate_ids five_letter_map match_value)
           end
  end.

(** The body of [for candidate in candidate_ids], on the state
    [(lookup, collisions)]. *)
Definition bind_candidate (output_label : string) (st : gmap string string * nat)
    (candidate : string) : gmap string string * nat :=
  let '(lookup, collisions) := st in
  if bool_decide (candidate = "") then st
  else match lookup !! candidate with
       | Some existing =>
           if bool_decide (existing = output_label)
           then (<[candidate := output_label]> lookup, collisions)
           else (lookup, S collisions)
       | None => (<[candidate := output_label]> lookup, collisions)
       end.

(** An attempt to bind [c] to [output_label] conflicts with [lookup]:
    [c] is not empty and is bound there to another label. *)
Definition conflicts_with (lookup : gmap string string) (output_label c : string) : bool :=
  negb (bool_decide (c = ""))
  && match lookup !! c with
     | Some existing => negb (bool_decide (existing = output_label))
     | None => false
     end.

Definition bind_row (st : gmap string string * nat) (b : option (string * list string))
  : gmap string string * nat :=
  match b with
  | None => st
  | Some (output_label, candidates) => fold_left (bind_candidate output_label) candidates st
  end.

Inductive lookup_error := MatchColumnNotFound (column : string).

(** The column whose value becomes the output label. *)
Definition output_label_column (metadata : data_frame) (match_column : string) : string :=
  if decide ("label" ∈ df_columns metadata) then "label" else match_column.

(** What the rows of the table contribute, in row order. *)
Definition metadata_bindings (metadata : data_frame) (match_column : string)
    (five_letter_map : gmap string string) : list (option (string * list string)) :=
  row_bindings five_letter_map (df_columns metadata) match_column
    (output_label_column metadata match_column) <$> df_rows metadata.

(** The output label of the first of the rows [bs] that has [c] among its candidates. *)
Fixpoint first_label (bs : list (option (string * list string))) (c : string) : option string :=
  match bs with
  | [] => None
  | None :: rest => first_label rest c
  | Some (output_label, candidates) :: rest =>
      if decide (c ∈ candidates) then Some output_label else first_label rest c
  end.

(** A row labelled [output_label] that comes after the rows [seen] makes a
    conflicting attempt on its candidate [c]: [c] is not empty and the first
    of the rows [seen] that produced [c] has another label. *)
Definition conflicting (seen : list (option (string * list string)))
    (output_label c : string) : bool :=
  negb (bool_decide (c = ""))
  && match first_label seen c with
     | Some l => negb (bool_decide (l = output_label))
     | None => false
     end.

(** The number of conflicting attempts made by the rows [bs] that follow the rows [seen]. *)
Fixpoint conflicting_attempts (seen bs : list (option (string * list string))) : nat :=
  match bs with
  | [] => 0
  | b :: rest =>
      (match b with
       | Some (output_label, candidates) =>
           length (List.filter (conflicting seen output_label) candidates)
       | None => 0
       end + conflicting_attempts (seen ++ [b]) rest)%nat
  end.

(** [build_metadata_label_lookup]: the lookup, and the number of
    collisions reported in the warning. *)
Definition build_metadata_label_lookup (metadata : data_frame) (match_column : string)
    (five_letter_map : gmap string string) : lookup_error + (gmap string string * nat) :=
  if decide (match_column ∈ df_columns metadata) then
    inr (fold_left bind_row (metadata_bindings metadata match_column five_letter_map)
           (∅, 0%nat))
  else inl (MatchColumnNotFound match_column).

(** ** Metadata parsers (validate_metadata.py, prepare_metadata_o2t_view.py) *)

(** [str.lower] on the code points below 256. *)
Definition lower_char (c : ascii) : ascii :=
  if Chars.is_upper c || Chars.in_range 192 214 c || Chars.in_range 216 222 c
  then ascii_of_N (Chars.code c + 32) else c.

Definition lower : string -> string := on_chars (List.map lower_char).

(** ["," in text] *)
Definition has_comma (s : string) : bool :=
  existsb (fun c => Ascii.eqb c ","%char) (list_ascii_of_string s).

Definition VALID_TYPES : list string := ["character"; "date"; "numeric"; "integer"].

Record MetadataInput := {
  header : list string;
  types : list string;
  rows : list (gmap string string);
  label_col : string;
  accession_col : string
}.

Inductive parse_error :=
| TooFewRows
| ColumnCountMismatch
| InvalidTypes (bad : list string)
| NoLabelColumn
| NoAccessionColumn
| RowTooLong (i : nat)
| EmptyLabel (i : nat)
| LabelHasComma (i : nat)
| EmptyAccession (i : nat)
| AccessionHasComma (i : nat)
| NoDataRows.

(** [{col.lower(): col for col in header}] *)
Definition lower_map (header : list string) : gmap string string :=
  fold_left (fun m col => <[lower col := col]> m) header ∅.

(** [raw + [""] * (len(header) - len(raw))] *)
Definition pad_row (n : nat) (raw : list string) : list string :=
  raw ++ replicate (n - length raw) "".

(** [{header[idx]: raw[idx].strip() for idx in range(len(header))}] for a
    row already padded to the width of the header. *)
Definition row_dict (header raw : list string) : gmap string string :=
  fold_left (fun m kv => <[fst kv := strip (snd kv)]> m) (zip header raw) ∅.

(** [not any(v != "" for v in row.values())] *)
Definition all_values_empty (row : gmap string string) : bool :=
  bool_decide (map_Forall (fun _ v => v = "") row).

(** [row[col]]; the parsers only read columns of the header. *)
Definition row_value (row : gmap string string) (col : string) : string :=
  default "" (row !! col).

(** The checks both parsers run on the first two rows, after which
    [label_col] and [accession_col] are known. *)
Definition find_required (header : list string) : parse_error + (string * string) :=
  match lower_map header !! "label", lower_map header !! "accession" with
  | None, _ => inl NoLabelColumn
  | Some _, None => inl NoAccessionColumn
  | Some l, Some a => inr (l, a)
  end.

(** A data row whose cells are all empty once stripped. *)
Definition blank_row (raw : list string) : Prop :=
  Forall (fun cell => strip cell = "") raw.

Module Validate.

(** The row loop of [parse_metadata_csv] in validate_metadata.py;
    [i] is the number of the first row of [raws] (the loop starts at 3). *)
Fixpoint parse_rows (header : list string) (label_col accession_col : string)
    (i : nat) (raws : list (list string)) : parse_error + list (gmap string string) :=
  match raws with
  | [] => inr []
  | raw :: rest =>
      if decide (length header < length raw)%nat then inl (RowTooLong i)
      else
        let row := row_dict header (pad_row (length header) raw) in
        if all_values_empty row then parse_rows header label_col accession_col (S i) rest
        else
          let label := row_value row label_col in
          if bool_decide (label = "") then inl (EmptyLabel i)
          else if has_comma label then inl (LabelHasComma i)
          else
            let accession := row_value row accession_col in
            if bool_decide (accession = "") then inl (EmptyAccession i)
            else if has_comma accession then inl (AccessionHasComma i)
            else match parse_rows header label_col accession_col (S i) rest with
                 | inl e => inl e
                 | inr data_rows => inr (row :: data_rows)
                 end
  end.

(** The checks of [parse_metadata_csv] on the header row and the type
    row; they yield [header], [types], [label_col] and [accession_col]. *)
Definition check_header (r0 r1 : list string)
  : parse_error + (list string * list string * string * string) :=
  let header := strip <$> r0 in
  let types := (fun t => lower (strip t)) <$> r1 in
  if negb (bool_decide (length header = length types)) then inl ColumnCountMismatch
  else
    let bad_types := List.filter (fun t => negb (bool_decide (t ∈ VALID_TYPES))) types in
    match bad_types with
    | _ :: _ => inl (InvalidTypes bad_types)
    | [] =>
        match find_required header with
        | inl e => inl e
        | inr (label_col, accession_col) => inr (header, types, label_col, accession_col)
        end
    end.

(** [parse_metadata_csv] on the rows read by [csv.reader]. *)
Definition parse_metadata_csv (csv_rows : list (list string)) : parse_error + MetadataInput :=
  match csv_rows with
  | r0 :: r1 :: ((_ :: _) as data) =>
      match check_header r0 r1 with
      | inl e => inl e
      | inr (header, types, label_col, accession_col) =>
          match parse_rows header label_col accession_col 3 data with
          | inl e => inl e
          | inr [] => inl NoDataRows
          | inr data_rows =>
              inr {| header := header; types := types; rows := data_rows;
                     label_col := label_col; accession_col := accession_col |}
          end
      end
  | _ => inl TooFewRows
  end.

End Validate.

Module Prepare.

(** The row loop of [parse_metadata_csv] in prepare_metadata_o2t_view.py:
    the same padding, length check and blank-row test, no field checks. *)
Fixpoint parse_rows (header : list string) (i : nat) (raws : list (list string))
  : parse_error + list (gmap string string) :=
  match raws with
  | [] => inr []
  | raw :: rest =>
      if decide (length header < length raw)%nat then inl (RowTooLong i)
      else
        let row := row_dict header (pad_row (length header) raw) in
        if all_values_empty row then parse_rows header (S i) rest
        else match parse_rows header (S i) rest with
             | inl e => inl e
             | inr data_rows => inr (row :: data_rows)
             end
  end.

Definition check_header (r0 r1 : list string)
  : parse_error + (list string * list string * string * string) :=
  let header := strip <$> r0 in
  let types := (fun t => lower (strip t)) <$> r1 in
  if negb (bool_decide (length header = length types)) then inl ColumnCountMismatch
  else
    match find_required header with
    | inl e => inl e
    | inr (label_col, accession_col) => inr (header, types, label_col, accession_col)
    end.

Definition parse_metadata_csv (csv_rows : list (list string)) : parse_error + MetadataInput :=
  match csv_rows with
  | r0 :: r1 :: ((_ :: _) as data) =>
      match check_header r0 r1 with
      | inl e => inl e
      | inr (header, types, label_col, accession_col) =>
          match parse_rows header 3 data with
          | inl e => inl e
          | inr [] => inl NoDataRows
          | inr data_rows =>
              inr {| header := header; types := types; rows := data_rows;
                     label_col := label_col; accession_col := accession_col |}
          end
      end
  | _ => inl TooFewRows
  end.

End Prepare.

(** ** Reference code index, strict loader (validate_metadata.py) *)

Module StrictIndex.

Inductive load_error :=
| InvalidLine (line_no : nat)
| DuplicatedCode (code : string)
| CollidingTaxon (taxon other : string).

(** The loop of [load_five_letter] in validate_metadata.py.  A repeated
    code and a repeated comparison key both raise.  In the message of
    the second error [code_to_taxon[labelkey_to_code[label_key]]] is read;
    the two dictionaries are filled together, so that key is present. *)
Fixpoint load_from (line_no : nat) (lines : list string)
    (labelkey_to_code code_to_taxon : gmap string string) (seen_codes : gset string)
  : load_error + (gmap string string * gmap string string) :=
  match lines with
  | [] => inr (labelkey_to_code, code_to_taxon)
  | line :: rest =>
      match read_line line with
      | Ignored => load_from (S line_no) rest labelkey_to_code code_to_taxon seen_codes
      | Malformed => inl (InvalidLine line_no)
      | Entry taxon code =>
          if decide (code ∈ seen_codes) then inl (DuplicatedCode code)
          else
            let label_key := clean_alnum taxon in
            match labelkey_to_code !! label_key with
            | Some c => inl (CollidingTaxon taxon (default "" (code_to_taxon !! c)))
            | None =>
                load_from (S line_no) rest
                  (<[label_key := code]> labelkey_to_code)
                  (<[code := taxon]> code_to_taxon)
                  ({[code]} ∪ seen_codes)
            end
      end
  end.

Definition load_five_letter (lines : list string)
  : load_error + (gmap string string * gmap string string) :=
  load_from 1 lines ∅ ∅ ∅.

End StrictIndex.

(** The entries of the table, in line order. *)
Definition entries_of (lines : list string) : list (string * string) :=
  omap (fun line => match read_line line with
                    | Entry taxon code => Some (taxon, code)
                    | _ => None
                    end) lines.

(** ** Checks of validate_metadata.py on a parsed table *)

Inductive validation_error :=
| KeyError (key : string)
| IndexError
| MissingReferences (missing_refs : list string)
| MissingReadsets (missing : list string)
| DuplicatedLabel (raw_label : string)
| DuplicatedAccession (accession : string)
| LabelCollision (raw_label other : string)
| NoCovFiles.

(** [row[col]] on a row dictionary. *)
Definition row_getitem (row : gmap string string) (col : string)
  : validation_error + string :=
  match row !! col with
  | Some v => inr v
  | None => inl (KeyError col)
  end.

(** [[row[col] for row in rows]] *)
Fixpoint column_values (col : string) (rows : list (gmap string string))
  : validation_error + list string :=
  match rows with
  | [] => inr []
  | row :: rest =>
      match row_getitem row col with
      | inl e => inl e
      | inr v =>
          match column_values col rest with
          | inl e => inl e
          | inr vs => inr (v :: vs)
          end
      end
  end.

(** [[code_to_taxon[labelkey_to_code[k]] for k in missing_keys]] *)
Fixpoint missing_refs_of (labelkey_to_code code_to_taxon : gmap string string)
    (missing_keys : list string) : validation_error + list string :=
  match missing_keys with
  | [] => inr []
  | k :: rest =>
      match labelkey_to_code !! k with
      | None => inl (KeyError k)
      | Some code =>
          match code_to_taxon !! code with
          | None => inl (KeyError code)
          | Some taxon =>
              match missing_refs_of labelkey_to_code code_to_taxon rest with
              | inl e => inl e
              | inr taxa => inr (taxon :: taxa)
              end
          end
      end
  end.

(** [validate_reference_coverage]:
    [missing_keys = sorted(set(labelkey_to_code) - metadata_label_keys)]. *)
Definition validate_reference_coverage (meta : MetadataInput)
    (labelkey_to_code code_to_taxon : gmap string string) : validation_error + unit :=
  match column_values (label_col meta) (rows meta) with
  | inl e => inl e
  | inr labels =>
      let metadata_label_keys : gset string := list_to_set (clean_alnum <$> labels) in
      let missing_keys :=
        sort_by String.leb (elements (dom labelkey_to_code ∖ metadata_label_keys)) in
      match missing_keys with
      | [] => inr tt
      | _ =>
          match missing_refs_of labelkey_to_code code_to_taxon missing_keys with
          | inl e => inl e
          | inr missing_refs => inl (MissingReferences missing_refs)
          end
      end
  end.

(** [validate_readset_presence]:
    [missing = [name for name in readset_names if name not in labels]]. *)
Definition validate_readset_presence (meta : MetadataInput) (readset_names : list string)
  : validation_error + unit :=
  match column_values (label_col meta) (rows meta) with
  | inl e => inl e
  | inr labels =>
      match List.filter (fun name => negb (bool_decide (name ∈ labels))) readset_names with
      | [] => inr tt
      | missing => inl (MissingReadsets missing)
      end
  end.

(** The key on which [validate_output_constraints] detects collisions:
    [clean_alnum(label_final)] for the label written by prepare. *)
Definition collision_key_of (raw_label : string) : string :=
  clean_alnum (label_final_of (tree_label_sanitize raw_label)).

Record constraint_state := {
  seen_sample_ids : gset string;
  seen_raw_labels : gset string;
  seen_label_keys : gmap string string;
  ref_count : nat;
  read_count : nat
}.

Definition constraint_start : constraint_state :=
  {| seen_sample_ids := ∅; seen_raw_labels := ∅; seen_label_keys := ∅;
     ref_count := 0; read_count := 0 |}.

(** The body of the loop of [validate_output_constraints]. *)
Definition constraint_step (labelkey_to_code : gmap string string)
    (label_col accession_col : string) (st : constraint_state) (row : gmap string string)
  : validation_error + constraint_state :=
  match row_getitem row accession_col with
  | inl e => inl e
  | inr accession =>
      match row_getitem row label_col with
      | inl e => inl e
      | inr raw_label =>
          if decide (raw_label ∈ seen_raw_labels st) then inl (DuplicatedLabel raw_label)
          else if decide (accession ∈ seen_sample_ids st)
               then inl (DuplicatedAccession accession)
          else
            match seen_label_keys st !! collision_key_of raw_label with
            | Some other => inl (LabelCollision raw_label other)
            | None =>
                let is_ref := bool_decide (is_Some (labelkey_to_code !! clean_alnum raw_label)) in
                inr {| seen_sample_ids := {[accession]} ∪ seen_sample_ids st;
                       seen_raw_labels := {[raw_label]} ∪ seen_raw_labels st;
                       seen_label_keys :=
                         <[collision_key_of raw_label := raw_label]> (seen_label_keys st);
                       ref_count := if is_ref then S (ref_count st) else ref_count st;
                       read_count := if is_ref then read_count st else S (read_count st) |}
            end
      end
  end.

Fixpoint constraint_loop (labelkey_to_code : gmap string string)
    (label_col accession_col : string) (st : constraint_state)
    (rows : list (gmap string string)) : validation_error + constraint_state :=
  match rows with
  | [] => inr st
  | row :: rest =>
      match constraint_step labelkey_to_code label_col accession_col st row with
      | inl e => inl e
      | inr st' => constraint_loop labelkey_to_code label_col accession_col st' rest
      end
  end.

(** What the loop needs of the labels and accessions of the rows still to
    come: they are pairwise distinct and new, and so are the collision keys
    of the labels. *)
Definition admissible (st : constraint_state) (labels accessions : list string) : Prop :=
  NoDup labels /\ (forall l, l ∈ labels -> l ∉ seen_raw_labels st)
  /\ NoDup accessions /\ (forall a, a ∈ accessions -> a ∉ seen_sample_ids st)
  /\ NoDup (collision_key_of <$> labels)
  /\ (forall l, l ∈ labels -> seen_label_keys st !! collision_key_of l = None).

(** [validate_output_constraints]; the result holds the two counts of the log line. *)
Definition validate_output_constraints (meta : MetadataInput)
    (labelkey_to_code : gmap string string) : validation_error + (nat * nat) :=
  match constraint_loop labelkey_to_code (label_col meta) (accession_col meta)
          constraint_start (rows meta) with
  | inl e => inl e
  | inr st => inr (ref_count st, read_count st)
  end.

(** [name.endswith(suffix)] *)
Definition ends_with (suffix name : string) : bool :=
  bool_decide (list_ascii_of_string suffix `suffix_of` list_ascii_of_string name).

(** [name[:-n]] for [0 < n] *)
Definition drop_last (n : nat) (name : string) : string :=
  on_chars (fun l => take (length l - n) l) name.

Definition cov_suffix : string := "_all_cov.txt".

(** [load_readsets_from_cov], on the names of the regular files of the
    results directory:
    [sorted({name[:-len(suffix)] for name in files
             if name.endswith(suffix) and name != suffix})]. *)
Definition load_readsets_from_cov (files : list string) : validation_error + list string :=
  let names :=
    sort_by String.leb
      (distinct (drop_last (String.length cov_suffix)
                   <$> List.filter (fun name => ends_with cov_suffix name
                                                && negb (bool_decide (name = cov_suffix)))
                         files)) in
  match names with
  | [] => inl NoCovFiles
  | _ => inr names
  end.

Inductive validate_failure :=
| ParseFailure (e : parse_error)
| IndexFailure (e : StrictIndex.load_error)
| CheckFailure (e : validation_error).

(** [main] of validate_metadata.py, on the rows of the metadata file, the
    lines of the reference table and the file names of the results directory. *)
Definition validate_main (csv_rows : list (list string)) (five_letter_lines : list string)
    (cov_files : list string) : validate_failure + unit :=
  match Validate.parse_metadata_csv csv_rows with
  | inl e => inl (ParseFailure e)
  | inr meta =>
      match StrictIndex.load_five_letter five_letter_lines with
      | inl e => inl (IndexFailure e)
      | inr (labelkey_to_code, code_to_taxon) =>
          match load_readsets_from_cov cov_files with
          | inl e => inl (CheckFailure e)
          | inr readset_names =>
              match validate_reference_coverage meta labelkey_to_code code_to_taxon with
              | inl e => inl (CheckFailure e)
              | inr _ =>
                  match validate_readset_presence meta readset_names with
                  | inl e => inl (CheckFailure e)
                  | inr _ =>
                      match validate_output_constraints meta labelkey_to_code with
                      | inl e => inl (CheckFailure e)
                      | inr _ => inr tt
                      end
                  end
              end
          end
      end
  end.

(** ** Output table of prepare_metadata_o2t_view.py *)

(** [c.lower() not in {"label", "accession"}] *)
Definition is_extra_col (c : string) : bool :=
  negb (bool_decide (lower c = "label") || bool_decide (lower c = "accession")).

(** [meta.header.index(c)]: the first position of [c]. *)
Definition header_index (c : string) (header : list string) : option nat :=
  fst <$> list_find (fun h => h = c) header.

(** [[meta.types[meta.header.index(c)] for c in extra_cols]] *)
Fixpoint extra_types_of (header types extra_cols : list string)
  : validation_error + list string :=
  match extra_cols with
  | [] => inr []
  | c :: rest =>
      match header_index c header ≫= fun i => types !! i with
      | None => inl IndexError
      | Some t =>
          match extra_types_of header types rest with
          | inl e => inl e
          | inr ts => inr (t :: ts)
          end
      end
  end.

(** [row.get(c, "") or "NA"] *)
Definition extra_cell (row : gmap string string) (c : string) : string :=
  match row !! c with
  | Some v => if bool_decide (v = "") then "NA" else v
  | None => "NA"
  end.

(** The body of the loop of [build_output_metadata] for one row: the
    output row and the preferred label recorded for a reference. *)
Definition output_row (labelkey_to_code : gmap string string)
    (label_col accession_col : string) (extra_cols : list string)
    (row : gmap string string) (code_to_preferred_label : gmap string string)
  : validation_error + (list string * gmap string string) :=
  match row_getitem row label_col with
  | inl e => inl e
  | inr raw_label =>
      match row_getitem row accession_col with
      | inl e => inl e
      | inr accession =>
          let label_key := clean_alnum raw_label in
          let label_final := label_final_of (tree_label_sanitize raw_label) in
          let extras := extra_cell row <$> extra_cols in
          match labelkey_to_code !! label_key with
          | Some code =>
              inr (accession :: label_final :: "Reference" :: extras,
                   <[code := label_final]> code_to_preferred_label)
          | None =>
              inr (accession :: label_final :: "Readset" :: extras, code_to_preferred_label)
          end
      end
  end.

Fixpoint output_rows (labelkey_to_code : gmap string string)
    (label_col accession_col : string) (extra_cols : list string)
    (rows : list (gmap string string)) (code_to_preferred_label : gmap string string)
  : validation_error + (list (list string) * gmap string string) :=
  match rows with
  | [] => inr ([], code_to_preferred_label)
  | row :: rest =>
      match output_row labelkey_to_code label_col accession_col extra_cols row
              code_to_preferred_label with
      | inl e => inl e
      | inr (out_row, pref) =>
          match output_rows labelkey_to_code label_col accession_col extra_cols rest pref with
          | inl e => inl e
          | inr (out_rows, pref') => inr (out_row :: out_rows, pref')
          end
      end
  end.

(** [build_output_metadata]: [(out_header, out_types, out_rows, code_to_preferred_label)]. *)
Definition build_output_metadata (meta : MetadataInput)
    (labelkey_to_code : gmap string string)
  : validation_error
    + (list string * list string * list (list string) * gmap string string) :=
  let extra_cols := List.filter is_extra_col (header meta) in
  match extra_types_of (header meta) (types meta) extra_cols with
  | inl e => inl e
  | inr extra_types =>
      let out_header := ["sample_id"; "label"; "source"] ++ extra_cols in
      let out_types := ["character"; "character"; "character"] ++ extra_types in
      match output_rows labelkey_to_code (label_col meta) (accession_col meta) extra_cols
              (rows meta) ∅ with
      | inl e => inl e
      | inr (out_rows, code_to_preferred_label) =>
          inr (out_header, out_types, out_rows, code_to_preferred_label)
      end
  end.

(** The name [ensure_unique_tree_labels] writes for a label that already
    occurred [k] times. *)
Definition name_after (k : nat) (x : string) : string :=
  if decide (k = 0%nat) then x else x +:+ "_" +:+ str_of_nat (S k).

(** A name made of characters of [[A-Za-z0-9_]] only, and not empty. *)
Definition word_name (s : string) : Prop :=
  s <> "" /\ Forall (fun c => Chars.is_word c = true) (list_ascii_of_string s).

(** ** Sample relabeling and type row of msa_to_position_table.py *)

(** The relabeling of [main]: the ids are normalized, the records whose id
    is not a key of the lookup are dropped, the others get the looked-up
    label.  A record is its sample id and the rest of its columns. *)
Definition relabel_records {A} (metadata_label_lookup : gmap string string)
    (records : list (string * A)) : list (string * A) :=
  let normalized := (fun r => (normalize_msa_id (fst r), snd r)) <$> records in
  let kept :=
    List.filter (fun r => bool_decide (is_Some (metadata_label_lookup !! fst r))) normalized in
  (fun r => (default "" (metadata_label_lookup !! fst r), snd r)) <$> kept.

Definition METADATA_TYPE_VALUES : list string :=
  ["character"; "numeric"; "integer"; "date"; "factor"; "logical"].

(** [str(x)] of a cell: a missing value prints as [nan]. *)
Definition str_of_cell (c : cell) : string := default "nan" c.

(** [maybe_drop_metadata_type_row]; [metadata.empty] holds without rows or
    without columns. *)
Definition maybe_drop_metadata_type_row (metadata : data_frame) : data_frame :=
  match df_columns metadata, df_rows metadata with
  | [], _ | _, [] => metadata
  | _, first_row :: rest =>
      if forallb (fun c => bool_decide (lower (strip (str_of_cell c)) ∈ METADATA_TYPE_VALUES))
           first_row
      then {| df_columns := df_columns metadata; df_rows := rest |}
      else metadata
  end.

(** ** Decimal numerals *)

(** [str(n)] for a non-negative integer [n : N]. *)
Definition str_of_N (n : N) : string := NilZero.string_of_uint (N.to_uint n).

(** * Properties *)

(** ** Strings and character lists *)

Lemma chars_of_append (s t : string) :
  list_ascii_of_string (s +:+ t) = list_ascii_of_string s ++ list_ascii_of_string t.
Proof.
  induction s as [|c s IH]; [done|].
  change (String c s +:+ t) with (String c (s +:+ t)). cbn. by rewrite IH.
Qed.

Lemma chars_inj (s t : string) :
  list_ascii_of_string s = list_ascii_of_string t -> s = t.
Proof.
  intros H. rewrite <- (string_of_list_ascii_of_string s), H.
  apply string_of_list_ascii_of_string.
Qed.

Lemma on_chars_chars (f : list ascii -> list ascii) (s : string) :
  list_ascii_of_string (on_chars f s) = f (list_ascii_of_string s).
Proof. apply list_ascii_of_string_of_list_ascii. Qed.

Lemma on_chars_compose (f g : list ascii -> list ascii) (s : string) :
  on_chars f (on_chars g s) = on_chars (fun l => f (g l)) s.
Proof. unfold on_chars. by rewrite list_ascii_of_string_of_list_ascii. Qed.

Lemma on_chars_append (f : list ascii -> list ascii) (s t : string) (l : list ascii) :
  f (list_ascii_of_string s ++ list_ascii_of_string t) = l ->
  on_chars f (s +:+ t) = string_of_list_ascii l.
Proof. intros <-. unfold on_chars. by rewrite chars_of_append. Qed.

Module CharFacts.
Import Chars.

Lemma is_us_true (c : ascii) : is_us c = true <-> c = underscore.
Proof. apply Ascii.eqb_eq. Qed.

Lemma is_us_false (c : ascii) : is_us c = false <-> c <> underscore.
Proof. apply Ascii.eqb_neq. Qed.

(** *** [drop_while] and [strip_by] *)

Lemma drop_while_suffix p l :
  exists pre, l = pre ++ drop_while p l /\ Forall (fun c => p c = true) pre.
Proof.
  induction l as [|c r [pre [IH1 IH2]]]; [by exists []|].
  cbn. destruct (p c) eqn:Hc.
  - exists (c :: pre). split; [cbn; by f_equal | by constructor].
  - by exists [].
Qed.

Lemma drop_while_head p l c r : drop_while p l = c :: r -> p c = false.
Proof.
  induction l as [|d l IH]; [done|]. cbn.
  destruct (p d) eqn:Hd; [done|]. by intros [= -> _].
Qed.

Lemma drop_while_id p l : (forall c, head l = Some c -> p c = false) -> drop_while p l = l.
Proof. destruct l as [|c r]; [done|]. intros H. cbn. by rewrite (H c). Qed.

Lemma drop_while_app_stop p l c r :
  p c = false -> drop_while p (l ++ c :: r) = drop_while p l ++ c :: r.
Proof.
  intros Hc. induction l as [|d l IH]; cbn; [by rewrite Hc|].
  by destruct (p d).
Qed.

(** What [strip_by] keeps is the middle of the text, between two runs of
    stripped characters. *)
Lemma strip_by_middle p l :
  exists pre post, l = pre ++ strip_by p l ++ post
                   /\ Forall (fun c => p c = true) pre
                   /\ Forall (fun c => p c = true) post.
Proof.
  unfold strip_by.
  destruct (drop_while_suffix p l) as [pre [H1 H2]].
  destruct (drop_while_suffix p (reverse (drop_while p l))) as [post [H3 H4]].
  exists pre, (reverse post). split_and!.
  - rewrite <- reverse_app, <- H3, reverse_involutive. done.
  - done.
  - by apply Forall_reverse.
Qed.

Lemma strip_by_last p l c : last (strip_by p l) = Some c -> p c = false.
Proof.
  unfold strip_by. rewrite last_reverse.
  destruct (drop_while p (reverse (drop_while p l))) as [|d r] eqn:E; [done|].
  cbn. intros [= ->]. by apply drop_while_head in E.
Qed.

Lemma strip_by_head p l c : head (strip_by p l) = Some c -> p c = false.
Proof.
  unfold strip_by. rewrite head_reverse. intros H.
  destruct (drop_while_suffix p (reverse (drop_while p l))) as [post [H3 _]].
  apply last_Some in H as [m Hm]. rewrite Hm in H3.
  apply (f_equal reverse) in H3.
  rewrite reverse_involutive, reverse_app, reverse_snoc in H3. cbn in H3.
  by apply drop_while_head in H3.
Qed.

Lemma strip_by_id p l :
  (forall c, head l = Some c -> p c = false) ->
  (forall c, last l = Some c -> p c = false) ->
  strip_by p l = l.
Proof.
  intros Hh Hl. unfold strip_by. rewrite (drop_while_id p l Hh).
  rewrite drop_while_id; [apply reverse_involutive|].
  intros c. rewrite head_reverse. apply Hl.
Qed.

(** *** [sub_runs] *)

Lemma sub_runs_Forall (P : ascii -> Prop) p b l :
  P underscore -> Forall (fun c => p c = false -> P c) l -> Forall P (sub_runs p b l).
Proof.
  intros Hu Hl. revert b. induction Hl as [|c r Hc _ IH]; intros b; cbn; [constructor|].
  destruct (p c) eqn:E.
  - destruct b; [apply IH | constructor; [done | apply IH]].
  - constructor; [by apply Hc | apply IH].
Qed.

Lemma sub_runs_id p b l : Forall (fun c => p c = false) l -> sub_runs p b l = l.
Proof.
  intros Hl. revert b. induction Hl as [|c r Hc _ IH]; intros b; cbn; [done|].
  by rewrite Hc, IH.
Qed.

Lemma sub_runs_app_stop p b l c r :
  p c = false -> sub_runs p b (l ++ c :: r) = sub_runs p b l ++ c :: sub_runs p false r.
Proof.
  intros Hc. revert b. induction l as [|d l IH]; intros b; cbn; [by rewrite Hc|].
  destruct (p d); [destruct b|]; by rewrite IH.
Qed.

Lemma sub_underscore_runs_ok b l : us_ok b (sub_runs is_us b l) = true.
Proof.
  revert b. induction l as [|c r IH]; intros b; cbn; [done|].
  destruct (is_us c) eqn:E.
  - destruct b; [apply IH|]. cbn. change (is_us underscore) with true. cbn. apply IH.
  - cbn. rewrite E. apply IH.
Qed.

Lemma sub_underscore_runs_id b l : us_ok b l = true -> sub_runs is_us b l = l.
Proof.
  revert b. induction l as [|c r IH]; intros b; cbn; [done|].
  destruct (is_us c) eqn:E.
  - intros [Hb Hr]%andb_true_iff. destruct b; [done|].
    apply is_us_true in E as ->. by rewrite IH.
  - intros Hr. by rewrite IH.
Qed.

(** *** Adjacent underscores *)

Lemma us_ok_weaken b l : us_ok b l = true -> us_ok false l = true.
Proof. destruct l as [|c r]; [done|]. cbn. destruct (is_us c), b; cbn; done. Qed.

Lemma us_ok_single b l :
  us_ok b l = true -> forall a r, l <> a ++ underscore :: underscore :: r.
Proof.
  intros H a. revert b l H. induction a as [|c a IH]; intros b l H r ->; cbn in H.
  - change (is_us underscore) with true in H. cbn in H.
    by rewrite andb_false_r in H.
  - destruct (is_us c).
    + apply andb_true_iff in H as [_ H]. by eapply IH.
    + by eapply IH.
Qed.

Lemma single_us_ok b l :
  (b = true -> head l <> Some underscore) ->
  (forall a r, l <> a ++ underscore :: underscore :: r) ->
  us_ok b l = true.
Proof.
  revert b. induction l as [|c l IH]; intros b Hb Hl; cbn; [done|].
  assert (Htl : forall a r, l <> a ++ underscore :: underscore :: r).
  { intros a r ->. by apply (Hl (c :: a) r). }
  destruct (is_us c) eqn:E.
  - apply is_us_true in E as ->. apply andb_true_iff. split.
    + destruct b; [|done]. by destruct Hb.
    + apply IH; [|done]. intros _ Hh. destruct l as [|d l]; [done|].
      cbn in Hh. injection Hh as ->. by apply (Hl [] l).
  - apply IH; [done|done].
Qed.

Lemma single_middle (pre m post : list ascii) :
  (forall a r, pre ++ m ++ post <> a ++ underscore :: underscore :: r) ->
  forall a r, m <> a ++ underscore :: underscore :: r.
Proof.
  intros H a r ->. apply (H (pre ++ a) (r ++ post)).
  by rewrite <- !app_assoc.
Qed.

End CharFacts.

(** ** The sanitizer *)

Module SanitizeFacts.
Import Chars CharFacts.

Lemma normal_NA : normal (list_ascii_of_string "NA").
Proof.
  split; cbn; try done.
  - repeat constructor.
  - intros [|? [|? [|? a]]] b; done.
Qed.

(** The collapsing steps produce the normal shape from any text. *)
Lemma collapse_normal (l : list ascii) : normal (collapse l).
Proof.
  unfold collapse.
  set (x := sub_underscore_runs (sub_nonword_runs l)).
  assert (Hw : Forall (fun c => is_word c = true) x).
  { apply sub_runs_Forall; [done|].
    apply (Forall_impl (fun c => is_word c = true)); [|done].
    apply sub_runs_Forall; [done|].
    apply Forall_true. intros c Hc. by apply negb_false_iff. }
  assert (Hs : forall a r, x <> a ++ underscore :: underscore :: r).
  { apply (us_ok_single false). apply sub_underscore_runs_ok. }
  destruct (strip_by_middle is_us x) as (pre & post & Hx & _ & _).
  clearbody x.
  pose proof (strip_by_head is_us x) as Hhd.
  pose proof (strip_by_last is_us x) as Hlt.
  destruct (strip_by is_us x) as [|c y]; [apply normal_NA|].
  cbn [or_NA]. split.
  - rewrite Hx in Hw. by apply Forall_app in Hw as [_ [Hw _]%Forall_app].
  - done.
  - intros H. by apply Hhd in H.
  - intros H. by apply Hlt in H.
  - apply (single_middle pre _ post). by rewrite <- Hx.
Qed.

Lemma tree_label_sanitize_normal (l : list ascii) : normal (tree_label_sanitize l).
Proof. apply collapse_normal. Qed.

(** On a text of the normal shape the collapsing steps change nothing. *)
Lemma collapse_id (y : list ascii) : normal y -> collapse y = y.
Proof.
  intros [Hw Hn Hh Hl Hs]. unfold collapse, sub_nonword_runs, sub_underscore_runs.
  rewrite (sub_runs_id (fun c => negb (is_word c))).
  2:{ eapply Forall_impl; [exact Hw|]. intros c Hc. cbn. by rewrite Hc. }
  rewrite sub_underscore_runs_id by (by apply single_us_ok).
  rewrite strip_by_id.
  - by destruct y.
  - intros c Hc. apply is_us_false. by intros ->.
  - intros c Hc. apply is_us_false. by intros ->.
Qed.

Lemma delete_non_word_id (y : list ascii) :
  Forall (fun c => is_word c = true) y -> delete_non_word y = y.
Proof.
  unfold delete_non_word. induction 1 as [|c r Hc _ IH]; cbn; [done|].
  by rewrite Hc, IH.
Qed.

(** *** The suffix substitutions *)

Lemma head_12_Some r r' :
  head_12 r = Some r' -> exists d, is_1_or_2 d = true /\ r = d :: underscore :: r'.
Proof.
  destruct r as [|d [|u r'']]; cbn; [done..|].
  destruct (is_1_or_2 d) eqn:Ed; [|done]. destruct (is_us u) eqn:Eu; [|done].
  cbn. intros [= <-]. apply is_us_true in Eu as ->. eauto.
Qed.

Lemma is_1_or_2_word d : is_1_or_2 d = true -> is_word d = true /\ d <> newline /\ d <> underscore.
Proof.
  unfold is_1_or_2. intros [->%Ascii.eqb_eq | ->%Ascii.eqb_eq]%orb_true_iff; done.
Qed.

(** The substitution [_(1|2)$] either leaves the text alone or removes
    its last two characters, an underscore and a [1] or [2]; the second
    case also covers a text with one more newline at the end. *)
Lemma sub_suffix_12_cases (l : list ascii) :
  sub_suffix_12 l = l
  \/ (exists d, is_1_or_2 d = true /\ l = sub_suffix_12 l ++ [underscore; d])
  \/ (exists m d, is_1_or_2 d = true /\ l = m ++ [underscore; d; newline]
                  /\ sub_suffix_12 l = m ++ [newline]).
Proof.
  unfold sub_suffix_12, sub_at_dollar.
  destruct (head_12 (reverse l)) as [r'|] eqn:E.
  - right; left. apply head_12_Some in E as (d & Hd & E). exists d. split; [done|].
    apply (f_equal reverse) in E. rewrite reverse_involutive in E.
    rewrite E, !reverse_cons, <- !app_assoc. done.
  - destruct (reverse l) as [|nl r1] eqn:Er; [by left|].
    destruct (Ascii.eqb nl newline) eqn:Enl; [|by left].
    destruct (head_12 r1) as [r'|] eqn:E1; [|by left].
    right; right. apply Ascii.eqb_eq in Enl as ->.
    apply head_12_Some in E1 as (d & Hd & ->). exists (reverse r'), d.
    split; [done|]. split.
    + apply (f_equal reverse) in Er. rewrite reverse_involutive in Er.
      rewrite Er, !reverse_cons, <- !app_assoc. done.
    + by rewrite reverse_cons.
Qed.

Lemma sub_suffix_12_snoc (l : list ascii) (d : ascii) :
  is_1_or_2 d = true -> sub_suffix_12 (l ++ [underscore; d]) = l.
Proof.
  intros Hd. unfold sub_suffix_12, sub_at_dollar.
  rewrite reverse_app. cbn. rewrite Hd. cbn. apply reverse_involutive.
Qed.

(** A text of the normal shape stays normal when its [_1] or [_2] is removed. *)
Lemma sub_suffix_12_normal (y : list ascii) : normal y -> normal (sub_suffix_12 y).
Proof.
  intros Hy. destruct (sub_suffix_12_cases y) as [-> | [(d & Hd & E) | (m & d & _ & E & _)]];
    [done| |].
  - destruct Hy as [Hw Hn Hh Hl Hs]. set (z := sub_suffix_12 y) in *.
    assert (Hz : z <> []).
    { intros Ez. rewrite Ez in E. by rewrite E in Hh. }
    split.
    + rewrite E in Hw. by apply Forall_app in Hw as [Hw _].
    + done.
    + rewrite E in Hh. destruct z; [done|]. done.
    + intros [q Hq]%last_Some. apply (Hs q [d]). rewrite E, Hq, <- app_assoc. done.
    + intros a b Ez. apply (Hs a (b ++ [underscore; d])).
      rewrite E, Ez, <- app_assoc. done.
  - exfalso. destruct Hy as [Hw _ _ _ _]. rewrite E in Hw.
    apply Forall_app in Hw as [_ Hw].
    by apply Forall_cons in Hw as [_ [_ [Hw _]%Forall_cons]%Forall_cons].
Qed.

(** Sanitizing a sanitized text only removes one more [_1] or [_2]. *)
Lemma tree_label_sanitize_normal_eq (y : list ascii) :
  normal y -> tree_label_sanitize y = sub_suffix_12 y.
Proof. intros Hy. apply collapse_id. by apply sub_suffix_12_normal. Qed.

Lemma sub_suffix_12_fixed (y : list ascii) :
  normal y ->
  (sub_suffix_12 y = y <-> ~ exists m d, is_1_or_2 d = true /\ y = m ++ [underscore; d]).
Proof.
  intros Hy. split.
  - intros E (m & d & Hd & Ey). rewrite Ey, sub_suffix_12_snoc in E by done.
    apply (f_equal length) in E. rewrite length_app in E. cbn in E. lia.
  - intros Hno. destruct (sub_suffix_12_cases y) as [-> | [(d & Hd & E) | (m & d & _ & E & _)]];
      [done| |].
    + destruct Hno. eauto.
    + exfalso. destruct Hy as [Hw _ _ _ _]. rewrite E in Hw.
      apply Forall_app in Hw as [_ Hw].
      by apply Forall_cons in Hw as [_ [_ [Hw _]%Forall_cons]%Forall_cons].
Qed.

End SanitizeFacts.

Module SuffixFacts.
Import Chars CharFacts SanitizeFacts.

Lemma or_NA_snoc (l : list ascii) (c : ascii) : or_NA (l ++ [c]) = l ++ [c].
Proof. by destruct l. Qed.

(** A final [_R1] or [_R2] goes through every step of the sanitizer:
    the underscore may be trimmed, the [R1] or [R2] stays. *)
Lemma collapse_keeps_R (l : list ascii) (d : ascii) :
  is_1_or_2 d = true ->
  sub_suffix_12 (l ++ [underscore; "R"%char; d]) = l ++ [underscore; "R"%char; d]
  /\ exists p, collapse (l ++ [underscore; "R"%char; d]) = p ++ ["R"%char; d].
Proof.
  intros Hd. destruct (is_1_or_2_word d Hd) as (Hw & Hnl & Hus). split.
  - unfold sub_suffix_12, sub_at_dollar. rewrite reverse_app. cbn.
    rewrite Hd. cbn. by apply Ascii.eqb_neq in Hnl as ->.
  - unfold collapse, sub_nonword_runs, sub_underscore_runs.
    rewrite (sub_runs_app_stop _ _ l underscore) by done.
    cbn [sub_runs]. change (negb (is_word "R")) with false. rewrite Hw. cbn [negb].
    set (m := sub_runs _ false l).
    rewrite (cons_middle underscore m), app_assoc.
    rewrite (sub_runs_app_stop is_us _ _ "R"%char) by done.
    cbn [sub_runs]. apply is_us_false in Hus. rewrite Hus.
    set (x := sub_runs is_us false (m ++ [underscore])).
    unfold strip_by. rewrite (drop_while_app_stop is_us x "R"%char) by done.
    set (x' := drop_while is_us x).
    rewrite reverse_app. change (reverse ["R"%char; d]) with [d; "R"%char].
    cbn [app drop_while]. rewrite Hus.
    exists x'. rewrite (reverse_cons _ d), (reverse_cons _ "R"%char), reverse_involutive.
    rewrite or_NA_snoc. by rewrite <- app_assoc.
Qed.

Lemma sub_suffix_pair_12 (l : list ascii) (d : ascii) :
  is_1_or_2 d = true -> sub_suffix_pair (l ++ [underscore; d]) = l.
Proof.
  intros Hd. unfold sub_suffix_pair, sub_at_dollar. rewrite reverse_app. cbn.
  rewrite Hd. destruct (reverse l) as [|c r] eqn:E; cbn.
  - by rewrite <- (reverse_involutive l), E.
  - rewrite <- (reverse_involutive l), E. done.
Qed.

Lemma sub_suffix_pair_R12 (l : list ascii) (d : ascii) :
  is_1_or_2 d = true -> sub_suffix_pair (l ++ [underscore; "R"%char; d]) = l.
Proof.
  intros Hd. unfold sub_suffix_pair, sub_at_dollar. rewrite reverse_app. cbn.
  rewrite Hd. cbn. apply reverse_involutive.
Qed.

End SuffixFacts.

(** ** The claims about [tree_label_sanitize] *)

Example sanitize_empty : tree_label_sanitize "" = "NA".
Proof. reflexivity. Qed.

Example sanitize_strain : tree_label_sanitize "Strain#1_2" = "Strain_1".
Proof. reflexivity. Qed.

Example sanitize_final_newline : tree_label_sanitize (String "a" (String "_" (String "1" (String Chars.newline "")))) = "a".
Proof. reflexivity. Qed.

Example normalize_R1 : normalize_msa_id " sample_R1 " = "sample".
Proof. reflexivity. Qed.

(** C9.  For every text [x], [tree_label_sanitize x] is non-empty, consists
    of characters of [[A-Za-z0-9_]] only, has no underscore in front, none
    at the end and no two in a row; the filter
    [re.sub(r"[^A-Za-z0-9_]", "", label_safe) or "NA"] applied to it in
    [build_output_metadata] and [validate_output_constraints] is the
    identity, so [label_final == label_safe]. *)
Theorem tree_label_sanitize_shape (x : string) :
  tree_label_sanitize x <> ""
  /\ Forall (fun c => Chars.is_word c = true) (list_ascii_of_string (tree_label_sanitize x))
  /\ (forall s, tree_label_sanitize x <> "_" +:+ s)
  /\ (forall s, tree_label_sanitize x <> s +:+ "_")
  /\ (forall s t, tree_label_sanitize x <> s +:+ "__" +:+ t)
  /\ label_final_of (tree_label_sanitize x) = tree_label_sanitize x.
Proof.
  pose proof (SanitizeFacts.tree_label_sanitize_normal (list_ascii_of_string x)) as Hn.
  assert (Hc : list_ascii_of_string (tree_label_sanitize x)
               = Chars.tree_label_sanitize (list_ascii_of_string x))
    by apply on_chars_chars.
  rewrite <- Hc in Hn. destruct Hn as [Hw Hne Hh Hl Hs]. split_and!.
  - intros E. by rewrite E in Hne.
  - done.
  - intros s E. rewrite E in Hh. done.
  - intros s E. rewrite E, chars_of_append in Hl. cbn in Hl.
    by rewrite last_snoc in Hl.
  - intros s t E. rewrite E, !chars_of_append in Hs. by eapply Hs.
  - apply chars_inj. unfold label_final_of. rewrite on_chars_chars.
    rewrite SanitizeFacts.delete_non_word_id by done.
    by destruct (list_ascii_of_string (tree_label_sanitize x)).
Qed.

(** C1, refuted as stated: the sanitizer is not idempotent.  The text
    ["Strain#1_2"] is sanitized to ["Strain_1"], which is sanitized to
    ["Strain"]. *)
Lemma tree_label_sanitize_not_idempotent :
  tree_label_sanitize (tree_label_sanitize "Strain#1_2") <> tree_label_sanitize "Strain#1_2".
Proof. vm_compute. discriminate. Qed.

(** C1, as the code has it.  Sanitizing a sanitized label removes one more
    trailing [_1] or [_2] and does nothing else; so
    [sanitize (sanitize x) = sanitize x] holds exactly when [sanitize x]
    does not end in [_1] or [_2]. *)
Theorem tree_label_sanitize_twice (x : string) :
  tree_label_sanitize (tree_label_sanitize x) = strip_suffix_12 (tree_label_sanitize x)
  /\ (tree_label_sanitize (tree_label_sanitize x) = tree_label_sanitize x
      <-> ~ exists s, tree_label_sanitize x = s +:+ "_1" \/ tree_label_sanitize x = s +:+ "_2").
Proof.
  pose proof (SanitizeFacts.tree_label_sanitize_normal (list_ascii_of_string x)) as Hn.
  assert (Hc : list_ascii_of_string (tree_label_sanitize x)
               = Chars.tree_label_sanitize (list_ascii_of_string x))
    by apply on_chars_chars.
  rewrite <- Hc in Hn.
  assert (E2 : tree_label_sanitize (tree_label_sanitize x)
               = strip_suffix_12 (tree_label_sanitize x)).
  { apply chars_inj. unfold tree_label_sanitize at 1. unfold strip_suffix_12.
    rewrite !on_chars_chars. by apply SanitizeFacts.tree_label_sanitize_normal_eq. }
  split; [done|]. rewrite E2.
  set (y := tree_label_sanitize x) in *. clearbody y.
  pose proof (SanitizeFacts.sub_suffix_12_fixed _ Hn) as Hfix.
  split.
  - intros E [s Hs]. apply Hfix.
    + unfold strip_suffix_12 in E. apply (f_equal list_ascii_of_string) in E.
      by rewrite on_chars_chars in E.
    + destruct Hs as [-> | ->]; rewrite chars_of_append;
        [exists (list_ascii_of_string s), "1"%char | exists (list_ascii_of_string s), "2"%char]; done.
  - intros Hno. apply chars_inj. unfold strip_suffix_12. rewrite on_chars_chars.
    apply Hfix. intros (m & d & Hd & Ey). apply Hno. exists (string_of_list_ascii m).
    unfold Chars.is_1_or_2 in Hd.
    apply orb_true_iff in Hd as [->%Ascii.eqb_eq | ->%Ascii.eqb_eq]; [left | right];
      apply chars_inj; rewrite chars_of_append, list_ascii_of_string_of_list_ascii; done.
Qed.

(** C8, refuted as stated: [tree_label_sanitize] leaves an [_R1] in place,
    where the sanitizer worded by the specification would remove it. *)
Lemma tree_label_sanitize_R1_kept :
  tree_label_sanitize "sample_R1" = "sample_R1"
  /\ tree_label_sanitize "sample_R1" <> sanitizeLabel_spec "sample_R1".
Proof. split; [reflexivity | vm_compute; discriminate]. Qed.

(** C8, as the code has it.  [tree_label_sanitize] first removes a trailing
    [_1] or [_2] and nothing else: the rest of the text is then collapsed.
    A trailing [_R1] or [_R2] is not removed and the result still ends in
    [R1] or [R2].  The four tokens [_R1], [_R2], [_1], [_2] are removed by
    the substitution of [normalize_msa_id] only. *)
Theorem tree_label_sanitize_suffixes (s : string) :
  tree_label_sanitize (s +:+ "_1") = collapse_label s
  /\ tree_label_sanitize (s +:+ "_2") = collapse_label s
  /\ tree_label_sanitize (s +:+ "_R1") = collapse_label (s +:+ "_R1")
  /\ tree_label_sanitize (s +:+ "_R2") = collapse_label (s +:+ "_R2")
  /\ (exists p, tree_label_sanitize (s +:+ "_R1") = p +:+ "R1")
  /\ (exists p, tree_label_sanitize (s +:+ "_R2") = p +:+ "R2")
  /\ strip_suffix_pair (s +:+ "_R1") = s
  /\ strip_suffix_pair (s +:+ "_R2") = s
  /\ strip_suffix_pair (s +:+ "_1") = s
  /\ strip_suffix_pair (s +:+ "_2") = s.
Proof.
  set (l := list_ascii_of_string s).
  assert (H1 : Chars.is_1_or_2 "1"%char = true) by done.
  assert (H2 : Chars.is_1_or_2 "2"%char = true) by done.
  destruct (SuffixFacts.collapse_keeps_R l _ H1) as [K1 [p1 P1]].
  destruct (SuffixFacts.collapse_keeps_R l _ H2) as [K2 [p2 P2]].
  assert (pair_ok : forall t r, Chars.sub_suffix_pair (l ++ list_ascii_of_string t) = r ->
                                r = l -> strip_suffix_pair (s +:+ t) = s).
  { intros t r <- E. apply chars_inj. unfold strip_suffix_pair.
    by rewrite on_chars_chars, chars_of_append. }
  split_and!.
  - apply chars_inj. unfold tree_label_sanitize, collapse_label.
    rewrite !on_chars_chars, chars_of_append. unfold Chars.tree_label_sanitize.
    by rewrite (SanitizeFacts.sub_suffix_12_snoc _ "1"%char).
  - apply chars_inj. unfold tree_label_sanitize, collapse_label.
    rewrite !on_chars_chars, chars_of_append. unfold Chars.tree_label_sanitize.
    by rewrite (SanitizeFacts.sub_suffix_12_snoc _ "2"%char).
  - apply chars_inj. unfold tree_label_sanitize, collapse_label.
    rewrite !on_chars_chars, chars_of_append. unfold Chars.tree_label_sanitize.
    change (list_ascii_of_string "_R1") with [Chars.underscore; "R"%char; "1"%char].
    fold l. by rewrite K1.
  - apply chars_inj. unfold tree_label_sanitize, collapse_label.
    rewrite !on_chars_chars, chars_of_append. unfold Chars.tree_label_sanitize.
    change (list_ascii_of_string "_R2") with [Chars.underscore; "R"%char; "2"%char].
    fold l. by rewrite K2.
  - exists (string_of_list_ascii p1). apply chars_inj.
    unfold tree_label_sanitize.
    rewrite on_chars_chars, !chars_of_append, list_ascii_of_string_of_list_ascii.
    unfold Chars.tree_label_sanitize.
    change (list_ascii_of_string "_R1") with [Chars.underscore; "R"%char; "1"%char].
    fold l. by rewrite K1, P1.
  - exists (string_of_list_ascii p2). apply chars_inj.
    unfold tree_label_sanitize.
    rewrite on_chars_chars, !chars_of_append, list_ascii_of_string_of_list_ascii.
    unfold Chars.tree_label_sanitize.
    change (list_ascii_of_string "_R2") with [Chars.underscore; "R"%char; "2"%char].
    fold l. by rewrite K2, P2.
  - eapply pair_ok; [done|]. by apply (SuffixFacts.sub_suffix_pair_R12 l "1"%char).
  - eapply pair_ok; [done|]. by apply (SuffixFacts.sub_suffix_pair_R12 l "2"%char).
  - eapply pair_ok; [done|]. by apply (SuffixFacts.sub_suffix_pair_12 l "1"%char).
  - eapply pair_ok; [done|]. by apply (SuffixFacts.sub_suffix_pair_12 l "2"%char).
Qed.

(** ** Tree relabeling *)

Module UniqueFacts.

(** The name [ensure_unique_tree_labels] gives to the [n]-th occurrence of [label]. *)
Lemma unique_step_out counts out label :
  snd (unique_step (counts, out) label)
  = out ++ [if decide (S (counter_get counts label) = 1%nat) then label
            else label +:+ "_" +:+ str_of_nat (S (counter_get counts label))].
Proof. unfold unique_step. by case_decide. Qed.

Lemma unique_step_counts counts out label l :
  counter_get (fst (unique_step (counts, out) label)) l
  = (counter_get counts l + if decide (l = label) then 1 else 0)%nat.
Proof.
  unfold unique_step, counter_get.
  destruct (decide (l = label)) as [->|Hne].
  - case_decide; cbn; rewrite lookup_insert_eq; cbn; lia.
  - case_decide; cbn; rewrite lookup_insert_ne by done; lia.
Qed.

Lemma occurrences_snoc (l : list string) (x y : string) :
  occurrences x (l ++ [y]) = (occurrences x l + if decide (x = y) then 1 else 0)%nat.
Proof.
  unfold occurrences. rewrite List.filter_app, length_app. cbn.
  destruct (decide (x = y)) as [->|Hne].
  - by rewrite bool_decide_true.
  - rewrite bool_decide_false by done. done.
Qed.

(** The state of the loop after the labels [pre]: every count is the
    number of occurrences so far and one name was written per label. *)
Lemma fold_unique_state (pre : list string) :
  (forall l, counter_get (fst (fold_left unique_step pre (∅, []))) l = occurrences l pre)
  /\ length (snd (fold_left unique_step pre (∅, []))) = length pre.
Proof.
  induction pre as [|x pre [IH1 IH2]] using rev_ind; [done|].
  rewrite fold_left_app. cbn [fold_left].
  destruct (fold_left unique_step pre (∅, [])) as [counts out]. cbn in IH1, IH2. split.
  - intros l. rewrite unique_step_counts, occurrences_snoc, IH1. done.
  - rewrite unique_step_out, !length_app, IH2. done.
Qed.

Lemma fold_unique_prefix (post : list string) st :
  exists outs, snd (fold_left unique_step post st) = snd st ++ outs.
Proof.
  revert st. induction post as [|x post IH]; intros [counts out]; cbn [fold_left].
  - exists []. by rewrite app_nil_r.
  - destruct (IH (unique_step (counts, out) x)) as [outs ->].
    rewrite unique_step_out, <- app_assoc. eauto.
Qed.

End UniqueFacts.

(** The suffixing rule of [ensure_unique_tree_labels]: the first occurrence
    of a name is kept, its [n]-th occurrence (n = 2, 3, ...) in traversal
    order becomes [name_n]. *)
Lemma ensure_unique_tree_labels_rule (pre post : list string) (x : string) :
  ensure_unique_tree_labels (pre ++ x :: post) !! length pre
  = Some (if decide (occurrences x pre = 0%nat) then x
          else x +:+ "_" +:+ str_of_nat (S (occurrences x pre))).
Proof.
  unfold ensure_unique_tree_labels. rewrite fold_left_app. cbn [fold_left].
  destruct (UniqueFacts.fold_unique_state pre) as [Hc Hl].
  destruct (fold_left unique_step pre (∅, [])) as [counts out]. cbn in Hc, Hl.
  destruct (UniqueFacts.fold_unique_prefix post (unique_step (counts, out) x)) as [outs ->].
  rewrite UniqueFacts.unique_step_out, Hc, <- app_assoc.
  rewrite lookup_app_r by lia. rewrite Hl, Nat.sub_diag. cbn.
  f_equal. repeat case_decide; (done || lia).
Qed.

(** C3, on the code: the names written by [ensure_unique_tree_labels] need
    not be distinct.  The candidate names [X], [X], [X_2], which
    [rewrite_tree_labels] computes for the terminals [X], [X.] and
    [X_2_2_2], come out as [X], [X_2], [X_2]. *)
Theorem ensure_unique_tree_labels_not_unique :
  ensure_unique_tree_labels ["X"; "X"; "X_2"] = ["X"; "X_2"; "X_2"]
  /\ terminal_name ∅ ∅ <$> ["X"; "X."; "X_2_2_2"] = ["X"; "X"; "X_2"]
  /\ rewrite_tree_labels ∅ ∅ ["X"; "X."; "X_2_2_2"] = inr ["X"; "X_2"; "X_2"]
  /\ ~ NoDup (ensure_unique_tree_labels ["X"; "X"; "X_2"]).
Proof.
  assert (E : ensure_unique_tree_labels ["X"; "X"; "X_2"] = ["X"; "X_2"; "X_2"])
    by (vm_compute; reflexivity).
  split_and!; [done | vm_compute; reflexivity | vm_compute; reflexivity |].
  rewrite E. intros H. apply NoDup_cons in H as [_ H]. apply NoDup_cons in H as [H _].
  apply H. left.
Qed.

(** ** Reference code index, permissive loaders *)

Module LoaderFacts.

Lemma key_free_cons k l lines :
  key_free k (l :: lines) ->
  (forall t c, read_line l = Entry t c -> clean_alnum t <> k) /\ key_free k lines.
Proof.
  intros H. split.
  - intros t c. apply H. left.
  - intros l' t c Hin. apply H. by right.
Qed.

Lemma code_free_cons c l lines :
  code_free c (l :: lines) ->
  (forall t c', read_line l = Entry t c' -> c' <> c) /\ code_free c lines.
Proof.
  intros H. split.
  - intros t c'. apply H. left.
  - intros l' t c' Hin. apply H. by right.
Qed.

(** Lines without the key leave its binding alone. *)
Lemma load_codes_keeps k (post : list string) (m : gmap string string) :
  key_free k post -> fold_left load_codes_step post m !! k = m !! k.
Proof.
  revert m. induction post as [|l post IH]; intros m Hfree; [done|].
  apply key_free_cons in Hfree as [Hl Hpost]. cbn [fold_left].
  rewrite IH by done. unfold load_codes_step.
  destruct (read_line l) as [| |t c] eqn:E; [done..|].
  case_bool_decide; [done|]. rewrite lookup_insert_ne; [done|]. by eapply Hl.
Qed.

Lemma load_from_app n (pre post : list string) (m1 m2 : gmap string string) :
  Forall (fun l => read_line l <> Malformed) pre ->
  exists m1' m2',
    load_five_letter_from n (pre ++ post) m1 m2
    = load_five_letter_from (n + length pre) post m1' m2'.
Proof.
  intros Hpre. revert n m1 m2.
  induction Hpre as [|l pre Hl _ IH]; intros n m1 m2; cbn [app length].
  - exists m1, m2. by rewrite Nat.add_0_r.
  - cbn [load_five_letter_from]. destruct (read_line l) as [| |t c]; [|done|].
    + destruct (IH (S n) m1 m2) as (m1' & m2' & ->).
      exists m1', m2'. f_equal. lia.
    + destruct (IH (S n) (<[clean_alnum t:=c]> m1) (<[c:=t]> m2)) as (m1' & m2' & ->).
      exists m1', m2'. f_equal. lia.
Qed.

Lemma load_from_keeps n (post : list string) (m1 m2 : gmap string string) :
  Forall (fun l => read_line l <> Malformed) post ->
  exists m1' m2',
    load_five_letter_from n post m1 m2 = inr (m1', m2')
    /\ (forall k, key_free k post -> m1' !! k = m1 !! k)
    /\ (forall c, code_free c post -> m2' !! c = m2 !! c).
Proof.
  intros Hpost. revert n m1 m2.
  induction Hpost as [|l post Hl _ IH]; intros n m1 m2; cbn [load_five_letter_from].
  - by exists m1, m2.
  - destruct (read_line l) as [| |t c] eqn:E; [|done|].
    + destruct (IH (S n) m1 m2) as (m1' & m2' & -> & H1 & H2).
      exists m1', m2'. split_and!; [done| |].
      * intros k [_ Hk]%key_free_cons. by apply H1.
      * intros c [_ Hc]%code_free_cons. by apply H2.
    + destruct (IH (S n) (<[clean_alnum t:=c]> m1) (<[c:=t]> m2))
        as (m1' & m2' & -> & H1 & H2).
      exists m1', m2'. split_and!; [done| |].
      * intros k [Hl' Hk]%key_free_cons. rewrite H1 by done.
        apply lookup_insert_ne. by eapply Hl'.
      * intros c' [Hl' Hc]%code_free_cons. rewrite H2 by done.
        apply lookup_insert_ne. by eapply Hl'.
Qed.

End LoaderFacts.

(** C4, refuted as stated: of two entries with the same comparison key, or
    with the same code, both permissive loaders keep the later one. *)
Lemma permissive_loaders_keep_later :
  load_five_letter_codes [tsv_line "Taxon A" "s0001"; tsv_line "TaxonA" "s0002"] !! "TaxonA"
  = Some "s0002"
  /\ (exists labelkey_to_code code_to_taxon,
        load_five_letter [tsv_line "Taxon A" "s0001"; tsv_line "TaxonA" "s0002";
                          tsv_line "Taxon B" "s0002"]
        = inr (labelkey_to_code, code_to_taxon)
        /\ labelkey_to_code !! "TaxonA" = Some "s0002"
        /\ labelkey_to_code !! "TaxonA" <> Some "s0001"
        /\ code_to_taxon !! "s0002" = Some "Taxon B"
        /\ code_to_taxon !! "s0002" <> Some "TaxonA").
Proof.
  split; [vm_compute; reflexivity|].
  eexists _, _. split; [vm_compute; reflexivity|].
  split_and!; vm_compute; (reflexivity || discriminate).
Qed.

(** C4, as the code has it.  Both permissive loaders fill their
    dictionaries by plain assignment, so an entry overwrites every earlier
    entry with the same key: the comparison key of a taxon is bound to the
    code of the last line carrying that key, and (in [load_five_letter]) a
    code to the taxon of the last line carrying that code.  Repeated keys or
    codes never raise: [load_five_letter_codes] has no failure at all and
    [load_five_letter] succeeds whenever every line is well formed. *)
Theorem permissive_loaders_last_wins (pre post : list string) (line taxon code : string) :
  read_line line = Entry taxon code ->
  (clean_alnum taxon <> "" ->
   key_free (clean_alnum taxon) post ->
   load_five_letter_codes (pre ++ line :: post) !! clean_alnum taxon = Some code)
  /\ (Forall (fun l => read_line l <> Malformed) (pre ++ post) ->
      exists labelkey_to_code code_to_taxon,
        load_five_letter (pre ++ line :: post) = inr (labelkey_to_code, code_to_taxon)
        /\ (key_free (clean_alnum taxon) post ->
            labelkey_to_code !! clean_alnum taxon = Some code)
        /\ (code_free code post -> code_to_taxon !! code = Some taxon)).
Proof.
  intros Hline. split.
  - intros Hkey Hfree. unfold load_five_letter_codes.
    rewrite fold_left_app. cbn [fold_left].
    rewrite LoaderFacts.load_codes_keeps by done.
    unfold load_codes_step. rewrite Hline, bool_decide_false by done.
    apply lookup_insert_eq.
  - intros [Hpre Hpost]%Forall_app. unfold load_five_letter.
    destruct (LoaderFacts.load_from_app 1 pre (line :: post) ∅ ∅ Hpre) as (m1 & m2 & ->).
    cbn [load_five_letter_from]. rewrite Hline.
    destruct (LoaderFacts.load_from_keeps (S (1 + length pre)) post
                (<[clean_alnum taxon:=code]> m1) (<[code:=taxon]> m2) Hpost)
      as (m1' & m2' & -> & H1 & H2).
    exists m1', m2'. split_and!; [done| |].
    + intros Hfree. rewrite H1 by done. apply lookup_insert_eq.
    + intros Hfree. rewrite H2 by done. apply lookup_insert_eq.
Qed.

Lemma permissive_loaders_last_wins_witness :
  read_line (tsv_line "TaxonA" "s0002") = Entry "TaxonA" "s0002"
  /\ clean_alnum "TaxonA" <> ""
  /\ key_free (clean_alnum "TaxonA") ["# end"]
  /\ code_free "s0002" ["# end"]
  /\ Forall (fun l => read_line l <> Malformed) ([tsv_line "Taxon A" "s0001"] ++ ["# end"])
  /\ load_five_letter_codes ([tsv_line "Taxon A" "s0001"] ++ tsv_line "TaxonA" "s0002" :: ["# end"])
       !! clean_alnum "TaxonA" = Some "s0002"
  /\ exists labelkey_to_code code_to_taxon,
       load_five_letter ([tsv_line "Taxon A" "s0001"] ++ tsv_line "TaxonA" "s0002" :: ["# end"])
       = inr (labelkey_to_code, code_to_taxon)
       /\ labelkey_to_code !! clean_alnum "TaxonA" = Some "s0002"
       /\ code_to_taxon !! "s0002" = Some "TaxonA".
Proof.
  assert (Hline : read_line (tsv_line "TaxonA" "s0002") = Entry "TaxonA" "s0002")
    by (vm_compute; reflexivity).
  assert (Hkey : clean_alnum "TaxonA" <> "") by (vm_compute; discriminate).
  assert (Hfree : forall k, key_free k ["# end"]).
  { intros k l t c ->%list_elem_of_singleton. vm_compute. discriminate. }
  assert (Hcfree : forall k, code_free k ["# end"]).
  { intros k l t c ->%list_elem_of_singleton. vm_compute. discriminate. }
  assert (Hwf : Forall (fun l => read_line l <> Malformed)
                  ([tsv_line "Taxon A" "s0001"] ++ ["# end"])).
  { repeat constructor; vm_compute; discriminate. }
  destruct (permissive_loaders_last_wins [tsv_line "Taxon A" "s0001"] ["# end"]
              (tsv_line "TaxonA" "s0002") "TaxonA" "s0002" Hline) as [H1 H2].
  split_and!; [exact Hline | exact Hkey | apply Hfree | apply Hcfree | exact Hwf | |].
  - apply H1; [exact Hkey | apply Hfree].
  - destruct (H2 Hwf) as (m1 & m2 & E & K1 & K2).
    exists m1, m2. split_and!; [exact E | apply K1, Hfree | apply K2, Hcfree].
Defined.

(** ** Sorting and counting *)

Section SortBy.
Context {A : Type} (le : A -> A -> bool).

Lemma insert_by_perm (x : A) (l : list A) : insert_by le x l ≡ₚ x :: l.
Proof.
  induction l as [|y r IH]; cbn; [done|].
  destruct (le x y); [done|]. rewrite IH. apply Permutation_swap.
Qed.

Lemma sort_by_perm (l : list A) : sort_by le l ≡ₚ l.
Proof.
  induction l as [|x r IH]; cbn; [done|].
  rewrite insert_by_perm. by constructor.
Qed.

Lemma sort_by_elem_of (x : A) (l : list A) : x ∈ sort_by le l <-> x ∈ l.
Proof. by rewrite sort_by_perm. Qed.

Hypothesis le_total : forall a b, le a b = true \/ le b a = true.
Hypothesis le_trans : forall a b c, le a b = true -> le b c = true -> le a c = true.

Lemma insert_by_sorted (x : A) (l : list A) :
  StronglySorted (fun a b => le a b = true) l ->
  StronglySorted (fun a b => le a b = true) (insert_by le x l).
Proof.
  induction 1 as [|y r Hr IH Hy]; cbn; [repeat constructor|].
  destruct (le x y) eqn:E.
  - constructor; [by constructor|]. constructor; [done|].
    eapply Forall_impl; [exact Hy|]. intros z Hz. by eapply le_trans.
  - constructor; [done|]. rewrite insert_by_perm. constructor; [|done].
    destruct (le_total x y) as [H|H]; [congruence | done].
Qed.

Lemma sort_by_sorted (l : list A) : StronglySorted (fun a b => le a b = true) (sort_by le l).
Proof.
  induction l as [|x r IH]; cbn; [constructor|]. by apply insert_by_sorted.
Qed.

(** The first element of the sorted list is an element of the list that
    is below every other one. *)
Lemma sort_by_head (l : list A) (x : A) (r : list A) :
  sort_by le l = x :: r -> x ∈ l /\ forall y, y ∈ l -> le x y = true.
Proof.
  intros E. pose proof (sort_by_sorted l) as Hs. rewrite E in Hs.
  apply StronglySorted_inv in Hs as [_ Hx]. split.
  - apply sort_by_elem_of. rewrite E. left.
  - intros y Hy%sort_by_elem_of. rewrite E in Hy.
    apply elem_of_cons in Hy as [->|Hy].
    + destruct (le_total x x); done.
    + revert y Hy. by apply Forall_forall.
Qed.

Lemma sort_by_nil (l : list A) : sort_by le l = [] -> l = [].
Proof. intros E. apply Permutation_nil_r. by rewrite <- E, sort_by_perm. Qed.

End SortBy.

Section Counting.
Context {A : Type} `{EqDecision A}.

Lemma list_filter_elem_of (f : A -> bool) (l : list A) (x : A) :
  x ∈ List.filter f l <-> x ∈ l /\ f x = true.
Proof. rewrite !list_elem_of_In. apply filter_In. Qed.

Lemma list_filter_perm (f : A -> bool) (l1 l2 : list A) :
  l1 ≡ₚ l2 -> List.filter f l1 ≡ₚ List.filter f l2.
Proof.
  induction 1 as [|x l1 l2 _ IH|x y l|l1 l2 l3 _ IH1 _ IH2]; cbn.
  - done.
  - destruct (f x); [by constructor | done].
  - destruct (f x), (f y); (done || by constructor).
  - by rewrite IH1.
Qed.

Lemma occurrences_perm (x : A) (l1 l2 : list A) :
  l1 ≡ₚ l2 -> occurrences x l1 = occurrences x l2.
Proof. intros H. unfold occurrences. by rewrite (list_filter_perm _ _ _ H). Qed.

Lemma occurrences_pos (x : A) (l : list A) : x ∈ l <-> (0 < occurrences x l)%nat.
Proof.
  unfold occurrences. split.
  - intros Hx. assert (H : x ∈ List.filter (fun y => bool_decide (y = x)) l).
    { apply list_filter_elem_of. split; [done | by apply bool_decide_true]. }
    destruct (List.filter _ l); [by apply not_elem_of_nil in H | cbn; lia].
  - destruct (List.filter _ l) as [|y r] eqn:E; cbn; [lia|]. intros _.
    assert (H : y ∈ List.filter (fun y => bool_decide (y = x)) l) by (rewrite E; left).
    apply list_filter_elem_of in H as [H Hy]. by apply bool_decide_eq_true in Hy as <-.
Qed.

Lemma distinct_elem_of (x : A) (l : list A) : x ∈ distinct l <-> x ∈ l.
Proof.
  induction l as [|y r IH]; cbn; [done|].
  rewrite !elem_of_cons, list_filter_elem_of, IH, negb_true_iff, bool_decide_eq_false.
  destruct (decide (x = y)); tauto.
Qed.

Lemma distinct_NoDup (l : list A) : NoDup (distinct l).
Proof.
  induction l as [|y r IH]; cbn; [constructor|]. constructor.
  - rewrite list_filter_elem_of, negb_true_iff, bool_decide_eq_false. tauto.
  - clear -IH. induction IH as [|z s Hz _ IHs]; cbn; [constructor|].
    destruct (negb (bool_decide (z = y))); [|done]. constructor; [|done].
    rewrite list_filter_elem_of. tauto.
Qed.

End Counting.

(** ** The order of the OG keys *)

Module KeyFacts.

Lemma compare_refl (s : string) : String.compare s s = Eq.
Proof.
  induction s as [|c s IH]; [done|]. cbn.
  unfold Ascii.compare. by rewrite N.compare_refl.
Qed.

Lemma compare_Gt_Lt (s t : string) : String.compare s t = Gt <-> String.compare t s = Lt.
Proof.
  rewrite (String.compare_antisym t s). by destruct (String.compare s t).
Qed.

Lemma leb_compare (s t : string) : String.leb s t = true <-> String.compare s t <> Gt.
Proof. unfold String.leb. by destruct (String.compare s t). Qed.

Lemma leb_trans (s t u : string) :
  String.leb s t = true -> String.leb t u = true -> String.leb s u = true.
Proof.
  intros H1 H2. apply Is_true_true. apply Is_true_true in H1, H2.
  exact (transitivity (R := String.le) H1 H2).
Qed.

Lemma compare_Lt_leb (s t : string) :
  String.compare s t = Lt <-> String.leb s t = true /\ s <> t.
Proof.
  rewrite leb_compare. split.
  - intros H. split; [congruence|]. intros ->. by rewrite compare_refl in H.
  - intros [H1 H2]. destruct (String.compare s t) eqn:E; [|done|done].
    by apply String.compare_eq_iff in E.
Qed.

Lemma compare_Lt_trans (s t u : string) :
  String.compare s t <> Gt -> String.compare t u = Lt -> String.compare s u = Lt.
Proof.
  intros H1%leb_compare [H2 Hne]%compare_Lt_leb. apply compare_Lt_leb. split.
  - by eapply leb_trans.
  - intros ->. apply Hne. by apply String.leb_antisym.
Qed.

Lemma compare_Lt_trans' (s t u : string) :
  String.compare s t = Lt -> String.compare t u <> Gt -> String.compare s u = Lt.
Proof.
  intros [H1 Hne]%compare_Lt_leb H2%leb_compare. apply compare_Lt_leb. split.
  - by eapply leb_trans.
  - intros ->. apply Hne. by apply String.leb_antisym.
Qed.

Lemma og_number_le_total (a b : og_number) :
  og_number_le a b = true \/ og_number_le b a = true.
Proof.
  destruct a as [x|], b as [y|]; cbn; auto.
  destruct (N.leb_spec x y); [by left | right]. apply N.leb_le. lia.
Qed.

Lemma og_number_le_trans (a b c : og_number) :
  og_number_le a b = true -> og_number_le b c = true -> og_number_le a c = true.
Proof.
  destruct a as [x|], b as [y|], c as [z|]; cbn; try done.
  rewrite !N.leb_le. lia.
Qed.

Lemma og_key_le_total (a b : og_key) : og_key_le a b = true \/ og_key_le b a = true.
Proof.
  unfold og_key_le. rewrite (String.compare_antisym a.1 b.1).
  destruct (String.compare b.1 a.1); cbn; auto using og_number_le_total.
Qed.

Lemma og_key_le_trans (a b c : og_key) :
  og_key_le a b = true -> og_key_le b c = true -> og_key_le a c = true.
Proof.
  unfold og_key_le.
  destruct (String.compare a.1 b.1) eqn:E1; [| |done];
    destruct (String.compare b.1 c.1) eqn:E2; try done.
  - apply String.compare_eq_iff in E1, E2. rewrite E1, E2, compare_refl.
    apply og_number_le_trans.
  - apply String.compare_eq_iff in E1. by rewrite E1, E2.
  - apply String.compare_eq_iff in E2. by rewrite <- E2, E1.
  - rewrite (compare_Lt_trans a.1 b.1 c.1); [done | congruence | done].
Qed.

(** Either the pattern of [og_sort_key] matched and the key holds the
    prefix and the number, or the key is the raw string with infinity. *)
Lemma og_sort_key_cases (og : string) :
  og_sort_key og = (og, Inf) \/ exists p n, og_sort_key og = (p, Fin n).
Proof.
  unfold og_sort_key.
  destruct (span Chars.is_alpha_us _) as [prefix rest].
  destruct (span Chars.is_digit rest) as [digits tail].
  destruct (_ && _); eauto.
Qed.

End KeyFacts.

(** ** Gene selection *)

Section SelectorFacts.
Variable casefold : string -> string.

Lemma casefold_le_total (a b : string) :
  casefold_le casefold a b = true \/ casefold_le casefold b a = true.
Proof. apply String.leb_total. Qed.

Lemma casefold_le_trans (a b c : string) :
  casefold_le casefold a b = true -> casefold_le casefold b c = true ->
  casefold_le casefold a c = true.
Proof. apply KeyFacts.leb_trans. Qed.

Lemma value_counts_elem_of (s : list gene) (g : gene) (c : nat) :
  (g, c) ∈ value_counts false s <-> g ∈ s /\ c = occurrences g s.
Proof.
  unfold value_counts. cbv zeta iota. rewrite sort_by_elem_of, list_elem_of_fmap. split.
  - intros (g' & [= -> ->] & Hg'). by rewrite distinct_elem_of in Hg'.
  - intros [Hg ->]. exists g. split; [done | by apply distinct_elem_of].
Qed.

Lemma value_counts_length (s : list gene) :
  length (value_counts false s) = length (distinct s).
Proof. unfold value_counts. cbv zeta iota. by rewrite sort_by_perm, length_fmap. Qed.

(** [choose_gene_name] on a non-empty series: the chosen name is the
    [str] of an observed value [g] with the largest count, and no value
    with that count comes before it under [casefold]. *)
Lemma choose_gene_name_ok (s : list gene) :
  s <> [] ->
  exists g,
    choose_gene_name casefold s
    = inr (str_of_gene g, occurrences g s, length (distinct s))
    /\ g ∈ s
    /\ (forall g', (occurrences g' s <= occurrences g s)%nat)
    /\ (forall g', occurrences g' s = occurrences g s ->
                   casefold_le casefold (str_of_gene g) (str_of_gene g') = true).
Proof.
  intros Hs. unfold choose_gene_name.
  pose proof (value_counts_elem_of s) as Hin.
  pose proof (value_counts_length s) as Hlen.
  set (counts := value_counts false s) in *. clearbody counts.
  assert (Hne : counts <> []).
  { destruct s as [|g0 s']; [done|]. intros E.
    assert (H : (g0, occurrences g0 (g0 :: s')) ∈ counts) by (apply Hin; split; [left | done]).
    rewrite E in H. by apply not_elem_of_nil in H. }
  assert (Hmax : max_list (counts.*2) ∈ counts.*2).
  { apply max_list_elem_of. by destruct counts. }
  set (M := max_list (counts.*2)) in *.
  assert (Hle : forall g', (occurrences g' s <= M)%nat).
  { intros g'. destruct (decide (g' ∈ s)) as [Hg'|Hg'].
    - apply max_list_elem_of_le, list_elem_of_fmap.
      exists (g', occurrences g' s). split; [done | by apply Hin].
    - rewrite occurrences_pos in Hg'. lia. }
  assert (Hwin : forall g', (g', M) ∈ counts ->
     str_of_gene g' ∈
       str_of_gene <$> (List.filter (fun gc : gene * nat => Nat.eqb gc.2 M) counts).*1).
  { intros g' Hg'. apply list_elem_of_fmap. exists g'. split; [done|].
    apply list_elem_of_fmap. exists (g', M). split; [done|].
    apply list_filter_elem_of. split; [done | by apply Nat.eqb_eq]. }
  clearbody M.
  assert (Hmatch : forall (X : Type) (a b : X),
             match counts with [] => a | _ :: _ => b end = b) by (by destruct counts).
  rewrite Hmatch. clear Hmatch.
  destruct (sort_by (casefold_le casefold) _) as [|chosen r] eqn:Esort.
  - apply sort_by_nil in Esort. apply list_elem_of_fmap in Hmax as ([g c] & EM & Hgc).
    cbn in EM. subst c. apply Hwin in Hgc. rewrite Esort in Hgc.
    by apply not_elem_of_nil in Hgc.
  - apply (sort_by_head _ casefold_le_total casefold_le_trans) in Esort as [Hch Hmin].
    apply list_elem_of_fmap in Hch as (g & -> & Hg).
    apply list_elem_of_fmap in Hg as ([g1 c] & -> & Hgc). cbn.
    apply list_filter_elem_of in Hgc as [Hgc HM]. cbn in HM. apply Nat.eqb_eq in HM.
    apply Hin in Hgc as [Hg1 Hc]. exists g1. rewrite <- Hlen. subst c. rewrite HM.
    split_and!; [done | done | done |].
    intros g' Hg'. apply Hmin, Hwin, Hin. split; [|lia].
    apply occurrences_pos. apply occurrences_pos in Hg1. lia.
Qed.

End SelectorFacts.

(** C5.  On a non-empty series of observations [choose_gene_name] returns
    the name of a value with the largest number of occurrences; among the
    values with that number it returns one whose case-folded name is
    lexicographically first; when ["b"], ["A"] and ["c"] tie ahead of every
    other value the result is ["A"]; and when one value occurs strictly more
    often than every other one, that value is returned for every permutation
    of the rows. *)
Theorem choose_gene_name_rule (casefold : string -> string) (gene_series : list gene) :
  gene_series <> [] ->
  (exists g,
     choose_gene_name casefold gene_series
     = inr (str_of_gene g, occurrences g gene_series, length (distinct gene_series))
     /\ g ∈ gene_series
     /\ (forall g', (occurrences g' gene_series <= occurrences g gene_series)%nat)
     /\ (forall g', occurrences g' gene_series = occurrences g gene_series ->
                    String.leb (casefold (str_of_gene g)) (casefold (str_of_gene g')) = true))
  /\ (occurrences (Some "b") gene_series = occurrences (Some "A") gene_series ->
      occurrences (Some "c") gene_series = occurrences (Some "A") gene_series ->
      (forall g, g <> Some "b" -> g <> Some "A" -> g <> Some "c" ->
                 (occurrences g gene_series < occurrences (Some "A") gene_series)%nat) ->
      exists n_unique,
        choose_gene_name casefold_ascii gene_series
        = inr ("A", occurrences (Some "A") gene_series, n_unique))
  /\ (forall g,
        (forall g', g' <> g -> (occurrences g' gene_series < occurrences g gene_series)%nat) ->
        forall rows, rows ≡ₚ gene_series ->
          exists n_unique,
            choose_gene_name casefold rows
            = inr (str_of_gene g, occurrences g gene_series, n_unique)).
Proof.
  intros Hne. split_and!.
  - apply choose_gene_name_ok, Hne.
  - intros Hb Hc Hother.
    destruct (choose_gene_name_ok casefold_ascii gene_series Hne) as (g & -> & Hg & Hmax & Htie).
    assert (HA : occurrences (Some "A") gene_series = occurrences g gene_series).
    { destruct (decide (g = Some "b")) as [->|Nb]; [done|].
      destruct (decide (g = Some "c")) as [->|Nc]; [done|].
      destruct (decide (g = Some "A")) as [->|NA]; [done|].
      pose proof (Hmax (Some "A")). pose proof (Hother g Nb NA Nc). lia. }
    assert (g = Some "A") as ->; [|eauto].
    pose proof (Htie (Some "A") HA) as HgA.
    destruct (decide (g = Some "b")) as [->|Nb]; [by vm_compute in HgA|].
    destruct (decide (g = Some "c")) as [->|Nc]; [by vm_compute in HgA|].
    destruct (decide (g = Some "A")) as [->|NA]; [done|].
    pose proof (Hother g Nb NA Nc). lia.
  - intros g Hmaj rows Hperm.
    assert (Hrows : rows <> []).
    { intros ->. apply Permutation_nil in Hperm. done. }
    destruct (choose_gene_name_ok casefold rows Hrows) as (g0 & -> & Hg0 & Hmax & _).
    assert (g0 = g) as ->.
    { destruct (decide (g0 = g)) as [|Hneq]; [done|].
      pose proof (Hmaj g0 Hneq). pose proof (Hmax g).
      rewrite !(occurrences_perm _ _ _ Hperm) in *. lia. }
    rewrite (occurrences_perm _ _ _ Hperm). eauto.
Qed.

Lemma choose_gene_name_rule_witness :
  [Some "b"; Some "A"; Some "c"] <> []
  /\ exists n_unique,
       choose_gene_name casefold_ascii [Some "b"; Some "A"; Some "c"]
       = inr ("A", occurrences (Some "A") [Some "b"; Some "A"; Some "c"], n_unique).
Proof.
  assert (Hne : [Some "b"; Some "A"; Some "c"] <> ([] : list gene)) by discriminate.
  split; [exact Hne|].
  destruct (choose_gene_name_rule casefold_ascii [Some "b"; Some "A"; Some "c"] Hne)
    as (_ & Htie & _).
  apply Htie; [reflexivity | reflexivity |].
  intros g Hb HA Hc. unfold occurrences. cbn [List.filter].
  rewrite !(bool_decide_false (_ = g)) by congruence.
  apply Nat.ltb_lt. vm_compute. reflexivity.
Defined.

(** ** The mapping table *)

Section MappingFacts.
Variable casefold : string -> string.

Lemma groupby_og_keys (work : list og_row) :
  (groupby_og work).*1 = distinct (row_og <$> work).
Proof.
  unfold groupby_og. induction (distinct (row_og <$> work)) as [|og ogs IH]; [done|].
  cbn. by rewrite IH.
Qed.

Lemma groupby_og_nonempty (work : list og_row) :
  Forall (fun grp : string * list gene => grp.2 <> []) (groupby_og work).
Proof.
  unfold groupby_og. apply Forall_fmap, Forall_forall. intros og Hog. cbn.
  apply distinct_elem_of, list_elem_of_fmap in Hog as (r & -> & Hr).
  intros E%fmap_nil_inv.
  assert (H : r ∈ List.filter (fun r' => bool_decide (row_og r' = row_og r)) work).
  { apply list_filter_elem_of. split; [done | by apply bool_decide_true]. }
  rewrite E in H. by apply not_elem_of_nil in H.
Qed.

Lemma mapping_of_groups_ok (grps : list (string * list gene)) :
  Forall (fun grp : string * list gene => grp.2 <> []) grps ->
  exists records conflicts,
    mapping_of_groups casefold grps = inr (records, conflicts) /\ records.*1 = grps.*1.
Proof.
  induction 1 as [|[og genes] grps Hg _ (records & conflicts & IH & Hk)]; cbn.
  - by exists [], [].
  - destruct (choose_gene_name_ok casefold genes Hg) as (g & -> & _).
    rewrite IH. eexists _, _. split; [done|]. cbn. by rewrite Hk.
Qed.

Lemma build_mapping_inr (df : list og_row) (keep_empty_gene : bool) mapping conflicts :
  build_mapping casefold df keep_empty_gene = inr (mapping, conflicts) ->
  surviving keep_empty_gene df <> [].
Proof. unfold build_mapping. by destruct (surviving keep_empty_gene df). Qed.

(** With at least one surviving row [build_mapping] succeeds; its records
    are the OGs of the surviving rows, each once, in the order of the keys. *)
Lemma build_mapping_ok (df : list og_row) (keep_empty_gene : bool) :
  surviving keep_empty_gene df <> [] ->
  exists mapping conflicts,
    build_mapping casefold df keep_empty_gene = inr (mapping, conflicts)
    /\ mapping.*1 ≡ₚ distinct (row_og <$> surviving keep_empty_gene df)
    /\ StronglySorted og_le mapping.*1.
Proof.
  intros Hwork. unfold build_mapping.
  destruct (mapping_of_groups_ok _ (groupby_og_nonempty (surviving keep_empty_gene df)))
    as (records & conflicts & E & Hk).
  rewrite groupby_og_keys in Hk.
  destruct (surviving keep_empty_gene df) as [|r0 work] eqn:Ew; [done|].
  rewrite E. eexists _, _. split; [done|]. split.
  - by rewrite sort_by_perm, Hk.
  - apply (StronglySorted_fmap fst
             (fun a b => og_key_le (og_sort_key a.1) (og_sort_key b.1) = true)); [done|].
    apply sort_by_sorted.
    + intros a b. apply KeyFacts.og_key_le_total.
    + intros a b c. apply KeyFacts.og_key_le_trans.
Qed.

End MappingFacts.

(** C6, refuted as stated: in the table below every observation of [OG2]
    is dropped by the empty-name filter, and the run succeeds with a
    table that has no row for [OG2]. *)
Lemma build_mapping_omits_emptied_og :
  List.filter (fun r => bool_decide (row_og r = "OG2"))
    (surviving false [ {| row_og := "OG1"; row_gene := Some "geneA" |};
                       {| row_og := "OG2"; row_gene := Some "" |} ]) = []
  /\ build_mapping casefold_ascii
       [ {| row_og := "OG1"; row_gene := Some "geneA" |};
         {| row_og := "OG2"; row_gene := Some "" |} ] false
     = inr ([("OG1", "geneA")], []).
Proof. split; vm_compute; reflexivity. Qed.

(** C6, as the code has it.  [build_mapping] fails with "No valid OG/Gene
    rows available after filtering" exactly when no row at all survives the
    filtering.  Otherwise it succeeds, and its table has one row for each OG
    that has a surviving row and none for any other OG: an OG whose
    observations were all dropped is left out. *)
Theorem build_mapping_no_valid_rows (casefold : string -> string)
    (df : list og_row) (keep_empty_gene : bool) :
  (build_mapping casefold df keep_empty_gene = inl NoValidRows
   <-> surviving keep_empty_gene df = [])
  /\ (surviving keep_empty_gene df <> [] ->
      exists mapping conflicts,
        build_mapping casefold df keep_empty_gene = inr (mapping, conflicts)
        /\ NoDup mapping.*1
        /\ forall og, og ∈ mapping.*1
                      <-> exists r, r ∈ surviving keep_empty_gene df /\ row_og r = og).
Proof.
  split.
  - split.
    + intros E. destruct (surviving keep_empty_gene df) as [|r0 work] eqn:Ew; [done|].
      destruct (build_mapping_ok casefold df keep_empty_gene) as (m & c & E' & _);
        [by rewrite Ew | congruence].
    + intros E. unfold build_mapping. by rewrite E.
  - intros Hwork.
    destruct (build_mapping_ok casefold df keep_empty_gene Hwork) as (m & c & E & Hp & _).
    exists m, c. split_and!; [done | |].
    + rewrite Hp. apply distinct_NoDup.
    + intros og. rewrite Hp, distinct_elem_of, list_elem_of_fmap. split.
      * intros (r & -> & Hr). eauto.
      * intros (r & Hr & <-). eauto.
Qed.

(** C7, refuted as stated: ["HOG:5"] does not match the pattern of
    [og_sort_key] and ["OG1"] does, yet ["HOG:5"] is sorted first. *)
Lemma build_mapping_unmatched_first :
  og_sort_key "HOG:5" = ("HOG:5", Inf)
  /\ og_sort_key "OG1" = ("OG", Fin 1)
  /\ build_mapping casefold_ascii
       [ {| row_og := "OG1"; row_gene := Some "geneA" |};
         {| row_og := "HOG:5"; row_gene := Some "geneB" |} ] false
     = inr ([("HOG:5", "geneB"); ("OG1", "geneA")], []).
Proof. split_and!; vm_compute; reflexivity. Qed.

(** C7, as the code has it.  The rows of the table are sorted on the key
    of [og_sort_key], compared as Python compares tuples: the string part
    first, the number only between equal strings.  [OG9] comes before
    [OG10].  Two OGs that do not match the pattern are ordered by their raw
    strings.  An OG [a] that does not match is placed after a matching OG
    with prefix [p] exactly when [p <= a] as strings; it is not placed after
    all matching OGs. *)
Theorem build_mapping_sorted (casefold : string -> string)
    (df : list og_row) (keep_empty_gene : bool)
    (mapping : list (string * string)) (conflicts : list conflict_record) :
  build_mapping casefold df keep_empty_gene = inr (mapping, conflicts) ->
  StronglySorted og_le mapping.*1
  /\ mapping.*1 ≡ₚ distinct (row_og <$> surviving keep_empty_gene df)
  /\ og_key_lt (og_sort_key "OG9") (og_sort_key "OG10") = true
  /\ (forall a b, og_sort_key a = (a, Inf) -> og_sort_key b = (b, Inf) ->
                  og_key_le (og_sort_key a) (og_sort_key b) = String.leb a b)
  /\ (forall a b p n, og_sort_key a = (a, Inf) -> og_sort_key b = (p, Fin n) ->
                      og_key_lt (og_sort_key b) (og_sort_key a) = String.leb p a).
Proof.
  intros E. pose proof (build_mapping_inr _ _ _ _ _ E) as Hwork.
  destruct (build_mapping_ok casefold df keep_empty_gene Hwork) as (m & c & E' & Hp & Hs).
  rewrite E in E'. injection E' as <- <-. split_and!; [done | done | done | |].
  - intros a b -> ->. unfold og_key_le, String.leb. cbn.
    by destruct (String.compare a b).
  - intros a b p n -> ->. unfold og_key_lt, og_key_le, String.leb. cbn.
    rewrite (String.compare_antisym p a). by destruct (String.compare a p).
Qed.

Lemma build_mapping_sorted_witness :
  build_mapping casefold_ascii
    [ {| row_og := "OG10"; row_gene := Some "geneC" |};
      {| row_og := "OG9"; row_gene := Some "geneA" |};
      {| row_og := "OG"; row_gene := Some "geneB" |} ] false
  = inr ([("OG9", "geneA"); ("OG10", "geneC"); ("OG", "geneB")], [])
  /\ StronglySorted og_le [("OG9", "geneA"); ("OG10", "geneC"); ("OG", "geneB")].*1.
Proof.
  assert (E : build_mapping casefold_ascii
    [ {| row_og := "OG10"; row_gene := Some "geneC" |};
      {| row_og := "OG9"; row_gene := Some "geneA" |};
      {| row_og := "OG"; row_gene := Some "geneB" |} ] false
    = inr ([("OG9", "geneA"); ("OG10", "geneC"); ("OG", "geneB")], []))
    by (vm_compute; reflexivity).
  split; [exact E|].
  exact (proj1 (build_mapping_sorted casefold_ascii _ false _ _ E)).
Defined.

(** ** Label lookup *)

Module LookupFacts.

Lemma set_add_NoDup (x : string) (s : list string) : NoDup s -> NoDup (set_add x s).
Proof.
  intros Hs. unfold set_add. case_decide; [done|].
  apply NoDup_app. split_and!; [done | | apply NoDup_singleton].
  by intros y Hy ->%list_elem_of_singleton.
Qed.

Lemma candidate_ids_NoDup (five_letter_map : gmap string string) (match_value : string) :
  NoDup (candidate_ids five_letter_map match_value).
Proof.
  unfold candidate_ids. cbv zeta.
  assert (H0 : NoDup (set_add (normalize_msa_id match_value) [])).
  { apply set_add_NoDup. constructor. }
  assert (H1 : NoDup (if bool_decide (clean_alnum match_value = "")
                      then set_add (normalize_msa_id match_value) []
                      else set_add (normalize_msa_id (clean_alnum match_value))
                             (set_add (normalize_msa_id match_value) []))).
  { case_bool_decide; [done | by apply set_add_NoDup]. }
  destruct (five_letter_map !! clean_alnum match_value) as [code|]; [|exact H1].
  destruct (bool_decide (code = "")); [exact H1 | by apply set_add_NoDup].
Qed.

Lemma metadata_bindings_NoDup metadata match_column five_letter_map :
  Forall (fun b : option (string * list string) => forall l cands, b = Some (l, cands) -> NoDup cands)
    (metadata_bindings metadata match_column five_letter_map).
Proof.
  unfold metadata_bindings. apply Forall_fmap, Forall_true. intros row l cands. cbn.
  unfold row_bindings. repeat case_match; try done.
  intros [= <- <-]. apply candidate_ids_NoDup.
Qed.

(** One attempt: a conflicting attempt leaves the lookup alone and adds
    one to the counter; any other attempt on a non-empty candidate binds
    it to [l] without touching the counter and without changing an
    existing binding. *)
Lemma bind_candidate_spec (lookup : gmap string string) (n : nat) (l c : string) :
  exists lookup',
    bind_candidate l (lookup, n) c
    = (lookup', if conflicts_with lookup l c then S n else n)
    /\ (forall c', c' <> c -> lookup' !! c' = lookup !! c')
    /\ lookup' !! c = (if bool_decide (c = "") then lookup !! c
                       else match lookup !! c with Some l' => Some l' | None => Some l end).
Proof.
  unfold bind_candidate, conflicts_with. case_bool_decide as Hc; cbn.
  - by exists lookup.
  - destruct (lookup !! c) as [l'|] eqn:E.
    + case_bool_decide as Hl; cbn.
      * subst l'. exists (<[c:=l]> lookup). split_and!; [done| |].
        -- intros c' Hc'. by rewrite lookup_insert_ne.
        -- by rewrite lookup_insert_eq.
      * by exists lookup.
    + exists (<[c:=l]> lookup). split_and!; [done| |].
      -- intros c' Hc'. by rewrite lookup_insert_ne.
      -- by rewrite lookup_insert_eq.
Qed.

Lemma conflicts_with_ext (lookup lookup' : gmap string string) (l : string) (cands : list string) :
  (forall c, c ∈ cands -> lookup' !! c = lookup !! c) ->
  List.filter (conflicts_with lookup' l) cands = List.filter (conflicts_with lookup l) cands.
Proof.
  intros H. induction cands as [|c cands IH]; [done|]. cbn.
  rewrite IH by (intros c' Hc'; apply H; by right).
  unfold conflicts_with at 1 3. rewrite (H c) by left. done.
Qed.

(** One row with duplicate-free candidates. *)
Lemma bind_row_spec (lookup : gmap string string) (n : nat) (l : string) (cands : list string) :
  NoDup cands ->
  exists lookup',
    fold_left (bind_candidate l) cands (lookup, n)
    = (lookup', (n + length (List.filter (conflicts_with lookup l) cands))%nat)
    /\ forall c, lookup' !! c
                 = if bool_decide (c ∈ cands /\ c <> "")
                   then match lookup !! c with Some l' => Some l' | None => Some l end
                   else lookup !! c.
Proof.
  intros Hnd. revert lookup n. induction Hnd as [|c cands Hc _ IH]; intros lookup n.
  - exists lookup. cbn. split; [f_equal; lia|]. intros c.
    rewrite bool_decide_false; [done|]. intros [H _]. by apply not_elem_of_nil in H.
  - cbn [fold_left].
    destruct (bind_candidate_spec lookup n l c) as (lookup1 & -> & Hother & Hself).
    destruct (IH lookup1 (if conflicts_with lookup l c then S n else n)) as (lookup' & -> & H').
    exists lookup'. split.
    + f_equal. rewrite (conflicts_with_ext lookup lookup1).
      2:{ intros c' Hc'. apply Hother. by intros ->. }
      cbn. destruct (conflicts_with lookup l c); cbn; lia.
    + intros c'. rewrite H'. destruct (decide (c' = c)) as [->|Hne].
      * rewrite (bool_decide_false (c ∈ cands /\ _)) by (by intros [? _]).
        rewrite Hself. case_bool_decide as E.
        -- rewrite bool_decide_false; [done|]. by intros [_ ?].
        -- rewrite bool_decide_true; [done|]. split; [left | done].
      * rewrite Hother by done.
        apply (f_equal (fun b : bool => if b then _ else _)).
        apply bool_decide_ext. rewrite elem_of_cons. tauto.
Qed.

Lemma first_label_snoc bs b c :
  first_label (bs ++ [b]) c
  = match first_label bs c with
    | Some l => Some l
    | None => first_label [b] c
    end.
Proof.
  induction bs as [|[[l cands]|] bs IH]; cbn.
  - by destruct (first_label [b] c).
  - case_decide; [done | apply IH].
  - apply IH.
Qed.

Lemma conflicting_attempts_snoc seen bs b :
  conflicting_attempts seen (bs ++ [b])
  = (conflicting_attempts seen bs + conflicting_attempts (seen ++ bs) [b])%nat.
Proof.
  revert seen. induction bs as [|b' bs IH]; intros seen.
  - cbn [app conflicting_attempts]. rewrite app_nil_r. lia.
  - change ((b' :: bs) ++ [b]) with (b' :: (bs ++ [b])).
    cbn [conflicting_attempts]. rewrite IH, <- !app_assoc. cbn [app conflicting_attempts]. lia.
Qed.

(** The state after the rows [bs]: the lookup holds the first label of
    every non-empty candidate and the counter the conflicting attempts. *)
Lemma fold_bind_rows (bs : list (option (string * list string))) :
  Forall (fun b : option (string * list string) => forall l cands, b = Some (l, cands) -> NoDup cands) bs ->
  exists lookup,
    fold_left bind_row bs (∅, 0%nat) = (lookup, conflicting_attempts [] bs)
    /\ forall c, lookup !! c = if bool_decide (c = "") then None else first_label bs c.
Proof.
  induction bs as [|b bs IH] using rev_ind; intros Hnd.
  - exists ∅. split; [done|]. intros c. rewrite lookup_empty. by case_bool_decide.
  - apply Forall_app in Hnd as [Hbs Hb]. rewrite Forall_singleton in Hb.
    destruct (IH Hbs) as (lookup & E & Hl).
    rewrite fold_left_app, E, conflicting_attempts_snoc. cbn [fold_left app].
    destruct b as [[l cands]|]; cbn [bind_row conflicting_attempts].
    + destruct (bind_row_spec lookup (conflicting_attempts [] bs) l cands (Hb _ _ eq_refl))
        as (lookup' & -> & H').
      exists lookup'. split.
      * f_equal. f_equal. rewrite Nat.add_0_r. f_equal.
        clear -Hl. induction cands as [|c cands IH]; [done|]. cbn. rewrite IH.
        assert (conflicts_with lookup l c = conflicting bs l c) as ->; [|done].
        unfold conflicts_with, conflicting. rewrite Hl. by case_bool_decide.
      * intros c. rewrite H', Hl, first_label_snoc. cbn.
        case_bool_decide as E1; case_bool_decide as E2.
        -- by destruct E1.
        -- destruct (first_label bs c); [done|]. by rewrite decide_True by apply E1.
        -- done.
        -- destruct (first_label bs c); [done|]. rewrite decide_False; [done|].
           intros Hin. by apply E1.
    + exists lookup. split; [f_equal; lia|]. intros c. rewrite Hl, first_label_snoc. cbn.
      by destruct (first_label bs c).
Qed.

(** [first_label] in words: the label of a row that produced the
    candidate while no earlier row did. *)
Lemma first_label_Some bs c l :
  first_label bs c = Some l
  <-> exists pre cands post,
        bs = pre ++ Some (l, cands) :: post /\ c ∈ cands
        /\ forall l' cands', Some (l', cands') ∈ pre -> c ∉ cands'.
Proof.
  split.
  - induction bs as [|[[l0 cands0]|] bs IH]; cbn; [done| |].
    + case_decide as Hc.
      * intros [= ->]. exists [], cands0, bs. split_and!; [done..|].
        intros l' cands' H. by apply not_elem_of_nil in H.
      * intros (pre & cands & post & -> & Hin & Hpre)%IH.
        exists (Some (l0, cands0) :: pre), cands, post. split_and!; [done..|].
        intros l' cands' [[= -> ->]|H]%elem_of_cons; [done | by eapply Hpre].
    + intros (pre & cands & post & -> & Hin & Hpre)%IH.
      exists (None :: pre), cands, post. split_and!; [done..|].
      intros l' cands' [?|H]%elem_of_cons; [done | by eapply Hpre].
  - intros (pre & cands & post & -> & Hin & Hpre).
    induction pre as [|[[l0 cands0]|] pre IH]; cbn.
    + by rewrite decide_True.
    + rewrite decide_False by (eapply Hpre; left).
      apply IH. intros l' cands' H. eapply Hpre. by right.
    + apply IH. intros l' cands' H. eapply Hpre. by right.
Qed.

End LookupFacts.

Module SetOrder.
Import LookupFacts.

(** Two attempts of one row can be made in either order. *)
Lemma bind_candidate_comm (l : string) (st : gmap string string * nat) (c1 c2 : string) :
  bind_candidate l (bind_candidate l st c1) c2 = bind_candidate l (bind_candidate l st c2) c1.
Proof.
  destruct st as [lookup n]. destruct (decide (c1 = c2)) as [->|Hne]; [done|].
  destruct (bind_candidate_spec lookup n l c1) as (m1 & -> & O1 & S1).
  destruct (bind_candidate_spec lookup n l c2) as (m2 & -> & O2 & S2).
  destruct (bind_candidate_spec m1 (if conflicts_with lookup l c1 then S n else n) l c2)
    as (m12 & -> & O12 & S12).
  destruct (bind_candidate_spec m2 (if conflicts_with lookup l c2 then S n else n) l c1)
    as (m21 & -> & O21 & S21).
  assert (conflicts_with m1 l c2 = conflicts_with lookup l c2) as ->.
  { unfold conflicts_with. by rewrite O1. }
  assert (conflicts_with m2 l c1 = conflicts_with lookup l c1) as ->.
  { unfold conflicts_with. by rewrite O2 by done. }
  f_equal.
  - apply map_eq. intros c.
    destruct (decide (c = c1)) as [->|N1]; [|destruct (decide (c = c2)) as [->|N2]].
    + rewrite O12, S1, S21, O2 by done. done.
    + rewrite S12, O1, O21, S2 by done. done.
    + rewrite O12, O1, O21, O2 by done. done.
  - by destruct (conflicts_with lookup l c1), (conflicts_with lookup l c2).
Qed.

(** The candidates of a row are a Python [set]; the order in which the
    loop visits them does not change the state it reaches. *)
Lemma bind_row_order (l : string) (cands cands' : list string) st :
  cands ≡ₚ cands' ->
  fold_left (bind_candidate l) cands st = fold_left (bind_candidate l) cands' st.
Proof.
  intros Hp. revert st.
  induction Hp as [|c k k' _ IH|c1 c2 k|k1 k2 k3 _ IH1 _ IH2]; intros st; cbn.
  - done.
  - apply IH.
  - by rewrite bind_candidate_comm.
  - by rewrite IH1.
Qed.

End SetOrder.

(** C2, refuted as stated: two rows whose candidates overlap and whose
    labels differ can give a collision count other than 1.  The labels
    ["A-B"] and ["A_B"] share the candidates ["AB"] and ["s0001"]; both
    attempts of the second row are counted. *)
Lemma build_metadata_label_lookup_two_collisions :
  metadata_bindings {| df_columns := ["label"]; df_rows := [[Some "A-B"]; [Some "A_B"]] |}
    "label" {["AB" := "s0001"]}
  = [Some ("A-B", ["A-B"; "AB"; "s0001"]); Some ("A_B", ["A_B"; "AB"; "s0001"])]
  /\ exists lookup,
       build_metadata_label_lookup
         {| df_columns := ["label"]; df_rows := [[Some "A-B"]; [Some "A_B"]] |}
         "label" {["AB" := "s0001"]}
       = inr (lookup, 2%nat)
       /\ lookup !! "AB" = Some "A-B" /\ lookup !! "s0001" = Some "A-B".
Proof.
  split; [vm_compute; reflexivity|].
  eexists. split; [vm_compute; reflexivity|]. split; vm_compute; reflexivity.
Qed.

(** C2, as the code has it.  In the lookup every candidate is bound to the
    output label of the first row that produced it.  An attempt to bind a
    candidate that is already bound to another label leaves the lookup
    unchanged and adds one to the collision counter, so the counter is the
    number of such attempts.  For two rows with different labels the
    counter is the number of non-empty candidates of the second row that
    are candidates of the first (1 when they share one candidate), and the
    bindings of the first row stay. *)
Theorem build_metadata_label_lookup_first_wins
    (metadata : data_frame) (match_column : string) (five_letter_map : gmap string string)
    (lookup : gmap string string) (collisions : nat) :
  build_metadata_label_lookup metadata match_column five_letter_map = inr (lookup, collisions) ->
  (forall c l,
     lookup !! c = Some l
     <-> c <> ""
         /\ exists pre cands post,
              metadata_bindings metadata match_column five_letter_map
              = pre ++ Some (l, cands) :: post
              /\ c ∈ cands
              /\ forall l' cands', Some (l', cands') ∈ pre -> c ∉ cands')
  /\ (forall (lk : gmap string string) (n : nat) (l existing c : string),
        c <> "" -> lk !! c = Some existing -> existing <> l ->
        bind_candidate l (lk, n) c = (lk, S n))
  /\ collisions
     = conflicting_attempts [] (metadata_bindings metadata match_column five_letter_map)
  /\ (forall l1 c1 l2 c2,
        metadata_bindings metadata match_column five_letter_map
        = [Some (l1, c1); Some (l2, c2)] ->
        l1 <> l2 ->
        collisions
        = length (List.filter (fun c => negb (bool_decide (c = "")) && bool_decide (c ∈ c1)) c2)
        /\ forall c, c ∈ c1 -> c <> "" -> lookup !! c = Some l1).
Proof.
  unfold build_metadata_label_lookup. case_decide as Hcol; [|done]. intros [= E].
  destruct (LookupFacts.fold_bind_rows _
              (LookupFacts.metadata_bindings_NoDup metadata match_column five_letter_map))
    as (lookup' & E' & Hl).
  rewrite E in E'. injection E' as <- Hn.
  set (bs := metadata_bindings metadata match_column five_letter_map) in *. clearbody bs.
  split_and!.
  - intros c l. rewrite Hl, <- LookupFacts.first_label_Some. case_bool_decide as Hc.
    + split; [done | by intros [? _]].
    + split; [done | by intros [_ ?]].
  - intros lk n l existing c Hc Hlk Hne. unfold bind_candidate.
    by rewrite bool_decide_false, Hlk, bool_decide_false.
  - done.
  - intros l1 c1 l2 c2 -> Hne. split.
    + rewrite Hn. cbn. rewrite Nat.add_0_r.
      assert (List.filter (conflicting [] l1) c1 = []) as ->.
      { clear. induction c1 as [|c c1 IH]; [done|]. cbn.
        unfold conflicting at 1. cbn. by rewrite andb_false_r. }
      cbn. f_equal.
      clear -Hne. induction c2 as [|c c2 IH]; [done|]. cbn. rewrite IH.
      assert (conflicting [Some (l1, c1)] l2 c
              = negb (bool_decide (c = "")) && bool_decide (c ∈ c1)) as ->; [|done].
      unfold conflicting. cbn. case_decide.
      * by rewrite (bool_decide_false (l1 = l2)), (bool_decide_true (c ∈ c1)).
      * by rewrite (bool_decide_false (c ∈ c1)).
    + intros c Hin Hc. rewrite Hl, bool_decide_false by done. cbn. by rewrite decide_True.
Qed.

Lemma build_metadata_label_lookup_first_wins_witness :
  exists lookup,
    build_metadata_label_lookup
      {| df_columns := ["label"]; df_rows := [[Some "A-B"]; [Some "A_B"]] |} "label" ∅
    = inr (lookup, 1%nat)
    /\ lookup !! "AB" = Some "A-B"
    /\ 1%nat = conflicting_attempts []
                 (metadata_bindings
                    {| df_columns := ["label"]; df_rows := [[Some "A-B"]; [Some "A_B"]] |}
                    "label" ∅).
Proof.
  eexists. split; [vm_compute; reflexivity|]. split; [vm_compute; reflexivity|].
  eapply (build_metadata_label_lookup_first_wins
            {| df_columns := ["label"]; df_rows := [[Some "A-B"]; [Some "A_B"]] |}
            "label" ∅ _ 1%nat).
  vm_compute. reflexivity.
Defined.

(** ** Metadata parsers *)

Module ParserFacts.

Lemma strip_empty : strip "" = "".
Proof. reflexivity. Qed.

Lemma fold_dict_values (hs cs : list string) (m : gmap string string) :
  map_Forall (fun _ v => v = "") m ->
  Forall (fun cell => strip cell = "") cs ->
  map_Forall (fun _ v => v = "") (fold_left (fun m kv => <[kv.1 := strip kv.2]> m) (zip hs cs) m).
Proof.
  revert cs m. induction hs as [|h hs IH]; intros cs m Hm Hcs; [done|].
  destruct Hcs as [|c cs Hc Hcs]; [done|]. cbn. apply IH; [|done].
  by apply map_Forall_insert_2.
Qed.

Lemma fold_dict_other (hs cs : list string) (m : gmap string string) (k : string) :
  k ∉ hs -> fold_left (fun m kv => <[kv.1 := strip kv.2]> m) (zip hs cs) m !! k = m !! k.
Proof.
  revert cs m. induction hs as [|h hs IH]; intros cs m Hk; [done|].
  apply not_elem_of_cons in Hk as [Hne Hk]. destruct cs as [|c cs]; [done|]. cbn.
  rewrite IH by done. by apply lookup_insert_ne.
Qed.

Lemma fold_dict_lookup (hs cs : list string) (m : gmap string string) i k cell :
  NoDup hs -> hs !! i = Some k -> cs !! i = Some cell ->
  fold_left (fun m kv => <[kv.1 := strip kv.2]> m) (zip hs cs) m !! k = Some (strip cell).
Proof.
  intros Hnd. revert cs m i. induction Hnd as [|h hs Hh _ IH]; intros cs m i Hi Hc; [done|].
  destruct cs as [|c cs]; [done|]. destruct i as [|i]; cbn in *.
  - injection Hi as ->. injection Hc as ->.
    rewrite fold_dict_other by done. apply lookup_insert_eq.
  - by eapply IH.
Qed.

Lemma pad_row_blank (n : nat) (raw : list string) :
  blank_row raw -> Forall (fun cell => strip cell = "") (pad_row n raw).
Proof.
  intros H. apply Forall_app. split; [done|].
  apply Forall_forall. by intros c ->%elem_of_replicate_inv.
Qed.

(** A blank row gives a dictionary without a non-empty value. *)
Lemma blank_row_dict (header raw : list string) :
  blank_row raw -> all_values_empty (row_dict header (pad_row (length header) raw)) = true.
Proof.
  intros H. apply bool_decide_eq_true. unfold row_dict.
  apply fold_dict_values; [apply map_Forall_empty | by apply pad_row_blank].
Qed.

(** With distinct column names every cell is a value of the dictionary. *)
Lemma dict_blank_row (header raw : list string) :
  NoDup header -> (length raw <= length header)%nat ->
  all_values_empty (row_dict header (pad_row (length header) raw)) = true ->
  blank_row raw.
Proof.
  intros Hnd Hlen Hall%bool_decide_eq_true. apply Forall_lookup. intros i cell Hi.
  assert (Hlt : (i < length header)%nat).
  { apply lookup_lt_Some in Hi. lia. }
  apply lookup_lt_is_Some in Hlt as [k Hk].
  apply (Hall k). unfold row_dict. eapply fold_dict_lookup; [done..|].
  unfold pad_row. by apply lookup_app_l_Some.
Qed.

(** *** The row loops *)

Lemma validate_skip (header : list string) (lc ac : string) (i : nat)
    (raw : list string) (rest : list (list string)) :
  (length raw <= length header)%nat -> blank_row raw ->
  Validate.parse_rows header lc ac i (raw :: rest)
  = Validate.parse_rows header lc ac (S i) rest.
Proof.
  intros Hlen Hb. cbn [Validate.parse_rows].
  rewrite decide_False by lia. by rewrite blank_row_dict.
Qed.

Lemma prepare_skip (header : list string) (i : nat)
    (raw : list string) (rest : list (list string)) :
  (length raw <= length header)%nat -> blank_row raw ->
  Prepare.parse_rows header i (raw :: rest) = Prepare.parse_rows header (S i) rest.
Proof.
  intros Hlen Hb. cbn [Prepare.parse_rows].
  rewrite decide_False by lia. by rewrite blank_row_dict.
Qed.

Lemma validate_all_blank (header : list string) (lc ac : string) (i : nat)
    (data : list (list string)) :
  Forall (fun raw => (length raw <= length header)%nat) data ->
  Forall blank_row data ->
  Validate.parse_rows header lc ac i data = inr [].
Proof.
  intros Hlen. revert i. induction Hlen as [|raw data Hraw _ IH]; intros i Hb; [done|].
  apply Forall_cons in Hb as [Hb Hbs]. rewrite validate_skip by done. by apply IH.
Qed.

Lemma prepare_all_blank (header : list string) (i : nat) (data : list (list string)) :
  Forall (fun raw => (length raw <= length header)%nat) data ->
  Forall blank_row data ->
  Prepare.parse_rows header i data = inr [].
Proof.
  intros Hlen. revert i. induction Hlen as [|raw data Hraw _ IH]; intros i Hb; [done|].
  apply Forall_cons in Hb as [Hb Hbs]. rewrite prepare_skip by done. by apply IH.
Qed.

Lemma validate_none_kept (header : list string) (lc ac : string) (i : nat)
    (data : list (list string)) :
  NoDup header ->
  Forall (fun raw => (length raw <= length header)%nat) data ->
  Validate.parse_rows header lc ac i data = inr [] ->
  Forall blank_row data.
Proof.
  intros Hnd Hlen. revert i. induction Hlen as [|raw data Hraw _ IH]; intros i; [done|].
  cbn [Validate.parse_rows]. rewrite decide_False by lia.
  destruct (all_values_empty _) eqn:Hall.
  - intros E. constructor; [by apply (dict_blank_row header) | by eapply IH].
  - repeat case_match; done.
Qed.

Lemma prepare_none_kept (header : list string) (i : nat) (data : list (list string)) :
  NoDup header ->
  Forall (fun raw => (length raw <= length header)%nat) data ->
  Prepare.parse_rows header i data = inr [] ->
  Forall blank_row data.
Proof.
  intros Hnd Hlen. revert i. induction Hlen as [|raw data Hraw _ IH]; intros i; [done|].
  cbn [Prepare.parse_rows]. rewrite decide_False by lia.
  destruct (all_values_empty _) eqn:Hall.
  - intros E. constructor; [by apply (dict_blank_row header) | by eapply IH].
  - repeat case_match; done.
Qed.

(** The row loops never report the "no data rows" error themselves. *)
Lemma validate_rows_error (header : list string) (lc ac : string) (i : nat)
    (data : list (list string)) :
  Validate.parse_rows header lc ac i data <> inl NoDataRows.
Proof.
  revert i. induction data as [|raw data IH]; intros i; [done|].
  cbn [Validate.parse_rows]. pose proof (IH (S i)) as IH'.
  destruct (Validate.parse_rows header lc ac (S i) data) as [e|data_rows];
    repeat case_match; congruence.
Qed.

Lemma prepare_rows_error (header : list string) (i : nat) (data : list (list string)) :
  Prepare.parse_rows header i data <> inl NoDataRows.
Proof.
  revert i. induction data as [|raw data IH]; intros i; [done|].
  cbn [Prepare.parse_rows]. pose proof (IH (S i)) as IH'.
  destruct (Prepare.parse_rows header (S i) data) as [e|data_rows];
    repeat case_match; congruence.
Qed.

Lemma validate_check_header (r0 r1 : list string) h t lc ac :
  Validate.check_header r0 r1 = inr (h, t, lc, ac) -> h = strip <$> r0.
Proof. unfold Validate.check_header. repeat case_match; try done. by intros [= <- _ _ _]. Qed.

Lemma prepare_check_header (r0 r1 : list string) h t lc ac :
  Prepare.check_header r0 r1 = inr (h, t, lc, ac) -> h = strip <$> r0.
Proof. unfold Prepare.check_header. repeat case_match; try done. by intros [= <- _ _ _]. Qed.

End ParserFacts.

(** C10, refuted as stated, in two ways.  A data row of three empty cells
    under a header of two columns is not skipped: it stops the parse with
    the "more columns than header" error.  And under a header that repeats
    a column name the row [,,x,] is skipped although it is not blank, so the
    parse ends with the "no data rows" error. *)
Lemma parsers_blank_row_exceptions :
  blank_row [""; ""; ""]
  /\ Validate.parse_metadata_csv
       [["label"; "accession"]; ["character"; "character"]; ["s1"; "a1"]; [""; ""; ""]]
     = inl (RowTooLong 4)
  /\ Prepare.parse_metadata_csv
       [["label"; "accession"]; ["character"; "character"]; ["s1"; "a1"]; [""; ""; ""]]
     = inl (RowTooLong 4)
  /\ ~ blank_row [""; ""; "x"; ""]
  /\ Validate.parse_metadata_csv
       [["label"; "accession"; "note"; "note"];
        ["character"; "character"; "character"; "character"];
        [""; ""; "x"; ""]]
     = inl NoDataRows
  /\ Prepare.parse_metadata_csv
       [["label"; "accession"; "note"; "note"];
        ["character"; "character"; "character"; "character"];
        [""; ""; "x"; ""]]
     = inl NoDataRows.
Proof.
  split_and!; try (vm_compute; reflexivity).
  - repeat constructor.
  - intros H. apply Forall_cons in H as [_ H]. apply Forall_cons in H as [_ H].
    apply Forall_cons in H as [H _]. vm_compute in H. discriminate.
Qed.

(** C10, as the code has it.  In both parsers, whatever the header:
    - a data row that has no more cells than the header and whose cells are
      all empty after stripping is skipped: the loop goes on with the next
      row as if the row were absent, so it adds no output row and none of
      the field checks of validate_metadata.py runs on it;
    - a data row with more cells than the header raises the "more columns
      than header" error with its row number, before the blank test, also
      when all its cells are empty.
    When the column names are distinct and no data row is longer than the
    header, a parse that passed the header checks ends with the "no data
    rows" error exactly when every data row is blank. *)
Theorem parsers_skip_blank_rows (r0 r1 : list string) (data : list (list string)) :
  (forall header lc ac i raw rest,
     (length raw <= length header)%nat -> blank_row raw ->
     Validate.parse_rows header lc ac i (raw :: rest)
     = Validate.parse_rows header lc ac (S i) rest
     /\ Prepare.parse_rows header i (raw :: rest) = Prepare.parse_rows header (S i) rest)
  /\ (forall header lc ac i raw rest,
        (length header < length raw)%nat ->
        Validate.parse_rows header lc ac i (raw :: rest) = inl (RowTooLong i)
        /\ Prepare.parse_rows header i (raw :: rest) = inl (RowTooLong i))
  /\ (NoDup (strip <$> r0) ->
      Forall (fun raw => (length raw <= length r0)%nat) data ->
      data <> [] ->
      (forall h t lc ac,
         Validate.check_header r0 r1 = inr (h, t, lc, ac) ->
         (Validate.parse_metadata_csv (r0 :: r1 :: data) = inl NoDataRows
          <-> Forall blank_row data))
      /\ (forall h t lc ac,
            Prepare.check_header r0 r1 = inr (h, t, lc, ac) ->
            (Prepare.parse_metadata_csv (r0 :: r1 :: data) = inl NoDataRows
             <-> Forall blank_row data))).
Proof.
  split_and!.
  - intros header lc ac i raw rest Hraw Hb. split.
    + by apply ParserFacts.validate_skip.
    + by apply ParserFacts.prepare_skip.
  - intros header lc ac i raw rest Hlong.
    cbn [Validate.parse_rows Prepare.parse_rows]. by rewrite !decide_True.
  - intros Hnd Hlen Hdata.
    assert (Hlen' : Forall (fun raw => (length raw <= length (strip <$> r0))%nat) data).
    { eapply Forall_impl; [exact Hlen|]. intros raw. by rewrite length_fmap. }
    split.
    + intros h t lc ac Hh.
      pose proof (ParserFacts.validate_check_header _ _ _ _ _ _ Hh) as ->.
      destruct data as [|raw0 data']; [done|]. cbn [Validate.parse_metadata_csv]. rewrite Hh.
      split.
      * intros E. eapply (ParserFacts.validate_none_kept _ lc ac 3); [done..|].
        pose proof (ParserFacts.validate_rows_error (strip <$> r0) lc ac 3 (raw0 :: data'))
          as Hne.
        destruct (Validate.parse_rows _ _ _ _ _) as [e|[|row rows']]; [congruence|done|done].
      * intros Hb. by rewrite (ParserFacts.validate_all_blank _ lc ac 3).
    + intros h t lc ac Hh.
      pose proof (ParserFacts.prepare_check_header _ _ _ _ _ _ Hh) as ->.
      destruct data as [|raw0 data']; [done|]. cbn [Prepare.parse_metadata_csv]. rewrite Hh.
      split.
      * intros E. eapply (ParserFacts.prepare_none_kept _ 3); [done..|].
        pose proof (ParserFacts.prepare_rows_error (strip <$> r0) 3 (raw0 :: data')) as Hne.
        destruct (Prepare.parse_rows _ _ _) as [e|[|row rows']]; [congruence|done|done].
      * intros Hb. by rewrite (ParserFacts.prepare_all_blank _ 3).
Qed.

Lemma parsers_skip_blank_rows_witness :
  NoDup (strip <$> ["label"; "accession"])
  /\ Forall (fun raw => (length raw <= length ["label"; "accession"])%nat) [[]; [" "; ""]]
  /\ Validate.check_header ["label"; "accession"] ["character"; "date"]
     = inr (["label"; "accession"], ["character"; "date"], "label", "accession")
  /\ Forall blank_row [[]; [" "; ""]]
  /\ Validate.parse_metadata_csv
       (["label"; "accession"] :: ["character"; "date"] :: [[]; [" "; ""]])
     = inl NoDataRows
  /\ Validate.parse_rows ["label"; "accession"] "label" "accession" 3
       [[""; " "; ""]; ["s1"; "a1"]]
     = inl (RowTooLong 3).
Proof.
  assert (Hnd : NoDup (strip <$> ["label"; "accession"])).
  { vm_compute. repeat constructor; rewrite ?elem_of_cons, ?elem_of_nil;
      intros H; repeat destruct H as [H|H]; discriminate || done. }
  assert (Hlen : Forall (fun raw => (length raw <= length ["label"; "accession"])%nat)
                   [[]; [" "; ""]]).
  { repeat constructor; cbn; lia. }
  assert (Hh : Validate.check_header ["label"; "accession"] ["character"; "date"]
               = inr (["label"; "accession"], ["character"; "date"], "label", "accession"))
    by (vm_compute; reflexivity).
  assert (Hb : Forall blank_row [[]; [" "; ""]]).
  { repeat constructor. }
  destruct (parsers_skip_blank_rows ["label"; "accession"] ["character"; "date"]
              [[]; [" "; ""]]) as (_ & Hlong & Hnone).
  split_and!; [exact Hnd | exact Hlen | exact Hh | exact Hb | |].
  - destruct (Hnone Hnd Hlen) as [Hv _]; [discriminate|].
    apply (Hv _ _ _ _ Hh). exact Hb.
  - apply Hlong. cbn. lia.
Defined.

(** * Further properties of the sources *)

(** ** Comparison keys *)

Module KeyOfLabel.
Import Chars CharFacts SanitizeFacts.

Lemma delete_non_alnum_alnum (l : list ascii) :
  Forall (fun c => is_alnum c = true) (delete_non_alnum l).
Proof.
  apply Forall_forall. intros c Hc. unfold delete_non_alnum in Hc.
  apply list_filter_elem_of in Hc. apply Hc.
Qed.

Lemma delete_non_alnum_id (l : list ascii) :
  Forall (fun c => is_alnum c = true) l -> delete_non_alnum l = l.
Proof.
  unfold delete_non_alnum. induction 1 as [|c r Hc _ IH]; cbn; [done|].
  by rewrite Hc, IH.
Qed.

Lemma delete_non_alnum_app (l1 l2 : list ascii) :
  delete_non_alnum (l1 ++ l2) = delete_non_alnum l1 ++ delete_non_alnum l2.
Proof. apply List.filter_app. Qed.

Lemma delete_non_alnum_none (l : list ascii) :
  Forall (fun c => is_alnum c = false) l -> delete_non_alnum l = [].
Proof.
  unfold delete_non_alnum. induction 1 as [|c r Hc _ IH]; cbn; [done|].
  by rewrite Hc.
Qed.

(** Replacing runs of characters that are not alphanumeric by an
    underscore does not change the alphanumeric characters. *)
Lemma delete_non_alnum_sub_runs p b (l : list ascii) :
  (forall c, p c = true -> is_alnum c = false) ->
  delete_non_alnum (sub_runs p b l) = delete_non_alnum l.
Proof.
  intros Hp. revert b. induction l as [|c r IH]; intros b; [done|]. cbn.
  destruct (p c) eqn:E.
  - rewrite (Hp c E). destruct b; cbn; apply IH.
  - cbn. by rewrite IH.
Qed.

Lemma is_us_not_alnum (c : ascii) : is_us c = true -> is_alnum c = false.
Proof. by intros ->%is_us_true. Qed.

Lemma non_word_not_alnum (c : ascii) : negb (is_word c) = true -> is_alnum c = false.
Proof. unfold is_word. by destruct (is_alnum c). Qed.

Lemma delete_non_alnum_strip (l : list ascii) :
  delete_non_alnum (strip_by is_us l) = delete_non_alnum l.
Proof.
  destruct (strip_by_middle is_us l) as (pre & post & E & Hpre & Hpost).
  rewrite E at 2. rewrite !delete_non_alnum_app.
  rewrite (delete_non_alnum_none pre), (delete_non_alnum_none post), app_nil_r; [done|..].
  - eapply Forall_impl; [exact Hpost|]. apply is_us_not_alnum.
  - eapply Forall_impl; [exact Hpre|]. apply is_us_not_alnum.
Qed.

(** The alphanumeric characters of a collapsed text are those of the
    text, or [NA] when it has none. *)
Lemma delete_non_alnum_collapse (l : list ascii) :
  delete_non_alnum (collapse l)
  = match delete_non_alnum l with
    | [] => list_ascii_of_string "NA"
    | k => k
    end.
Proof.
  pose proof (collapse_normal l) as Hn. unfold collapse in *.
  set (y := strip_by is_us (sub_underscore_runs (sub_nonword_runs l))) in *.
  assert (Hy : delete_non_alnum y = delete_non_alnum l).
  { unfold y, sub_underscore_runs, sub_nonword_runs.
    rewrite delete_non_alnum_strip.
    rewrite delete_non_alnum_sub_runs by apply is_us_not_alnum.
    apply delete_non_alnum_sub_runs, non_word_not_alnum. }
  rewrite <- Hy. destruct y as [|c y'] eqn:Ey; [done|]. cbn [or_NA] in *.
  destruct Hn as [Hw _ Hh _ _]. apply Forall_cons in Hw as [Hc _].
  unfold delete_non_alnum. cbn.
  assert (is_alnum c = true) as ->; [|done].
  unfold is_word in Hc. destruct (is_alnum c); [done|]. cbn in Hc.
  apply is_us_true in Hc as ->. by destruct Hh.
Qed.

End KeyOfLabel.

(** X1.  [clean_alnum] is idempotent and its result holds alphanumeric
    characters only. *)
Theorem clean_alnum_idempotent (x : string) :
  clean_alnum (clean_alnum x) = clean_alnum x
  /\ Forall (fun c => Chars.is_alnum c = true) (list_ascii_of_string (clean_alnum x)).
Proof.
  assert (H : Forall (fun c => Chars.is_alnum c = true)
                (list_ascii_of_string (clean_alnum x))).
  { unfold clean_alnum. rewrite on_chars_chars. apply KeyOfLabel.delete_non_alnum_alnum. }
  split; [|done]. apply chars_inj. unfold clean_alnum at 1. rewrite on_chars_chars.
  by apply KeyOfLabel.delete_non_alnum_id.
Qed.

(** X2.  The key on which [validate_output_constraints] detects collisions
    is the comparison key of the raw label once a trailing [_1] or [_2] is
    removed, or [NA] when that key is empty; the sanitizing steps in
    between do not change it. *)
Theorem collision_key_of_label (raw_label : string) :
  collision_key_of raw_label
  = (if bool_decide (clean_alnum (strip_suffix_12 raw_label) = "") then "NA"
     else clean_alnum (strip_suffix_12 raw_label)).
Proof.
  unfold collision_key_of.
  assert (label_final_of (tree_label_sanitize raw_label) = tree_label_sanitize raw_label)
    as ->.
  { apply chars_inj. unfold label_final_of. rewrite on_chars_chars.
    pose proof (SanitizeFacts.tree_label_sanitize_normal (list_ascii_of_string raw_label))
      as [Hw Hne _ _ _].
    unfold tree_label_sanitize. rewrite on_chars_chars.
    rewrite SanitizeFacts.delete_non_word_id by done.
    by destruct (Chars.tree_label_sanitize (list_ascii_of_string raw_label)). }
  unfold clean_alnum, tree_label_sanitize, strip_suffix_12.
  rewrite !on_chars_compose. unfold on_chars, Chars.tree_label_sanitize.
  rewrite KeyOfLabel.delete_non_alnum_collapse.
  destruct (Chars.delete_non_alnum (Chars.sub_suffix_12 (list_ascii_of_string raw_label)))
    as [|c k] eqn:E.
  - by rewrite bool_decide_true.
  - by rewrite bool_decide_false.
Qed.

(** ** Decimal numerals and unique leaf names *)

Module NumeralFacts.
Import Chars.

Lemma uint_digits (d : Decimal.uint) :
  Forall (fun c => is_digit c = true) (list_ascii_of_string (NilEmpty.string_of_uint d)).
Proof. induction d; cbn; constructor; done. Qed.

Lemma uint_digits_zero (d : Decimal.uint) :
  Forall (fun c => is_digit c = true) (list_ascii_of_string (NilZero.string_of_uint d)).
Proof.
  destruct d; try apply uint_digits. cbn. by constructor.
Qed.

Lemma str_of_nat_digits (n : nat) :
  Forall (fun c => is_digit c = true) (list_ascii_of_string (str_of_nat n)).
Proof. apply uint_digits_zero. Qed.

Lemma str_of_N_digits (n : N) :
  Forall (fun c => is_digit c = true) (list_ascii_of_string (str_of_N n)).
Proof. apply uint_digits_zero. Qed.

Lemma nat_to_uint_nonnil (n : nat) : Nat.to_uint n <> Decimal.Nil.
Proof.
  intros E. pose proof (DecimalNat.Unsigned.of_to n) as H. rewrite E in H.
  cbn in H. subst n. discriminate E.
Qed.

Lemma N_to_uint_nonnil (n : N) : N.to_uint n <> Decimal.Nil.
Proof.
  intros E. pose proof (DecimalN.Unsigned.of_to n) as H. rewrite E in H.
  cbn in H. subst n. discriminate E.
Qed.

Lemma str_of_nat_inj (n m : nat) : str_of_nat n = str_of_nat m -> n = m.
Proof.
  unfold str_of_nat. intros E. apply DecimalNat.Unsigned.to_uint_inj.
  apply (f_equal NilZero.uint_of_string) in E.
  rewrite !NilZero.usu in E by apply nat_to_uint_nonnil. congruence.
Qed.

Lemma str_of_nat_nonempty (n : nat) : str_of_nat n <> "".
Proof.
  unfold str_of_nat. intros E. apply (f_equal NilZero.uint_of_string) in E.
  rewrite NilZero.usu in E by apply nat_to_uint_nonnil. discriminate E.
Qed.

Lemma digit_word (c : ascii) : is_digit c = true -> is_word c = true.
Proof. unfold is_word, is_alnum. intros ->. by rewrite orb_true_r. Qed.

(** A text that ends in an underscore and a run of characters other
    than the underscore is cut at that underscore in one way only. *)
Lemma cut_at_last_underscore (x y d e : list ascii) :
  underscore ∉ d -> underscore ∉ e ->
  x ++ underscore :: d = y ++ underscore :: e -> x = y /\ d = e.
Proof.
  intros Hd He E. apply (f_equal reverse) in E.
  rewrite !reverse_app, !reverse_cons, <- !app_assoc in E. cbn in E.
  assert (H : forall a b r s : list ascii,
             underscore ∉ a -> underscore ∉ b ->
             a ++ underscore :: r = b ++ underscore :: s -> a = b /\ r = s).
  { clear. induction a as [|c a IH]; intros [|c' b] r s Ha Hb E'; cbn in E'.
    - by injection E' as ->.
    - injection E' as <- _. destruct Hb. left.
    - injection E' as -> _. destruct Ha. left.
    - injection E' as -> E'. apply not_elem_of_cons in Ha as [_ Ha].
      apply not_elem_of_cons in Hb as [_ Hb].
      destruct (IH b r s Ha Hb E') as [-> ->]. done. }
  destruct (H (reverse d) (reverse e) (reverse x) (reverse y)) as [H1 H2];
    [by rewrite elem_of_reverse | by rewrite elem_of_reverse | done |].
  split; [by apply (inj reverse) | by apply (inj reverse)].
Qed.

Lemma digits_no_underscore (l : list ascii) :
  Forall (fun c => is_digit c = true) l -> underscore ∉ l.
Proof.
  intros H Hin. rewrite Forall_forall in H. by apply H in Hin.
Qed.

(** Two suffixed names are equal only when the names and the numbers are. *)
Lemma suffixed_inj (x y : string) (n m : nat) :
  x +:+ "_" +:+ str_of_nat n = y +:+ "_" +:+ str_of_nat m -> x = y /\ n = m.
Proof.
  intros E. apply (f_equal list_ascii_of_string) in E.
  rewrite !chars_of_append in E. cbn in E.
  apply cut_at_last_underscore in E as [Hx Hn];
    [| apply digits_no_underscore, str_of_nat_digits..].
  split; [by apply chars_inj | by apply str_of_nat_inj, chars_inj].
Qed.

End NumeralFacts.

Module UniqueNames.
Import UniqueFacts.

Lemma occurrences_app (x : string) (l1 l2 : list string) :
  occurrences x (l1 ++ l2) = (occurrences x l1 + occurrences x l2)%nat.
Proof. unfold occurrences. by rewrite List.filter_app, length_app. Qed.

Lemma occurrences_cons_same (x : string) (l : list string) :
  occurrences x (x :: l) = S (occurrences x l).
Proof. unfold occurrences. cbn. by rewrite bool_decide_true. Qed.

Lemma ensure_unique_length (labels : list string) :
  length (ensure_unique_tree_labels labels) = length labels.
Proof. apply fold_unique_state. Qed.

Lemma ensure_unique_lookup (labels : list string) (i : nat) (x : string) :
  labels !! i = Some x ->
  ensure_unique_tree_labels labels !! i
  = Some (name_after (occurrences x (take i labels)) x).
Proof.
  intros Hi. pose proof (take_drop_middle labels i x Hi) as E.
  assert (Hlen : length (take i labels) = i).
  { apply length_take_le. apply lookup_lt_Some in Hi. lia. }
  rewrite <- E at 1. rewrite <- Hlen at 1.
  rewrite ensure_unique_tree_labels_rule. unfold name_after. done.
Qed.

Lemma occurrences_take_lt (labels : list string) (i j : nat) (x : string) :
  (i < j)%nat -> labels !! i = Some x ->
  (occurrences x (take i labels) < occurrences x (take j labels))%nat.
Proof.
  intros Hij Hi.
  assert (E : take j labels = take i labels ++ x :: take (j - S i) (drop (S i) labels)).
  { rewrite <- (take_drop_middle labels i x Hi) at 1.
    assert (Hlen : length (take i labels) = i).
    { apply length_take_le. apply lookup_lt_Some in Hi. lia. }
    rewrite take_app_ge by lia. rewrite Hlen. f_equal.
    destruct (j - i)%nat as [|k] eqn:Ek; [lia|]. cbn. f_equal. f_equal. lia. }
  rewrite E, occurrences_app, occurrences_cons_same. lia.
Qed.

End UniqueNames.

Module LeafNames.
Import NumeralFacts UniqueNames.

Lemma ensure_unique_NoDup_id (labels : list string) :
  NoDup labels -> ensure_unique_tree_labels labels = labels.
Proof.
  intros Hnd. apply list_eq. intros i.
  destruct (labels !! i) as [x|] eqn:Hi.
  - rewrite (ensure_unique_lookup _ _ _ Hi). f_equal. unfold name_after.
    rewrite decide_True; [done|].
    destruct (occurrences x (take i labels)) eqn:Ho; [done|]. exfalso.
    assert (Hin : x ∈ take i labels) by (apply occurrences_pos; lia).
    apply list_elem_of_lookup in Hin as [j Hj].
    apply lookup_take_Some in Hj as [Hj Hlt].
    pose proof (NoDup_lookup _ _ _ _ Hnd Hi Hj). lia.
  - apply lookup_ge_None. rewrite ensure_unique_length. by apply lookup_ge_None.
Qed.

(** Two positions cannot receive the same name when no label is another
    label followed by an underscore and a number. *)
Lemma ensure_unique_clash (labels : list string) (i j : nat) (x y : string) :
  (forall a b n, a ∈ labels -> b ∈ labels -> a <> b +:+ "_" +:+ str_of_nat n) ->
  (i < j)%nat -> labels !! i = Some x -> labels !! j = Some y ->
  name_after (occurrences x (take i labels)) x
  <> name_after (occurrences y (take j labels)) y.
Proof.
  intros Hfree Hij Hi Hj.
  assert (Hx : x ∈ labels) by (by eapply list_elem_of_lookup_2).
  assert (Hy : y ∈ labels) by (by eapply list_elem_of_lookup_2).
  unfold name_after. repeat case_decide.
  - intros ->. pose proof (occurrences_take_lt labels i j y Hij Hi). lia.
  - by apply Hfree.
  - intros E. by eapply (Hfree y x).
  - intros [-> E]%suffixed_inj.
    pose proof (occurrences_take_lt labels i j y Hij Hi). lia.
Qed.

Lemma sanitize_word_name (x : string) : word_name (tree_label_sanitize x).
Proof.
  pose proof (SanitizeFacts.tree_label_sanitize_normal (list_ascii_of_string x))
    as [Hw Hne _ _ _].
  unfold word_name, tree_label_sanitize. rewrite on_chars_chars. split; [|done].
  intros E. apply (f_equal list_ascii_of_string) in E. by rewrite on_chars_chars in E.
Qed.

Lemma label_final_sanitized (x : string) :
  label_final_of (tree_label_sanitize x) = tree_label_sanitize x.
Proof.
  destruct (sanitize_word_name x) as [Hne Hw].
  apply chars_inj. unfold label_final_of. rewrite on_chars_chars.
  rewrite SanitizeFacts.delete_non_word_id by done.
  destruct (list_ascii_of_string (tree_label_sanitize x)) eqn:E; [|done].
  destruct Hne. by apply chars_inj.
Qed.

Lemma name_after_word (k : nat) (x : string) : word_name x -> word_name (name_after k x).
Proof.
  intros [Hne Hw]. unfold name_after. case_decide; [done|]. split.
  - intros E. apply (f_equal list_ascii_of_string) in E.
    rewrite chars_of_append in E. by destruct (list_ascii_of_string x).
  - rewrite !chars_of_append. apply Forall_app. split; [done|].
    apply Forall_app. split; [by repeat constructor|].
    eapply Forall_impl; [apply str_of_nat_digits | apply digit_word].
Qed.

Lemma ensure_unique_words (labels : list string) :
  Forall word_name labels -> Forall word_name (ensure_unique_tree_labels labels).
Proof.
  intros Hl. apply Forall_lookup. intros i y Hy.
  assert (Hlt : (i < length labels)%nat).
  { rewrite <- ensure_unique_length. by eapply lookup_lt_Some. }
  apply lookup_lt_is_Some in Hlt as [x Hx].
  rewrite (ensure_unique_lookup _ _ _ Hx) in Hy. injection Hy as <-.
  apply name_after_word. by eapply (Forall_lookup_1 _ _ _ _ Hl).
Qed.

Lemma terminal_name_word (code_to_taxon pref : gmap string string) (original : string) :
  map_Forall (fun _ v => word_name v) pref ->
  word_name (terminal_name code_to_taxon pref original).
Proof.
  intros Hp. unfold terminal_name.
  destruct (List.find _ _) as [tok|]; [|apply sanitize_word_name].
  destruct (pref !! tok) as [v|] eqn:E; [by eapply Hp | apply sanitize_word_name].
Qed.

Lemma output_rows_pref (labelkey_to_code : gmap string string) (lc ac : string)
    (extra_cols : list string) (rows : list (gmap string string))
    (pref : gmap string string) out_rows pref' :
  map_Forall (fun _ v => word_name v) pref ->
  output_rows labelkey_to_code lc ac extra_cols rows pref = inr (out_rows, pref') ->
  map_Forall (fun _ v => word_name v) pref'.
Proof.
  revert pref out_rows. induction rows as [|row rows IH]; intros pref out_rows Hp; cbn.
  - by intros [= _ <-].
  - destruct (output_row _ _ _ _ _ _) as [e|[out_row pref1]] eqn:E1; [done|].
    destruct (output_rows _ _ _ _ rows pref1) as [e|[out_rows1 pref2]] eqn:E2; [done|].
    intros [= _ <-]. eapply IH; [|exact E2].
    unfold output_row in E1. repeat case_match; try done; injection E1 as _ <-; [|done].
    apply map_Forall_insert_2; [|done].
    rewrite label_final_sanitized. apply sanitize_word_name.
Qed.

End LeafNames.

(** X3.  [rewrite_tree_labels] fails exactly on a tree without terminals.
    Otherwise it writes one name per terminal, and when the candidate names
    are pairwise distinct it writes them unchanged. *)
Theorem rewrite_tree_labels_shape (code_to_taxon code_to_preferred_label : gmap string string)
    (terminals : list string) :
  (rewrite_tree_labels code_to_taxon code_to_preferred_label terminals = inl NoTerminalNodes
   <-> terminals = [])
  /\ (forall names,
        rewrite_tree_labels code_to_taxon code_to_preferred_label terminals = inr names ->
        length names = length terminals
        /\ (NoDup (terminal_name code_to_taxon code_to_preferred_label <$> terminals) ->
            names = terminal_name code_to_taxon code_to_preferred_label <$> terminals)).
Proof.
  unfold rewrite_tree_labels. destruct terminals as [|t ts]; [done|]. split; [done|].
  intros names [= <-]. split.
  - rewrite UniqueNames.ensure_unique_length. cbn. by rewrite length_fmap.
  - apply LeafNames.ensure_unique_NoDup_id.
Qed.

(** X4.  When no candidate name is another candidate name followed by an
    underscore and a number, the names written by
    [ensure_unique_tree_labels] are pairwise distinct. *)
Theorem ensure_unique_tree_labels_distinct (labels : list string) :
  (forall a b n, a ∈ labels -> b ∈ labels -> a <> b +:+ "_" +:+ str_of_nat n) ->
  NoDup (ensure_unique_tree_labels labels).
Proof.
  intros Hfree. apply NoDup_alt. intros i j z Hi Hj.
  assert (Hi' : (i < length labels)%nat).
  { rewrite <- UniqueNames.ensure_unique_length. by eapply lookup_lt_Some. }
  assert (Hj' : (j < length labels)%nat).
  { rewrite <- UniqueNames.ensure_unique_length. by eapply lookup_lt_Some. }
  apply lookup_lt_is_Some in Hi' as [x Hx]. apply lookup_lt_is_Some in Hj' as [y Hy].
  rewrite (UniqueNames.ensure_unique_lookup _ _ _ Hx) in Hi.
  rewrite (UniqueNames.ensure_unique_lookup _ _ _ Hy) in Hj.
  destruct (Nat.lt_total i j) as [Hlt|[->|Hlt]]; [|done|].
  - exfalso. apply (LeafNames.ensure_unique_clash labels i j x y Hfree Hlt Hx Hy). congruence.
  - exfalso. apply (LeafNames.ensure_unique_clash labels j i y x Hfree Hlt Hy Hx). congruence.
Qed.

Lemma ensure_unique_tree_labels_distinct_witness :
  (forall a b n, a ∈ ["A"; "B"; "A"] -> b ∈ ["A"; "B"; "A"] -> a <> b +:+ "_" +:+ str_of_nat n)
  /\ NoDup (ensure_unique_tree_labels ["A"; "B"; "A"]).
Proof.
  assert (H : forall a b n, a ∈ ["A"; "B"; "A"] -> b ∈ ["A"; "B"; "A"] ->
                            a <> b +:+ "_" +:+ str_of_nat n).
  { intros a b n Ha Hb E. apply (f_equal String.length) in E.
    assert (Hlen : forall s, s ∈ ["A"; "B"; "A"] -> String.length s = 1%nat).
    { intros s Hs. repeat (apply elem_of_cons in Hs as [->|Hs]; [done|]).
      by apply not_elem_of_nil in Hs. }
    rewrite (Hlen a Ha) in E.
    assert (Happ : forall s t, String.length (s +:+ t) = (String.length s + String.length t)%nat).
    { intros s t. induction s as [|c s IH]; [done|].
      change (String c s +:+ t) with (String c (s +:+ t)). cbn. by rewrite IH. }
    rewrite !Happ, (Hlen b Hb) in E. cbn in E. lia. }
  split; [exact H|]. exact (ensure_unique_tree_labels_distinct _ H).
Defined.

(** X5.  With the preferred labels recorded by [build_output_metadata],
    every name [rewrite_tree_labels] writes to a terminal is a non-empty
    string over [[A-Za-z0-9_]]. *)
Theorem tree_names_are_words (meta : MetadataInput)
    (labelkey_to_code code_to_taxon : gmap string string) (terminals : list string)
    out_header out_types out_rows code_to_preferred_label names :
  build_output_metadata meta labelkey_to_code
  = inr (out_header, out_types, out_rows, code_to_preferred_label) ->
  rewrite_tree_labels code_to_taxon code_to_preferred_label terminals = inr names ->
  Forall word_name names.
Proof.
  intros Hb Hr.
  assert (Hp : map_Forall (fun _ v => word_name v) code_to_preferred_label).
  { unfold build_output_metadata in Hb.
    destruct (extra_types_of _ _ _) as [e|ts]; [done|].
    destruct (output_rows _ _ _ _ _ _) as [e|[rs pref]] eqn:E; [done|].
    injection Hb as _ _ _ <-. eapply LeafNames.output_rows_pref; [|exact E].
    apply map_Forall_empty. }
  assert (E : names = ensure_unique_tree_labels
                        (terminal_name code_to_taxon code_to_preferred_label <$> terminals)).
  { unfold rewrite_tree_labels in Hr. destruct terminals; [done|]. by injection Hr as <-. }
  subst names. apply LeafNames.ensure_unique_words.
  apply Forall_fmap, Forall_true. intros x. by apply LeafNames.terminal_name_word.
Qed.

Lemma tree_names_are_words_witness :
  build_output_metadata
    {| header := ["label"; "accession"]; types := ["character"; "character"];
       rows := [{[ "label" := "Homo sapiens"; "accession" := "GCF1" ]}];
       label_col := "label"; accession_col := "accession" |}
    {[ "Homosapiens" := "HOMSA" ]}
  = inr (["sample_id"; "label"; "source"], ["character"; "character"; "character"],
         [["GCF1"; "Homo_sapiens"; "Reference"]], {[ "HOMSA" := "Homo_sapiens" ]})
  /\ rewrite_tree_labels {[ "HOMSA" := "Homo sapiens" ]} {[ "HOMSA" := "Homo_sapiens" ]}
       ["HOMSA"; "reads_1"]
     = inr ["Homo_sapiens"; "reads"]
  /\ Forall word_name ["Homo_sapiens"; "reads"].
Proof.
  assert (H1 : build_output_metadata
    {| header := ["label"; "accession"]; types := ["character"; "character"];
       rows := [{[ "label" := "Homo sapiens"; "accession" := "GCF1" ]}];
       label_col := "label"; accession_col := "accession" |}
    {[ "Homosapiens" := "HOMSA" ]}
  = inr (["sample_id"; "label"; "source"], ["character"; "character"; "character"],
         [["GCF1"; "Homo_sapiens"; "Reference"]], {[ "HOMSA" := "Homo_sapiens" ]}))
    by (vm_compute; reflexivity).
  assert (H2 : rewrite_tree_labels {[ "HOMSA" := "Homo sapiens" ]}
                 {[ "HOMSA" := "Homo_sapiens" ]} ["HOMSA"; "reads_1"]
               = inr ["Homo_sapiens"; "reads"])
    by (vm_compute; reflexivity).
  split_and!; [exact H1 | exact H2 |].
  exact (tree_names_are_words _ _ _ _ _ _ _ _ _ H1 H2).
Defined.

(** ** Reference code index, strict loader *)

Module StrictFacts.
Import StrictIndex.

Lemma entries_of_cons (line : string) (rest : list string) :
  entries_of (line :: rest)
  = match read_line line with
    | Entry t c => (t, c) :: entries_of rest
    | _ => entries_of rest
    end.
Proof. unfold entries_of. cbn. by destruct (read_line line). Qed.

(** The strict loader succeeds exactly on a table without malformed
    line whose codes and comparison keys are new and pairwise distinct,
    and it then returns what the permissive loader returns. *)
Lemma load_from_spec (n : nat) (lines : list string)
    (m1 m2 : gmap string string) (seen : gset string) (m1' m2' : gmap string string) :
  load_from n lines m1 m2 seen = inr (m1', m2')
  <-> Forall (fun l => read_line l <> Malformed) lines
      /\ NoDup (entries_of lines).*2
      /\ (forall c, c ∈ (entries_of lines).*2 -> c ∉ seen)
      /\ NoDup (clean_alnum <$> (entries_of lines).*1)
      /\ (forall k, k ∈ clean_alnum <$> (entries_of lines).*1 -> m1 !! k = None)
      /\ load_five_letter_from n lines m1 m2 = inr (m1', m2').
Proof.
  revert n m1 m2 seen. induction lines as [|line rest IH]; intros n m1 m2 seen.
  - cbn [load_from load_five_letter_from].
    split; [intros [= <- <-] | by intros (_ & _ & _ & _ & _ & [= <- <-])].
    change (entries_of []) with (@nil (string * string)). cbn.
    split_and!; [constructor | constructor | | constructor | | done];
      intros ? H; by apply not_elem_of_nil in H.
  - cbn [load_from load_five_letter_from]. rewrite entries_of_cons, Forall_cons.
    destruct (read_line line) as [| |t c] eqn:E.
    + rewrite IH. split; intros H; repeat split; try apply H. done.
    + split; [done | by intros [[? _] _]].
    + cbn [fmap list_fmap fst snd]. rewrite !NoDup_cons.
      case_decide as Hc.
      { split; [done|]. intros (_ & _ & H & _). destruct (H c); [left | done]. }
      destruct (m1 !! clean_alnum t) as [c0|] eqn:Hk.
      { split; [done|]. intros (_ & _ & _ & _ & H & _).
        rewrite (H (clean_alnum t)) in Hk; [done | left]. }
      rewrite IH. split.
      * intros (Hwf & Hnd & Hseen & Hndk & Hkeys & Hload). split_and!; try done.
        -- intros Hin. apply (Hseen c Hin). by apply elem_of_union_l, elem_of_singleton.
        -- intros c' [->|Hin]%elem_of_cons; [done|].
           intros Hs. apply (Hseen c' Hin). by apply elem_of_union_r.
        -- intros Hin. specialize (Hkeys _ Hin). by rewrite lookup_insert_eq in Hkeys.
        -- intros k [->|Hin]%elem_of_cons; [done|].
           specialize (Hkeys _ Hin). apply lookup_insert_None in Hkeys. apply Hkeys.
      * intros ([_ Hwf] & [Hc' Hnd] & Hseen & [Hk' Hndk] & Hkeys & Hload).
        split_and!; try done.
        -- intros c' Hin [->%elem_of_singleton|Hs]%elem_of_union; [done|].
           apply (Hseen c'); [by right | done].
        -- intros k Hin. apply lookup_insert_None. split; [apply Hkeys; by right|].
           by intros <-.
Qed.

(** The dictionaries of a successful strict load hold the entries of
    the table and what they held before. *)
Lemma load_from_maps (n : nat) (lines : list string)
    (m1 m2 : gmap string string) (seen : gset string) (m1' m2' : gmap string string) :
  (forall c, is_Some (m2 !! c) -> c ∈ seen) ->
  load_from n lines m1 m2 seen = inr (m1', m2') ->
  (forall k c, m1' !! k = Some c
               <-> m1 !! k = Some c
                   \/ exists t, (t, c) ∈ entries_of lines /\ clean_alnum t = k)
  /\ (forall c t, m2' !! c = Some t <-> m2 !! c = Some t \/ (t, c) ∈ entries_of lines).
Proof.
  revert n m1 m2 seen. induction lines as [|line rest IH]; intros n m1 m2 seen Hs.
  - cbn. intros [= <- <-]. split.
    + intros k c. split; [by left|]. intros [H|(t & H & _)]; [done|].
      by apply not_elem_of_nil in H.
    + intros c t. split; [by left|]. intros [H|H]; [done|]. by apply not_elem_of_nil in H.
  - cbn [load_from]. rewrite entries_of_cons.
    destruct (read_line line) as [| |t c] eqn:E; [by apply IH|done|].
    case_decide as Hc; [done|].
    destruct (m1 !! clean_alnum t) as [c0|] eqn:Hk; [done|].
    assert (Hm2 : m2 !! c = None).
    { destruct (m2 !! c) eqn:E2; [|done]. destruct Hc. apply Hs. by rewrite E2. }
    intros Hload. apply IH in Hload as [H1 H2].
    2:{ intros c' [x Hx]. apply lookup_insert_Some in Hx as [[<- _]|[_ Hx]];
          [by apply elem_of_union_l, elem_of_singleton|].
        apply elem_of_union_r, Hs. by rewrite Hx. }
    split.
    + intros k c'. rewrite H1, lookup_insert_Some. split.
      * intros [[[<- <-]|[_ H]]|(t' & Hin & Ht')]; [right | by left | right].
        -- exists t. split; [left | done].
        -- exists t'. split; [by right | done].
      * intros [H|(t' & [[= -> ->]|Hin]%elem_of_cons & Ht')].
        -- left. right. split; [|done]. intros <-. congruence.
        -- left. left. done.
        -- right. eauto.
    + intros c' t'. rewrite H2, lookup_insert_Some. split.
      * intros [[[<- <-]|[_ H]]|Hin]; [right; left | by left | right; by right].
      * intros [H|[[= -> ->]|Hin]%elem_of_cons].
        -- left. right. split; [|done]. intros <-. congruence.
        -- left. by left.
        -- by right.
Qed.

(** The two permissive loaders agree but for the empty key, which
    [load_five_letter_codes] leaves out. *)
Lemma permissive_agree (n : nat) (lines : list string)
    (m1 m2 m1' m2' : gmap string string) :
  load_five_letter_from n lines m1 m2 = inr (m1', m2') ->
  fold_left load_codes_step lines (delete "" m1) = delete "" m1'.
Proof.
  revert n m1 m2. induction lines as [|line rest IH]; intros n m1 m2.
  - cbn. by intros [= <- _].
  - cbn [load_five_letter_from fold_left]. unfold load_codes_step at 2.
    destruct (read_line line) as [| |t c] eqn:E; [apply IH | done |].
    intros Hload. apply IH in Hload. rewrite <- Hload. f_equal.
    case_bool_decide as Hk.
    + rewrite Hk. by rewrite delete_insert_eq.
    + by rewrite delete_insert_ne.
Qed.

End StrictFacts.

(** X6.  After a successful strict load the two dictionaries hold exactly
    the entries of the table: a code is bound to the taxon of its line, a
    comparison key to the code of the line whose taxon has that key; so
    each dictionary can be read back through the other. *)
Theorem strict_index_entries (lines : list string) (labelkey_to_code code_to_taxon : gmap string string) :
  StrictIndex.load_five_letter lines = inr (labelkey_to_code, code_to_taxon) ->
  (forall code taxon, code_to_taxon !! code = Some taxon <-> (taxon, code) ∈ entries_of lines)
  /\ (forall key code,
        labelkey_to_code !! key = Some code
        <-> exists taxon, (taxon, code) ∈ entries_of lines /\ clean_alnum taxon = key)
  /\ (forall key code,
        labelkey_to_code !! key = Some code ->
        exists taxon, code_to_taxon !! code = Some taxon /\ clean_alnum taxon = key)
  /\ (forall code taxon,
        code_to_taxon !! code = Some taxon -> labelkey_to_code !! clean_alnum taxon = Some code).
Proof.
  intros Hload. apply StrictFacts.load_from_maps in Hload as [H1 H2].
  2:{ intros c [x Hx]. by rewrite lookup_empty in Hx. }
  assert (K2 : forall code taxon,
             code_to_taxon !! code = Some taxon <-> (taxon, code) ∈ entries_of lines).
  { intros c t. rewrite H2, lookup_empty. split; [by intros [?|?] | by right]. }
  assert (K1 : forall key code,
             labelkey_to_code !! key = Some code
             <-> exists taxon, (taxon, code) ∈ entries_of lines /\ clean_alnum taxon = key).
  { intros k c. rewrite H1, lookup_empty. split; [by intros [?|?] | by right]. }
  split_and!; [done | done | |].
  - intros k c (t & Hin & Hk)%K1. exists t. split; [by apply K2 | done].
  - intros c t Hin%K2. apply K1. eauto.
Qed.

Lemma strict_index_entries_witness :
  StrictIndex.load_five_letter [tsv_line "Homo sapiens" "HOMSA"; "# reference taxa"]
  = inr ({[ "Homosapiens" := "HOMSA" ]}, {[ "HOMSA" := "Homo sapiens" ]})
  /\ ({[ "HOMSA" := "Homo sapiens" ]} : gmap string string) !! "HOMSA" = Some "Homo sapiens"
  /\ ("Homo sapiens", "HOMSA") ∈ entries_of [tsv_line "Homo sapiens" "HOMSA"; "# reference taxa"].
Proof.
  assert (H : StrictIndex.load_five_letter [tsv_line "Homo sapiens" "HOMSA"; "# reference taxa"]
              = inr ({[ "Homosapiens" := "HOMSA" ]}, {[ "HOMSA" := "Homo sapiens" ]}))
    by (vm_compute; reflexivity).
  split; [exact H|].
  destruct (strict_index_entries _ _ _ H) as (K & _).
  split; [reflexivity|]. apply K. reflexivity.
Defined.

(** X7.  The strict loader succeeds exactly when no line of the table is
    malformed, no code occurs twice and no two taxa have the same
    comparison key. *)
Theorem strict_index_succeeds_iff (lines : list string) :
  (exists labelkey_to_code code_to_taxon,
     StrictIndex.load_five_letter lines = inr (labelkey_to_code, code_to_taxon))
  <-> Forall (fun l => read_line l <> Malformed) lines
      /\ NoDup (entries_of lines).*2
      /\ NoDup (clean_alnum <$> (entries_of lines).*1).
Proof.
  unfold StrictIndex.load_five_letter. split.
  - intros (m1 & m2 & H). apply StrictFacts.load_from_spec in H. tauto.
  - intros (Hwf & Hc & Hk).
    destruct (LoaderFacts.load_from_keeps 1 lines ∅ ∅ Hwf) as (m1 & m2 & E & _).
    exists m1, m2. apply StrictFacts.load_from_spec. split_and!; done.
Qed.

(** X8.  On a table that the strict loader accepts, the permissive loader
    of prepare_metadata_o2t_view.py returns the same two dictionaries; and
    whenever that permissive loader succeeds, [load_five_letter_codes]
    returns its first dictionary without the empty key. *)
Theorem loaders_agree (lines : list string) (labelkey_to_code code_to_taxon : gmap string string) :
  (StrictIndex.load_five_letter lines = inr (labelkey_to_code, code_to_taxon) ->
   load_five_letter lines = inr (labelkey_to_code, code_to_taxon))
  /\ (load_five_letter lines = inr (labelkey_to_code, code_to_taxon) ->
      load_five_letter_codes lines = delete "" labelkey_to_code).
Proof.
  split.
  - intros H. apply StrictFacts.load_from_spec in H. apply H.
  - intros H. apply StrictFacts.permissive_agree in H.
    by rewrite delete_empty in H.
Qed.

(** ** Checks on a parsed table *)

Module CheckFacts.

Lemma column_values_cons (col : string) (row : gmap string string)
    (rest : list (gmap string string)) (vs : list string) :
  column_values col (row :: rest) = inr vs
  <-> exists v vs', vs = v :: vs' /\ row !! col = Some v /\ column_values col rest = inr vs'.
Proof.
  cbn. unfold row_getitem. destruct (row !! col) as [v|].
  - destruct (column_values col rest) as [e|vs'].
    + split; [done | by intros (? & ? & _ & _ & ?)].
    + split.
      * intros [= <-]. eauto.
      * by intros (? & ? & -> & [= <-] & [= <-]).
  - split; [done | by intros (? & ? & _ & ? & _)].
Qed.

Lemma column_values_length (col : string) (rows : list (gmap string string))
    (vs : list string) :
  column_values col rows = inr vs -> length vs = length rows.
Proof.
  revert vs. induction rows as [|row rest IH]; intros vs.
  - by intros [= <-].
  - intros (v & vs' & -> & _ & H)%column_values_cons. cbn. f_equal. by apply IH.
Qed.

Lemma missing_refs_of_spec (l2c c2t : gmap string string) (ks ts : list string) :
  missing_refs_of l2c c2t ks = inr ts ->
  Forall2 (fun k t => exists c, l2c !! k = Some c /\ c2t !! c = Some t) ks ts.
Proof.
  revert ts. induction ks as [|k ks IH]; intros ts; cbn.
  - intros [= <-]. constructor.
  - destruct (l2c !! k) as [c|] eqn:E1; [|done].
    destruct (c2t !! c) as [t|] eqn:E2; [|done].
    destruct (missing_refs_of l2c c2t ks) as [e|ts']; [done|].
    intros [= <-]. constructor; eauto.
Qed.

Lemma missing_refs_of_error (l2c c2t : gmap string string) (ks : list string)
    (e : validation_error) :
  missing_refs_of l2c c2t ks = inl e -> exists k, e = KeyError k.
Proof.
  induction ks as [|k ks IH]; cbn; [done|].
  destruct (l2c !! k) as [c|]; [|intros [= <-]; eauto].
  destruct (c2t !! c) as [t|]; [|intros [= <-]; eauto].
  destruct (missing_refs_of l2c c2t ks) as [e'|ts']; [|done].
  intros [= <-]. by apply IH.
Qed.

Lemma missing_keys_elem_of (l2c : gmap string string) (labels : list string) (k : string) :
  k ∈ sort_by String.leb
        (elements (dom l2c ∖ (list_to_set (clean_alnum <$> labels) : gset string)))
  <-> is_Some (l2c !! k) /\ k ∉ clean_alnum <$> labels.
Proof.
  rewrite sort_by_elem_of, elem_of_elements, elem_of_difference, elem_of_dom,
    elem_of_list_to_set. done.
Qed.

(** *** The loop of [validate_output_constraints] *)

Lemma constraint_step_ok (l2c : gmap string string) (lc ac : string)
    (st : constraint_state) (row : gmap string string) (l a : string) :
  row !! lc = Some l -> row !! ac = Some a ->
  l ∉ seen_raw_labels st -> a ∉ seen_sample_ids st ->
  seen_label_keys st !! collision_key_of l = None ->
  exists st1,
    constraint_step l2c lc ac st row = inr st1
    /\ seen_raw_labels st1 = {[l]} ∪ seen_raw_labels st
    /\ seen_sample_ids st1 = {[a]} ∪ seen_sample_ids st
    /\ seen_label_keys st1 = <[collision_key_of l := l]> (seen_label_keys st)
    /\ (ref_count st1 + read_count st1 = S (ref_count st + read_count st))%nat.
Proof.
  intros Hl Ha Nl Na Nk. unfold constraint_step, row_getitem.
  rewrite Hl, Ha, decide_False, decide_False, Nk by done.
  eexists. split; [done|]. cbn. split_and!; [done..|].
  destruct (bool_decide _); lia.
Qed.

Lemma constraint_step_fail (l2c : gmap string string) (lc ac : string)
    (st : constraint_state) (row : gmap string string) (l a : string) :
  row !! lc = Some l -> row !! ac = Some a ->
  l ∈ seen_raw_labels st \/ a ∈ seen_sample_ids st
  \/ is_Some (seen_label_keys st !! collision_key_of l) ->
  exists e, constraint_step l2c lc ac st row = inl e.
Proof.
  intros Hl Ha H. unfold constraint_step, row_getitem. rewrite Hl, Ha.
  case_decide; [eauto|]. case_decide; [eauto|].
  destruct (seen_label_keys st !! collision_key_of l) eqn:E; [eauto|].
  destruct H as [?|[?|[? ?]]]; done.
Qed.

Lemma admissible_cons (st st1 : constraint_state) (l a : string)
    (labels accessions : list string) :
  seen_raw_labels st1 = {[l]} ∪ seen_raw_labels st ->
  seen_sample_ids st1 = {[a]} ∪ seen_sample_ids st ->
  seen_label_keys st1 = <[collision_key_of l := l]> (seen_label_keys st) ->
  admissible st (l :: labels) (a :: accessions)
  <-> ((l ∉ seen_raw_labels st) /\ (a ∉ seen_sample_ids st)
       /\ seen_label_keys st !! collision_key_of l = None)
      /\ admissible st1 labels accessions.
Proof.
  intros E1 E2 E3. unfold admissible. rewrite E1, E2, E3. cbn [fmap list_fmap].
  rewrite !NoDup_cons. split.
  - intros ([Hl Hls] & Hsl & [Ha Has] & Hsa & [Hk Hks] & Hsk).
    split; [split_and!; [apply Hsl | apply Hsa | apply Hsk]; left|].
    split_and!; try done.
    + intros l' Hin [->%elem_of_singleton|H]%elem_of_union; [done|].
      apply (Hsl l'); [by right | done].
    + intros a' Hin [->%elem_of_singleton|H]%elem_of_union; [done|].
      apply (Hsa a'); [by right | done].
    + intros l' Hin. apply lookup_insert_None. split; [apply Hsk; by right|].
      intros E. apply Hk. rewrite E. by apply list_elem_of_fmap_2.
  - intros ((Nl & Na & Nk) & Hls & Hsl & Has & Hsa & Hks & Hsk).
    split_and!; try done.
    + intros Hin. apply (Hsl l Hin). by apply elem_of_union_l, elem_of_singleton.
    + intros l' [->|Hin]%elem_of_cons; [done|].
      intros H. apply (Hsl l' Hin). by apply elem_of_union_r.
    + intros Hin. apply (Hsa a Hin). by apply elem_of_union_l, elem_of_singleton.
    + intros a' [->|Hin]%elem_of_cons; [done|].
      intros H. apply (Hsa a' Hin). by apply elem_of_union_r.
    + intros (l' & E & Hin)%list_elem_of_fmap.
      specialize (Hsk l' Hin). rewrite <- E, lookup_insert_eq in Hsk. done.
    + intros l' [->|Hin]%elem_of_cons; [done|].
      specialize (Hsk l' Hin). apply lookup_insert_None in Hsk. apply Hsk.
Qed.

(** The loop succeeds exactly on admissible rows, and then it has
    counted every row once. *)
Lemma constraint_loop_spec (l2c : gmap string string) (lc ac : string)
    (rows : list (gmap string string)) (st : constraint_state)
    (labels accessions : list string) :
  column_values lc rows = inr labels ->
  column_values ac rows = inr accessions ->
  ((exists st', constraint_loop l2c lc ac st rows = inr st')
   <-> admissible st labels accessions)
  /\ (forall st', constraint_loop l2c lc ac st rows = inr st' ->
                  (ref_count st' + read_count st'
                   = ref_count st + read_count st + length rows)%nat).
Proof.
  revert st labels accessions.
  induction rows as [|row rest IH]; intros st labels accessions.
  - intros [= <-] [= <-]. cbn. split.
    + split; [intros _ | eauto].
      unfold admissible. cbn. split_and!; try constructor;
        intros ? H; by apply not_elem_of_nil in H.
    + intros st' [= <-]. lia.
  - intros (l & ls & -> & Hl & Hls)%column_values_cons
           (a & accs & -> & Ha & Has)%column_values_cons.
    cbn [constraint_loop length].
    destruct (decide (l ∈ seen_raw_labels st)) as [Dl|Nl].
    { destruct (constraint_step_fail l2c lc ac st row l a Hl Ha) as [e ->]; [by left|].
      split; [|done]. split; [by intros [? ?]|].
      intros (_ & H & _). destruct (H l); [left | done]. }
    destruct (decide (a ∈ seen_sample_ids st)) as [Da|Na].
    { destruct (constraint_step_fail l2c lc ac st row l a Hl Ha) as [e ->];
        [right; by left|].
      split; [|done]. split; [by intros [? ?]|].
      intros (_ & _ & _ & H & _). destruct (H a); [left | done]. }
    destruct (seen_label_keys st !! collision_key_of l) as [other|] eqn:Nk.
    { destruct (constraint_step_fail l2c lc ac st row l a Hl Ha) as [e ->];
        [right; right; by rewrite Nk|].
      split; [|done]. split; [by intros [? ?]|].
      intros (_ & _ & _ & _ & _ & H). rewrite (H l) in Nk; [done | left]. }
    destruct (constraint_step_ok l2c lc ac st row l a Hl Ha Nl Na Nk)
      as (st1 & -> & E1 & E2 & E3 & Ecount).
    destruct (IH st1 ls accs Hls Has) as [IH1 IH2]. split.
    + rewrite IH1, (admissible_cons st st1 l a ls accs E1 E2 E3). tauto.
    + intros st' H. rewrite (IH2 st' H). lia.
Qed.

Lemma constraint_loop_counts (l2c : gmap string string) (lc ac : string)
    (rows : list (gmap string string)) (st st' : constraint_state)
    (labels : list string) :
  column_values lc rows = inr labels ->
  constraint_loop l2c lc ac st rows = inr st' ->
  ref_count st'
  = (ref_count st + length (filter (fun l => is_Some (l2c !! clean_alnum l)) labels))%nat
  /\ read_count st'
     = (read_count st + length (filter (fun l => l2c !! clean_alnum l = None) labels))%nat.
Proof.
  revert st labels. induction rows as [|row rest IH]; intros st labels.
  - intros [= <-] [= <-]. cbn. lia.
  - intros (l & ls & -> & Hl & Hls)%column_values_cons. cbn [constraint_loop].
    destruct (constraint_step l2c lc ac st row) as [e|st1] eqn:E; [done|].
    intros H. destruct (IH st1 ls Hls H) as [-> ->]. clear IH H.
    unfold constraint_step, row_getitem in E. rewrite Hl in E.
    destruct (row !! ac) as [a|]; [|done].
    repeat case_decide; try done.
    destruct (seen_label_keys st !! collision_key_of l); [done|].
    injection E as <-. cbn [ref_count read_count]. rewrite !filter_cons.
    destruct (l2c !! clean_alnum l) as [c|] eqn:El.
    + rewrite bool_decide_eq_true_2 by eauto.
      rewrite decide_True by eauto. rewrite decide_False by done. cbn. lia.
    + rewrite bool_decide_eq_false_2 by (by intros [? ?]).
      rewrite decide_False by (by intros [? ?]). rewrite decide_True by done. cbn. lia.
Qed.

End CheckFacts.

(** X9.  On a table whose rows all have the label column,
    [validate_reference_coverage] succeeds exactly when the comparison key of
    every reference is the comparison key of some label; and when it reports
    missing references, it names exactly the taxa of the references whose key
    no label has. *)
Theorem validate_reference_coverage_spec (meta : MetadataInput)
    (labelkey_to_code code_to_taxon : gmap string string) (labels : list string) :
  column_values (label_col meta) (rows meta) = inr labels ->
  (validate_reference_coverage meta labelkey_to_code code_to_taxon = inr tt
   <-> forall key, is_Some (labelkey_to_code !! key) -> key ∈ clean_alnum <$> labels)
  /\ (forall missing_refs,
        validate_reference_coverage meta labelkey_to_code code_to_taxon
        = inl (MissingReferences missing_refs) ->
        forall taxon,
          taxon ∈ missing_refs
          <-> exists key code,
                labelkey_to_code !! key = Some code
                /\ code_to_taxon !! code = Some taxon
                /\ key ∉ clean_alnum <$> labels).
Proof.
  intros Hcol. unfold validate_reference_coverage. rewrite Hcol.
  pose proof (CheckFacts.missing_keys_elem_of labelkey_to_code labels) as Hks.
  cbv zeta. destruct (sort_by String.leb _) as [|k ks].
  - split; [|done]. split; [|done]. intros _ key Hkey.
    destruct (decide (key ∈ clean_alnum <$> labels)) as [|Hn]; [done|].
    exfalso. apply (not_elem_of_nil key). by apply Hks.
  - split.
    + split.
      * by destruct (missing_refs_of _ _ _).
      * intros Hall. assert (Hk : k ∈ k :: ks) by left.
        apply Hks in Hk as [Hk Hn].
        destruct Hn. by apply Hall.
    + intros refs Hres.
      destruct (missing_refs_of _ _ (k :: ks)) as [e|ts] eqn:Em.
      { apply CheckFacts.missing_refs_of_error in Em as [k' ->]. done. }
      injection Hres as <-. apply CheckFacts.missing_refs_of_spec in Em.
      intros t. split.
      * intros [i Hi]%list_elem_of_lookup.
        destruct (Forall2_lookup_r _ _ _ _ _ Em Hi) as (k' & Hk' & c & Hc & Ht).
        exists k', c. split_and!; [done..|].
        apply (Hks k'). by eapply list_elem_of_lookup_2.
      * intros (k' & c & Hc & Ht & Hn).
        assert (Hin : k' ∈ k :: ks) by (apply Hks; eauto).
        apply list_elem_of_lookup in Hin as [i Hi].
        destruct (Forall2_lookup_l _ _ _ _ _ Em Hi) as (t' & Ht' & c' & Hc' & Ht'').
        assert (c' = c) as -> by congruence. assert (t' = t) as -> by congruence.
        by eapply list_elem_of_lookup_2.
Qed.

Lemma validate_reference_coverage_spec_witness :
  column_values "label"
    [({[ "label" := "Homo sapiens"; "accession" := "GCF1" ]} : gmap string string)]
  = inr ["Homo sapiens"]
  /\ (validate_reference_coverage
        {| header := ["label"; "accession"]; types := ["character"; "character"];
           rows := [{[ "label" := "Homo sapiens"; "accession" := "GCF1" ]}];
           label_col := "label"; accession_col := "accession" |}
        {[ "Homosapiens" := "HOMSA" ]} {[ "HOMSA" := "Homo sapiens" ]} = inr tt
      <-> forall key,
            is_Some (({[ "Homosapiens" := "HOMSA" ]} : gmap string string) !! key) ->
            key ∈ clean_alnum <$> ["Homo sapiens"]).
Proof.
  assert (H : column_values "label"
                [({[ "label" := "Homo sapiens"; "accession" := "GCF1" ]} : gmap string string)]
              = inr ["Homo sapiens"]) by (vm_compute; reflexivity).
  split; [exact H|].
  exact (proj1 (validate_reference_coverage_spec
    {| header := ["label"; "accession"]; types := ["character"; "character"];
       rows := [{[ "label" := "Homo sapiens"; "accession" := "GCF1" ]}];
       label_col := "label"; accession_col := "accession" |}
    {[ "Homosapiens" := "HOMSA" ]} {[ "HOMSA" := "Homo sapiens" ]} ["Homo sapiens"] H)).
Defined.

(** X10.  On a table whose rows all have the label column,
    [validate_readset_presence] succeeds exactly when every readset name is
    the label of some row, compared as written; and when it reports missing
    readsets, it names exactly the readset names that are no label. *)
Theorem validate_readset_presence_spec (meta : MetadataInput)
    (readset_names labels : list string) :
  column_values (label_col meta) (rows meta) = inr labels ->
  (validate_readset_presence meta readset_names = inr tt
   <-> forall name, name ∈ readset_names -> name ∈ labels)
  /\ (forall missing,
        validate_readset_presence meta readset_names = inl (MissingReadsets missing) ->
        forall name, name ∈ missing <-> name ∈ readset_names /\ name ∉ labels).
Proof.
  intros Hcol. unfold validate_readset_presence. rewrite Hcol.
  assert (Hf : forall name,
             name ∈ List.filter (fun name => negb (bool_decide (name ∈ labels))) readset_names
             <-> name ∈ readset_names /\ name ∉ labels).
  { intros name. by rewrite list_filter_elem_of, negb_true_iff, bool_decide_eq_false. }
  destruct (List.filter _ readset_names) as [|m ms].
  - split; [|done]. split; [|done]. intros _ name Hin.
    destruct (decide (name ∈ labels)) as [|Hn]; [done|].
    exfalso. apply (not_elem_of_nil name). by apply Hf.
  - split.
    + split; [done|]. intros Hall.
      assert (Hm : m ∈ m :: ms) by left.
      apply Hf in Hm as [Hin Hn]. destruct Hn. by apply Hall.
    + intros missing [= <-]. exact Hf.
Qed.

Lemma validate_readset_presence_spec_witness :
  column_values "label"
    [({[ "label" := "reads_A"; "accession" := "SRR1" ]} : gmap string string)]
  = inr ["reads_A"]
  /\ (validate_readset_presence
        {| header := ["label"; "accession"]; types := ["character"; "character"];
           rows := [{[ "label" := "reads_A"; "accession" := "SRR1" ]}];
           label_col := "label"; accession_col := "accession" |}
        ["reads_A"] = inr tt
      <-> forall name, name ∈ ["reads_A"] -> name ∈ ["reads_A"]).
Proof.
  assert (H : column_values "label"
                [({[ "label" := "reads_A"; "accession" := "SRR1" ]} : gmap string string)]
              = inr ["reads_A"]) by (vm_compute; reflexivity).
  split; [exact H|].
  exact (proj1 (validate_readset_presence_spec
    {| header := ["label"; "accession"]; types := ["character"; "character"];
       rows := [{[ "label" := "reads_A"; "accession" := "SRR1" ]}];
       label_col := "label"; accession_col := "accession" |}
    ["reads_A"] ["reads_A"] H)).
Defined.

(** X11.  On a table whose rows all have the label and accession columns,
    [validate_output_constraints] succeeds exactly when the labels are
    pairwise distinct, the accessions are pairwise distinct and the collision
    keys of the labels are pairwise distinct.  The two counts it logs are
    the numbers of labels whose comparison key is, and is not, a key of the
    reference index; they add up to the number of rows. *)
Theorem validate_output_constraints_spec (meta : MetadataInput)
    (labelkey_to_code : gmap string string) (labels accessions : list string) :
  column_values (label_col meta) (rows meta) = inr labels ->
  column_values (accession_col meta) (rows meta) = inr accessions ->
  ((exists counts, validate_output_constraints meta labelkey_to_code = inr counts)
   <-> NoDup labels /\ NoDup accessions /\ NoDup (collision_key_of <$> labels))
  /\ (forall ref_count read_count,
        validate_output_constraints meta labelkey_to_code = inr (ref_count, read_count) ->
        ref_count
        = length (filter (fun l => is_Some (labelkey_to_code !! clean_alnum l)) labels)
        /\ read_count
           = length (filter (fun l => labelkey_to_code !! clean_alnum l = None) labels)
        /\ (ref_count + read_count)%nat = length (rows meta)).
Proof.
  intros Hl Ha. unfold validate_output_constraints.
  destruct (CheckFacts.constraint_loop_spec labelkey_to_code (label_col meta)
              (accession_col meta) (rows meta) constraint_start labels accessions Hl Ha)
    as [Hiff Hsum].
  assert (Hadm : admissible constraint_start labels accessions
                 <-> NoDup labels /\ NoDup accessions /\ NoDup (collision_key_of <$> labels)).
  { unfold admissible, constraint_start. cbn. split; [tauto|].
    intros (? & ? & ?). split_and!; try done; intros ? _; apply not_elem_of_empty. }
  rewrite <- Hadm, <- Hiff. clear Hadm Hiff.
  destruct (constraint_loop _ _ _ _ _) as [e|st] eqn:E.
  - split; [|done]. split; by intros [? ?].
  - split; [split; eauto|]. intros r d [= <- <-].
    specialize (Hsum st eq_refl).
    destruct (CheckFacts.constraint_loop_counts _ _ _ _ _ _ _ Hl E) as [E1 E2].
    cbn in *. split_and!; [done | done | lia].
Qed.

Lemma validate_output_constraints_spec_witness :
  column_values "label"
    [({[ "label" := "Homo sapiens"; "accession" := "GCF1" ]} : gmap string string);
     {[ "label" := "reads_A"; "accession" := "SRR1" ]}]
  = inr ["Homo sapiens"; "reads_A"]
  /\ column_values "accession"
       [({[ "label" := "Homo sapiens"; "accession" := "GCF1" ]} : gmap string string);
        {[ "label" := "reads_A"; "accession" := "SRR1" ]}]
     = inr ["GCF1"; "SRR1"]
  /\ ((exists counts,
         validate_output_constraints
           {| header := ["label"; "accession"]; types := ["character"; "character"];
              rows := [{[ "label" := "Homo sapiens"; "accession" := "GCF1" ]};
                       {[ "label" := "reads_A"; "accession" := "SRR1" ]}];
              label_col := "label"; accession_col := "accession" |}
           {[ "Homosapiens" := "HOMSA" ]} = inr counts)
      <-> NoDup ["Homo sapiens"; "reads_A"] /\ NoDup ["GCF1"; "SRR1"]
          /\ NoDup (collision_key_of <$> ["Homo sapiens"; "reads_A"])).
Proof.
  assert (H1 : column_values "label"
    [({[ "label" := "Homo sapiens"; "accession" := "GCF1" ]} : gmap string string);
     {[ "label" := "reads_A"; "accession" := "SRR1" ]}]
    = inr ["Homo sapiens"; "reads_A"]) by (vm_compute; reflexivity).
  assert (H2 : column_values "accession"
    [({[ "label" := "Homo sapiens"; "accession" := "GCF1" ]} : gmap string string);
     {[ "label" := "reads_A"; "accession" := "SRR1" ]}]
    = inr ["GCF1"; "SRR1"]) by (vm_compute; reflexivity).
  split_and!; [exact H1 | exact H2 |].
  exact (proj1 (validate_output_constraints_spec
    {| header := ["label"; "accession"]; types := ["character"; "character"];
       rows := [{[ "label" := "Homo sapiens"; "accession" := "GCF1" ]};
                {[ "label" := "reads_A"; "accession" := "SRR1" ]}];
       label_col := "label"; accession_col := "accession" |}
    {[ "Homosapiens" := "HOMSA" ]} ["Homo sapiens"; "reads_A"] ["GCF1"; "SRR1"] H1 H2)).
Defined.

(** ** From the parsed table to the output table *)

Module TableFacts.

Lemma lower_map_fold (header : list string) (m : gmap string string) (k col : string) :
  fold_left (fun m col => <[lower col := col]> m) header m !! k = Some col ->
  (col ∈ header /\ lower col = k) \/ m !! k = Some col.
Proof.
  revert m. induction header as [|h hs IH]; intros m; cbn; [by right|].
  intros [[Hin Hl]|H]%IH.
  - left. split; [by right | done].
  - destruct (decide (lower h = k)) as [<-|Hne].
    + rewrite lookup_insert_eq in H. injection H as <-. left. split; [left | done].
    + rewrite lookup_insert_ne in H by done. by right.
Qed.

Lemma lower_map_lookup (header : list string) (k col : string) :
  lower_map header !! k = Some col -> col ∈ header /\ lower col = k.
Proof.
  unfold lower_map. intros [?|H]%lower_map_fold; [done|]. by rewrite lookup_empty in H.
Qed.

Lemma find_required_inr (header : list string) (lc ac : string) :
  find_required header = inr (lc, ac) ->
  (lc ∈ header /\ lower lc = "label") /\ (ac ∈ header /\ lower ac = "accession").
Proof.
  unfold find_required.
  destruct (lower_map header !! "label") as [l|] eqn:El; [|done].
  destruct (lower_map header !! "accession") as [a|] eqn:Ea; [|done].
  intros [= <- <-]. split; by apply lower_map_lookup.
Qed.

Lemma fold_dict_is_Some (hs cs : list string) (m : gmap string string) (k : string) :
  (length hs <= length cs)%nat ->
  is_Some (fold_left (fun m kv => <[kv.1 := strip kv.2]> m) (zip hs cs) m !! k)
  <-> k ∈ hs \/ is_Some (m !! k).
Proof.
  revert cs m. induction hs as [|h hs IH]; intros cs m Hlen.
  - cbn. rewrite elem_of_nil. tauto.
  - destruct cs as [|c cs]; [cbn in Hlen; lia|]. cbn in Hlen |- *.
    rewrite IH by lia. rewrite elem_of_cons. cbn.
    destruct (decide (k = h)) as [->|Hne].
    + rewrite lookup_insert_eq. split; [intros _; by left; left | intros _; right; eauto].
    + rewrite lookup_insert_ne by done. tauto.
Qed.

Lemma row_dict_dom (header raw : list string) (k : string) :
  (length raw <= length header)%nat ->
  is_Some (row_dict header (pad_row (length header) raw) !! k) <-> k ∈ header.
Proof.
  intros Hlen. unfold row_dict. rewrite fold_dict_is_Some.
  - rewrite lookup_empty. split; [by intros [?|[? ?]] | by left].
  - unfold pad_row. rewrite length_app, length_replicate. lia.
Qed.

(** *** Rows kept by the parsers *)

Lemma prepare_rows_dom (header : list string) (i : nat) (data : list (list string))
    (rows : list (gmap string string)) :
  Prepare.parse_rows header i data = inr rows ->
  Forall (fun row => forall k, is_Some (row !! k) <-> k ∈ header) rows.
Proof.
  revert i rows. induction data as [|raw data IH]; intros i rows;
    cbn [Prepare.parse_rows].
  - intros [= <-]. constructor.
  - case_decide as Hlen; [done|]. cbv zeta.
    destruct (all_values_empty _); [apply IH|].
    destruct (Prepare.parse_rows header (S i) data) as [e|rs] eqn:E; [done|].
    intros [= <-]. constructor; [|by eapply IH].
    intros k. apply row_dict_dom. lia.
Qed.

Lemma validate_rows_prepare (header : list string) (lc ac : string) (i : nat)
    (data : list (list string)) (rows : list (gmap string string)) :
  Validate.parse_rows header lc ac i data = inr rows ->
  Prepare.parse_rows header i data = inr rows.
Proof.
  revert i rows. induction data as [|raw data IH]; intros i rows;
    cbn [Validate.parse_rows Prepare.parse_rows]; [done|].
  case_decide as Hlen; [done|]. cbv zeta.
  destruct (all_values_empty _); [apply IH|].
  destruct (bool_decide (row_value _ lc = "")); [done|].
  destruct (has_comma (row_value _ lc)); [done|].
  destruct (bool_decide (row_value _ ac = "")); [done|].
  destruct (has_comma (row_value _ ac)); [done|].
  destruct (Validate.parse_rows header lc ac (S i) data) as [e|rs] eqn:E; [done|].
  intros [= <-]. by rewrite (IH (S i) rs E).
Qed.

Lemma validate_rows_fields (header : list string) (lc ac : string) (i : nat)
    (data : list (list string)) (rows : list (gmap string string)) :
  Validate.parse_rows header lc ac i data = inr rows ->
  Forall (fun row => row_value row lc <> "" /\ has_comma (row_value row lc) = false
                     /\ row_value row ac <> "" /\ has_comma (row_value row ac) = false)
    rows.
Proof.
  revert i rows. induction data as [|raw data IH]; intros i rows;
    cbn [Validate.parse_rows].
  - intros [= <-]. constructor.
  - case_decide as Hlen; [done|]. cbv zeta.
    destruct (all_values_empty _); [apply IH|].
    destruct (bool_decide (row_value _ lc = "")) eqn:E1; [done|].
    destruct (has_comma (row_value _ lc)) eqn:E2; [done|].
    destruct (bool_decide (row_value _ ac = "")) eqn:E3; [done|].
    destruct (has_comma (row_value _ ac)) eqn:E4; [done|].
    destruct (Validate.parse_rows header lc ac (S i) data) as [e|rs] eqn:E; [done|].
    intros [= <-]. constructor; [|by eapply IH].
    apply bool_decide_eq_false in E1, E3. done.
Qed.

Lemma prepare_check_header_inr (r0 r1 : list string) h t lc ac :
  Prepare.check_header r0 r1 = inr (h, t, lc, ac) ->
  h = strip <$> r0 /\ t = (fun t => lower (strip t)) <$> r1
  /\ length h = length t /\ find_required h = inr (lc, ac).
Proof.
  unfold Prepare.check_header. cbv zeta.
  destruct (bool_decide (length (strip <$> r0) = length _)) eqn:El; [|done]. cbn [negb].
  destruct (find_required (strip <$> r0)) as [e|[l a]] eqn:Ef; [done|].
  intros [= <- <- <- <-]. apply bool_decide_eq_true in El. done.
Qed.

Lemma validate_check_header_inr (r0 r1 : list string) h t lc ac :
  Validate.check_header r0 r1 = inr (h, t, lc, ac) ->
  Prepare.check_header r0 r1 = inr (h, t, lc, ac)
  /\ Forall (fun ty => ty ∈ VALID_TYPES) t.
Proof.
  unfold Validate.check_header, Prepare.check_header. cbv zeta.
  destruct (negb _); [done|].
  destruct (List.filter _ _) as [|b bs] eqn:Eb; [|done].
  destruct (find_required (strip <$> r0)) as [e|[l a]] eqn:Ef; [done|].
  intros [= <- <- <- <-]. split; [done|].
  apply Forall_forall. intros ty Hty.
  destruct (decide (ty ∈ VALID_TYPES)) as [|Hn]; [done|]. exfalso.
  apply (not_elem_of_nil ty). rewrite <- Eb. apply list_filter_elem_of.
  split; [done|]. by rewrite negb_true_iff, bool_decide_eq_false.
Qed.

(** *** Reading a column *)

Lemma column_values_total (col : string) (rows : list (gmap string string)) :
  Forall (fun row => is_Some (row !! col)) rows ->
  column_values col rows = inr ((fun row => row_value row col) <$> rows).
Proof.
  induction 1 as [|row rows [v Hv] _ IH]; [done|]. cbn.
  unfold row_getitem, row_value. by rewrite Hv, IH.
Qed.

(** *** The output table *)

Lemma extra_types_of_length (header types extra ts : list string) :
  extra_types_of header types extra = inr ts -> length ts = length extra.
Proof.
  revert ts. induction extra as [|c extra IH]; intros ts; cbn.
  - by intros [= <-].
  - destruct (_ ≫= _) as [t|]; [|done].
    destruct (extra_types_of header types extra) as [e|ts']; [done|].
    intros [= <-]. cbn. f_equal. by apply IH.
Qed.

Lemma extra_types_of_total (header types extra : list string) :
  (length header <= length types)%nat -> Forall (fun c => c ∈ header) extra ->
  exists ts, extra_types_of header types extra = inr ts.
Proof.
  intros Hlen. induction 1 as [|c extra Hc _ [ts IH]]; cbn; [eauto|].
  unfold header_index.
  destruct (list_find_elem_of (fun h => h = c) header c Hc eq_refl) as [[i y] Hf].
  rewrite Hf. cbn. apply list_find_Some in Hf as (Hi & _ & _).
  apply lookup_lt_Some in Hi.
  destruct (lookup_lt_is_Some_2 types i) as [t Ht]; [lia|].
  rewrite Ht, IH. eauto.
Qed.

(** The output row written for one input row. *)
Lemma output_row_inr (l2c : gmap string string) (lc ac : string) (extra : list string)
    (row : gmap string string) (pref : gmap string string) r pref' :
  output_row l2c lc ac extra row pref = inr (r, pref') ->
  exists l a,
    row !! lc = Some l /\ row !! ac = Some a
    /\ r = a :: tree_label_sanitize l
             :: (if bool_decide (is_Some (l2c !! clean_alnum l))
                 then "Reference" else "Readset")
             :: (extra_cell row <$> extra)
    /\ pref' = match l2c !! clean_alnum l with
               | Some code => <[code := tree_label_sanitize l]> pref
               | None => pref
               end.
Proof.
  unfold output_row, row_getitem.
  destruct (row !! lc) as [l|]; [|done]. destruct (row !! ac) as [a|]; [|done].
  cbv zeta. rewrite LeafNames.label_final_sanitized.
  destruct (l2c !! clean_alnum l) as [code|] eqn:E; intros [= <- <-]; exists l, a.
  - rewrite bool_decide_eq_true_2, E by eauto. done.
  - rewrite bool_decide_eq_false_2, E by (intros [? ?]; congruence). done.
Qed.

Lemma output_row_total (l2c : gmap string string) (lc ac : string) (extra : list string)
    (row : gmap string string) (pref : gmap string string) :
  is_Some (row !! lc) -> is_Some (row !! ac) ->
  exists r pref', output_row l2c lc ac extra row pref = inr (r, pref').
Proof.
  intros [l Hl] [a Ha]. unfold output_row, row_getitem. rewrite Hl, Ha. cbv zeta.
  destruct (l2c !! clean_alnum l); eauto.
Qed.

Lemma output_rows_total (l2c : gmap string string) (lc ac : string) (extra : list string)
    (rows : list (gmap string string)) (pref : gmap string string) :
  Forall (fun row => is_Some (row !! lc) /\ is_Some (row !! ac)) rows ->
  exists out pref', output_rows l2c lc ac extra rows pref = inr (out, pref').
Proof.
  intros H. revert pref. induction H as [|row rows [Hl Ha] _ IH]; intros pref; cbn; [eauto|].
  destruct (output_row_total l2c lc ac extra row pref Hl Ha) as (r & pref1 & ->).
  destruct (IH pref1) as (out & pref' & ->). eauto.
Qed.

Lemma output_rows_inr (l2c : gmap string string) (lc ac : string) (extra : list string)
    (rows : list (gmap string string)) (pref : gmap string string) out pref' :
  output_rows l2c lc ac extra rows pref = inr (out, pref') ->
  Forall2 (fun row r => exists l a,
             row !! lc = Some l /\ row !! ac = Some a
             /\ r = a :: tree_label_sanitize l
                      :: (if bool_decide (is_Some (l2c !! clean_alnum l))
                          then "Reference" else "Readset")
                      :: (extra_cell row <$> extra)) rows out
  /\ (forall code,
        is_Some (pref' !! code)
        <-> is_Some (pref !! code)
            \/ exists row l, row ∈ rows /\ row !! lc = Some l
                             /\ l2c !! clean_alnum l = Some code).
Proof.
  revert pref out. induction rows as [|row rows IH]; intros pref out; cbn.
  - intros [= <- <-]. split; [constructor|]. intros code. split; [by left|].
    intros [?|(row & l & Hin & _)]; [done|]. by apply not_elem_of_nil in Hin.
  - destruct (output_row _ _ _ _ _ _) as [e|[r pref1]] eqn:E1; [done|].
    destruct (output_rows _ _ _ _ rows pref1) as [e|[out1 pref2]] eqn:E2; [done|].
    intros [= <- <-]. destruct (IH pref1 out1 E2) as [IH1 IH2].
    apply output_row_inr in E1 as (l & a & Hl & Ha & -> & ->).
    split; [constructor; [eauto 8 | done]|].
    intros code. rewrite IH2. split.
    + intros [Hp|(row' & l' & Hin & Hl' & Hc)].
      * destruct (l2c !! clean_alnum l) as [c|] eqn:Ec; [|by left].
        destruct (decide (c = code)) as [->|Hne].
        -- right. exists row, l. split_and!; [left | done | done].
        -- rewrite lookup_insert_ne in Hp by done. by left.
      * right. exists row', l'. split_and!; [by right | done | done].
    + intros [Hp|(row' & l' & [->|Hin]%elem_of_cons & Hl' & Hc)].
      * left. destruct (l2c !! clean_alnum l) as [c|]; [|done].
        destruct (decide (c = code)) as [->|Hne].
        -- rewrite lookup_insert_eq. eauto.
        -- by rewrite lookup_insert_ne.
      * left. assert (l' = l) as -> by congruence. rewrite Hc, lookup_insert_eq. eauto.
      * right. eauto.
Qed.

(** *** What a successful parse returns *)

Lemma prepare_parse_inr (csv_rows : list (list string)) (meta : MetadataInput) :
  Prepare.parse_metadata_csv csv_rows = inr meta ->
  length (header meta) = length (types meta)
  /\ find_required (header meta) = inr (label_col meta, accession_col meta)
  /\ Forall (fun row => forall k, is_Some (row !! k) <-> k ∈ header meta) (rows meta)
  /\ rows meta <> [].
Proof.
  unfold Prepare.parse_metadata_csv.
  destruct csv_rows as [|r0 [|r1 [|d data]]]; try done.
  destruct (Prepare.check_header r0 r1) as [e|[[[h t] lc] ac]] eqn:Eh; [done|].
  destruct (Prepare.parse_rows h 3 (d :: data)) as [e|[|row rows]] eqn:Er; try done.
  intros [= <-]. cbn.
  apply prepare_check_header_inr in Eh as (_ & _ & Hlen & Hf).
  apply prepare_rows_dom in Er. done.
Qed.

Lemma validate_parse_inr (csv_rows : list (list string)) (meta : MetadataInput) :
  Validate.parse_metadata_csv csv_rows = inr meta ->
  Prepare.parse_metadata_csv csv_rows = inr meta
  /\ Forall (fun ty => ty ∈ VALID_TYPES) (types meta)
  /\ Forall (fun row =>
               row_value row (label_col meta) <> ""
               /\ has_comma (row_value row (label_col meta)) = false
               /\ row_value row (accession_col meta) <> ""
               /\ has_comma (row_value row (accession_col meta)) = false) (rows meta).
Proof.
  unfold Validate.parse_metadata_csv, Prepare.parse_metadata_csv.
  destruct csv_rows as [|r0 [|r1 [|d data]]]; try done.
  destruct (Validate.check_header r0 r1) as [e|[[[h t] lc] ac]] eqn:Eh; [done|].
  destruct (Validate.parse_rows h lc ac 3 (d :: data)) as [e|[|row rows]] eqn:Er; try done.
  intros [= <-].
  apply validate_check_header_inr in Eh as [-> Ht]. cbv beta iota.
  rewrite (validate_rows_prepare _ _ _ _ _ _ Er). cbn.
  apply validate_rows_fields in Er. done.
Qed.

(** The rows of a parsed table have the label and accession columns. *)
Lemma parsed_rows_columns (csv_rows : list (list string)) (meta : MetadataInput) :
  Prepare.parse_metadata_csv csv_rows = inr meta ->
  column_values (label_col meta) (rows meta)
  = inr ((fun row => row_value row (label_col meta)) <$> rows meta)
  /\ column_values (accession_col meta) (rows meta)
     = inr ((fun row => row_value row (accession_col meta)) <$> rows meta).
Proof.
  intros (_ & [[Hl _] [Ha _]]%find_required_inr & Hrows & _)%prepare_parse_inr.
  split; apply column_values_total; eapply Forall_impl; try exact Hrows;
    intros row Hrow; by apply Hrow.
Qed.

Lemma extra_cell_nonempty (row : gmap string string) (c : string) : extra_cell row c <> "".
Proof.
  unfold extra_cell. destruct (row !! c) as [v|]; [|done].
  case_bool_decide; done.
Qed.

(** *** The output table of a parsed table *)

Lemma build_output_metadata_total (csv_rows : list (list string)) (meta : MetadataInput)
    (l2c : gmap string string) :
  Prepare.parse_metadata_csv csv_rows = inr meta ->
  exists h t rs pref, build_output_metadata meta l2c = inr (h, t, rs, pref).
Proof.
  intros (Hlen & [[Hl _] [Ha _]]%find_required_inr & Hrows & _)%prepare_parse_inr.
  unfold build_output_metadata. cbv zeta.
  destruct (extra_types_of_total (header meta) (types meta)
              (List.filter is_extra_col (header meta))) as [ts ->]; [lia | |].
  { apply Forall_forall. by intros c [Hc _]%list_filter_elem_of. }
  destruct (output_rows_total l2c (label_col meta) (accession_col meta)
              (List.filter is_extra_col (header meta)) (rows meta) ∅)
    as (out & pref & ->); [|eauto 10].
  eapply Forall_impl; [exact Hrows|]. intros row Hrow. split; by apply Hrow.
Qed.

Lemma output_columns (l2c : gmap string string) (lc ac : string) (extra : list string)
    (rows : list (gmap string string)) (out : list (list string)) :
  Forall2 (fun row r => exists l a,
             row !! lc = Some l /\ row !! ac = Some a
             /\ r = a :: tree_label_sanitize l
                      :: (if bool_decide (is_Some (l2c !! clean_alnum l))
                          then "Reference" else "Readset")
                      :: (extra_cell row <$> extra)) rows out ->
  (fun r => r !! 0%nat) <$> out = Some <$> ((fun row => row_value row ac) <$> rows)
  /\ (fun r => r !! 1%nat) <$> out
     = Some <$> (tree_label_sanitize <$> ((fun row => row_value row lc) <$> rows)).
Proof.
  induction 1 as [|row r rows out (l & a & Hl & Ha & ->) _ [IH1 IH2]]; [done|].
  cbn. unfold row_value. rewrite Hl, Ha, IH1, IH2. done.
Qed.

Lemma sanitized_labels_NoDup (labels : list string) :
  NoDup (collision_key_of <$> labels) -> NoDup (tree_label_sanitize <$> labels).
Proof.
  intros H. apply (NoDup_fmap_1 (fun x => clean_alnum (label_final_of x))).
  by rewrite <- list_fmap_compose.
Qed.

Lemma strict_index_roundtrip (lines : list string) (l2c c2t : gmap string string)
    (code taxon : string) :
  StrictIndex.load_five_letter lines = inr (l2c, c2t) ->
  c2t !! code = Some taxon -> l2c !! clean_alnum taxon = Some code.
Proof.
  intros Hload Hc. apply StrictFacts.load_from_maps in Hload as [H1 H2].
  2:{ intros c [x Hx]. by rewrite lookup_empty in Hx. }
  apply H2 in Hc as [Hc|Hc]; [by rewrite lookup_empty in Hc|].
  apply H1. right. eauto.
Qed.

(** *** What each check of the validator ensures *)

Lemma reference_coverage_inr (meta : MetadataInput) (l2c c2t : gmap string string)
    (labels : list string) (key : string) :
  column_values (label_col meta) (rows meta) = inr labels ->
  validate_reference_coverage meta l2c c2t = inr tt ->
  is_Some (l2c !! key) -> key ∈ clean_alnum <$> labels.
Proof.
  intros Hcol. unfold validate_reference_coverage. rewrite Hcol. cbv zeta.
  pose proof (CheckFacts.missing_keys_elem_of l2c labels key) as Hks.
  destruct (sort_by String.leb _) as [|k ks].
  - intros _ Hkey. destruct (decide (key ∈ clean_alnum <$> labels)) as [|Hn]; [done|].
    exfalso. apply (not_elem_of_nil key). by apply Hks.
  - by destruct (missing_refs_of _ _ _).
Qed.

Lemma readset_presence_inr (meta : MetadataInput) (readset_names labels : list string)
    (name : string) :
  column_values (label_col meta) (rows meta) = inr labels ->
  validate_readset_presence meta readset_names = inr tt ->
  name ∈ readset_names -> name ∈ labels.
Proof.
  intros Hcol. unfold validate_readset_presence. rewrite Hcol.
  destruct (List.filter _ readset_names) as [|m ms] eqn:E; [|done].
  intros _ Hin. destruct (decide (name ∈ labels)) as [|Hn]; [done|].
  exfalso. apply (not_elem_of_nil name). rewrite <- E. apply list_filter_elem_of.
  split; [done|]. by rewrite negb_true_iff, bool_decide_eq_false.
Qed.

Lemma output_constraints_inr (meta : MetadataInput) (l2c : gmap string string)
    (labels accessions : list string) (counts : nat * nat) :
  column_values (label_col meta) (rows meta) = inr labels ->
  column_values (accession_col meta) (rows meta) = inr accessions ->
  validate_output_constraints meta l2c = inr counts ->
  NoDup labels /\ NoDup accessions /\ NoDup (collision_key_of <$> labels).
Proof.
  intros Hl Ha. unfold validate_output_constraints.
  destruct (constraint_loop _ _ _ _ _) as [e|st] eqn:E; [done|]. intros _.
  destruct (CheckFacts.constraint_loop_spec l2c (label_col meta) (accession_col meta)
              (rows meta) constraint_start labels accessions Hl Ha) as [Hiff _].
  destruct (proj1 Hiff) as (? & _ & ? & _ & ? & _); eauto.
Qed.

End TableFacts.

(** X12.  When [build_output_metadata] returns, the output header and the
    output type row have the same length, and there is one output row per
    input row, in order: its first cell is the accession, its second cell is
    [tree_label_sanitize] of the raw label (the later cleanup of
    [label_final] changes nothing), its third cell is [Reference] when the
    comparison key of the raw label is a key of the reference index and
    [Readset] otherwise; the row is as long as the header and no cell after
    the first is empty. *)
Theorem build_output_metadata_rows (meta : MetadataInput)
    (labelkey_to_code : gmap string string)
    out_header out_types out_rows code_to_preferred_label :
  build_output_metadata meta labelkey_to_code
  = inr (out_header, out_types, out_rows, code_to_preferred_label) ->
  length out_header = length out_types
  /\ Forall2 (fun row r => exists raw_label accession,
                row !! label_col meta = Some raw_label
                /\ row !! accession_col meta = Some accession
                /\ r !! 0%nat = Some accession
                /\ r !! 1%nat = Some (tree_label_sanitize raw_label)
                /\ r !! 2%nat
                   = Some (if bool_decide (is_Some (labelkey_to_code !! clean_alnum raw_label))
                           then "Reference" else "Readset")
                /\ length r = length out_header
                /\ Forall (fun c => c <> "") (drop 1 r))
       (rows meta) out_rows.
Proof.
  unfold build_output_metadata. cbv zeta.
  destruct (extra_types_of _ _ _) as [e|ts] eqn:Et; [done|].
  destruct (output_rows _ _ _ _ _ _) as [e|[rs pref]] eqn:Er; [done|].
  intros [= <- <- <- <-]. split.
  - cbn. by rewrite (TableFacts.extra_types_of_length _ _ _ _ Et).
  - apply TableFacts.output_rows_inr in Er as [Hrows _].
    eapply Forall2_impl; [exact Hrows|]. cbv beta.
    intros row r (l & a & Hl & Ha & ->). exists l, a.
    split_and!; try done.
    + cbn. by rewrite length_fmap.
    + cbn. constructor; [apply LeafNames.sanitize_word_name|].
      constructor; [by destruct (bool_decide _)|].
      apply Forall_fmap, Forall_true. intros c. apply TableFacts.extra_cell_nonempty.
Qed.

Lemma build_output_metadata_rows_witness :
  build_output_metadata
    {| header := ["label"; "accession"; "host"]; types := ["character"; "character"; "character"];
       rows := [{[ "label" := "Homo sapiens"; "accession" := "GCF1"; "host" := "" ]}];
       label_col := "label"; accession_col := "accession" |}
    {[ "Homosapiens" := "HOMSA" ]}
  = inr (["sample_id"; "label"; "source"; "host"],
         ["character"; "character"; "character"; "character"],
         [["GCF1"; "Homo_sapiens"; "Reference"; "NA"]], {[ "HOMSA" := "Homo_sapiens" ]})
  /\ length ["sample_id"; "label"; "source"; "host"]
     = length ["character"; "character"; "character"; "character"].
Proof.
  assert (H : build_output_metadata
    {| header := ["label"; "accession"; "host"]; types := ["character"; "character"; "character"];
       rows := [{[ "label" := "Homo sapiens"; "accession" := "GCF1"; "host" := "" ]}];
       label_col := "label"; accession_col := "accession" |}
    {[ "Homosapiens" := "HOMSA" ]}
  = inr (["sample_id"; "label"; "source"; "host"],
         ["character"; "character"; "character"; "character"],
         [["GCF1"; "Homo_sapiens"; "Reference"; "NA"]], {[ "HOMSA" := "Homo_sapiens" ]}))
    by (vm_compute; reflexivity).
  split; [exact H|]. exact (proj1 (build_output_metadata_rows _ _ _ _ _ _ H)).
Defined.

(** X13.  On a table returned by [parse_metadata_csv] of
    prepare_metadata_o2t_view.py, [build_output_metadata] returns: it raises
    neither a missing key nor an index out of range, whatever the reference
    index. *)
Theorem build_output_metadata_on_parsed (csv_rows : list (list string))
    (meta : MetadataInput) (labelkey_to_code : gmap string string) :
  Prepare.parse_metadata_csv csv_rows = inr meta ->
  exists out_header out_types out_rows code_to_preferred_label,
    build_output_metadata meta labelkey_to_code
    = inr (out_header, out_types, out_rows, code_to_preferred_label).
Proof. apply TableFacts.build_output_metadata_total. Qed.

Lemma build_output_metadata_on_parsed_witness :
  Prepare.parse_metadata_csv
    [["Label"; "accession"]; ["character"; "character"]; ["Homo sapiens"; " GCF1"]]
  = inr {| header := ["Label"; "accession"]; types := ["character"; "character"];
           rows := [{[ "Label" := "Homo sapiens"; "accession" := "GCF1" ]}];
           label_col := "Label"; accession_col := "accession" |}
  /\ exists out_header out_types out_rows code_to_preferred_label,
       build_output_metadata
         {| header := ["Label"; "accession"]; types := ["character"; "character"];
            rows := [{[ "Label" := "Homo sapiens"; "accession" := "GCF1" ]}];
            label_col := "Label"; accession_col := "accession" |}
         {[ "Homosapiens" := "HOMSA" ]}
       = inr (out_header, out_types, out_rows, code_to_preferred_label).
Proof.
  assert (H : Prepare.parse_metadata_csv
    [["Label"; "accession"]; ["character"; "character"]; ["Homo sapiens"; " GCF1"]]
  = inr {| header := ["Label"; "accession"]; types := ["character"; "character"];
           rows := [{[ "Label" := "Homo sapiens"; "accession" := "GCF1" ]}];
           label_col := "Label"; accession_col := "accession" |})
    by (vm_compute; reflexivity).
  split; [exact H|]. exact (build_output_metadata_on_parsed _ _ _ H).
Defined.

(** X14.  A table returned by [parse_metadata_csv] of validate_metadata.py
    has as many types as columns, all of them valid types; its label and
    accession columns are columns of the header whose lower-cased names are
    [label] and [accession]; it has at least one row; and every row has
    exactly the columns of the header, with a label and an accession that
    are not empty and contain no comma. *)
Theorem validate_parse_invariants (csv_rows : list (list string)) (meta : MetadataInput) :
  Validate.parse_metadata_csv csv_rows = inr meta ->
  length (header meta) = length (types meta)
  /\ Forall (fun ty => ty ∈ VALID_TYPES) (types meta)
  /\ (label_col meta ∈ header meta /\ lower (label_col meta) = "label")
  /\ (accession_col meta ∈ header meta /\ lower (accession_col meta) = "accession")
  /\ rows meta <> []
  /\ Forall (fun row =>
               (forall k, is_Some (row !! k) <-> k ∈ header meta)
               /\ exists raw_label accession,
                    row !! label_col meta = Some raw_label
                    /\ raw_label <> "" /\ has_comma raw_label = false
                    /\ row !! accession_col meta = Some accession
                    /\ accession <> "" /\ has_comma accession = false)
       (rows meta).
Proof.
  intros (Hp & Hty & Hfields)%TableFacts.validate_parse_inr.
  apply TableFacts.prepare_parse_inr in Hp as (Hlen & Hreq & Hdom & Hne).
  apply TableFacts.find_required_inr in Hreq as [[Hl Hl'] [Ha Ha']].
  split_and!; try done.
  apply Forall_forall. intros row Hrow.
  pose proof (proj1 (Forall_forall _ _) Hdom row Hrow) as Hd.
  pose proof (proj1 (Forall_forall _ _) Hfields row Hrow) as (F1 & F2 & F3 & F4).
  split; [done|].
  destruct (proj2 (Hd (label_col meta)) Hl) as [l El].
  destruct (proj2 (Hd (accession_col meta)) Ha) as [a Ea].
  unfold row_value in F1, F2, F3, F4. rewrite El in F1, F2. rewrite Ea in F3, F4.
  exists l, a. done.
Qed.

Lemma validate_parse_invariants_witness :
  Validate.parse_metadata_csv
    [["Label"; "accession"]; ["character"; "Date"]; ["Homo sapiens"; " GCF1"]; []]
  = inr {| header := ["Label"; "accession"]; types := ["character"; "date"];
           rows := [{[ "Label" := "Homo sapiens"; "accession" := "GCF1" ]}];
           label_col := "Label"; accession_col := "accession" |}
  /\ length ["Label"; "accession"] = length ["character"; "date"].
Proof.
  assert (H : Validate.parse_metadata_csv
    [["Label"; "accession"]; ["character"; "Date"]; ["Homo sapiens"; " GCF1"]; []]
  = inr {| header := ["Label"; "accession"]; types := ["character"; "date"];
           rows := [{[ "Label" := "Homo sapiens"; "accession" := "GCF1" ]}];
           label_col := "Label"; accession_col := "accession" |})
    by (vm_compute; reflexivity).
  split; [exact H|]. exact (proj1 (validate_parse_invariants _ _ H)).
Defined.

(** X15.  Whatever [parse_metadata_csv] of validate_metadata.py accepts,
    [parse_metadata_csv] of prepare_metadata_o2t_view.py accepts too, and
    returns the same table. *)
Theorem validated_table_is_prepared (csv_rows : list (list string)) (meta : MetadataInput) :
  Validate.parse_metadata_csv csv_rows = inr meta ->
  Prepare.parse_metadata_csv csv_rows = inr meta.
Proof. by intros [H _]%TableFacts.validate_parse_inr. Qed.

Lemma validated_table_is_prepared_witness :
  Validate.parse_metadata_csv
    [["Label"; "accession"]; ["character"; "Date"]; ["Homo sapiens"; " GCF1"]; []]
  = inr {| header := ["Label"; "accession"]; types := ["character"; "date"];
           rows := [{[ "Label" := "Homo sapiens"; "accession" := "GCF1" ]}];
           label_col := "Label"; accession_col := "accession" |}
  /\ Prepare.parse_metadata_csv
       [["Label"; "accession"]; ["character"; "Date"]; ["Homo sapiens"; " GCF1"]; []]
     = inr {| header := ["Label"; "accession"]; types := ["character"; "date"];
              rows := [{[ "Label" := "Homo sapiens"; "accession" := "GCF1" ]}];
              label_col := "Label"; accession_col := "accession" |}.
Proof.
  assert (H : Validate.parse_metadata_csv
    [["Label"; "accession"]; ["character"; "Date"]; ["Homo sapiens"; " GCF1"]; []]
  = inr {| header := ["Label"; "accession"]; types := ["character"; "date"];
           rows := [{[ "Label" := "Homo sapiens"; "accession" := "GCF1" ]}];
           label_col := "Label"; accession_col := "accession" |})
    by (vm_compute; reflexivity).
  split; [exact H|]. exact (validated_table_is_prepared _ _ H).
Defined.

(** X16.  When [main] of validate_metadata.py succeeds on a metadata file, a
    reference table and a results directory, prepare_metadata_o2t_view.py
    parses the same metadata file and loads the same reference table
    without error, and [build_output_metadata] returns a table whose
    sample ids are pairwise distinct and whose labels are pairwise distinct;
    every code of the reference table gets a preferred label, and every
    readset of the results directory has a row, labelled with its
    sanitized name. *)
Theorem validate_main_sound (csv_rows : list (list string))
    (five_letter_lines cov_files : list string) :
  validate_main csv_rows five_letter_lines cov_files = inr tt ->
  exists meta labelkey_to_code code_to_taxon readset_names
         out_header out_types out_rows code_to_preferred_label,
    Prepare.parse_metadata_csv csv_rows = inr meta
    /\ load_five_letter five_letter_lines = inr (labelkey_to_code, code_to_taxon)
    /\ load_readsets_from_cov cov_files = inr readset_names
    /\ build_output_metadata meta labelkey_to_code
       = inr (out_header, out_types, out_rows, code_to_preferred_label)
    /\ NoDup ((fun r => r !! 0%nat) <$> out_rows)
    /\ NoDup ((fun r => r !! 1%nat) <$> out_rows)
    /\ (forall code, is_Some (code_to_taxon !! code) ->
                     is_Some (code_to_preferred_label !! code))
    /\ (forall name, name ∈ readset_names ->
                     exists r, r ∈ out_rows /\ r !! 1%nat = Some (tree_label_sanitize name)).
Proof.
  unfold validate_main.
  destruct (Validate.parse_metadata_csv csv_rows) as [e|meta] eqn:Ep; [done|].
  destruct (StrictIndex.load_five_letter five_letter_lines) as [e|[l2c c2t]] eqn:El; [done|].
  destruct (load_readsets_from_cov cov_files) as [e|names] eqn:Ec; [done|].
  destruct (validate_reference_coverage meta l2c c2t) as [e|[]] eqn:E1; [done|].
  destruct (validate_readset_presence meta names) as [e|[]] eqn:E2; [done|].
  destruct (validate_output_constraints meta l2c) as [e|counts] eqn:E3; [done|].
  intros _.
  apply TableFacts.validate_parse_inr in Ep as [Hp _].
  destruct (TableFacts.parsed_rows_columns _ _ Hp) as [Hl Ha].
  destruct (TableFacts.build_output_metadata_total _ _ l2c Hp) as (h & t & rs & pref & Hb).
  exists meta, l2c, c2t, names, h, t, rs, pref.
  assert (Hload : load_five_letter five_letter_lines = inr (l2c, c2t)).
  { apply StrictFacts.load_from_spec in El. apply El. }
  destruct (TableFacts.output_constraints_inr _ _ _ _ _ Hl Ha E3) as (Nl & Na & Nk).
  assert (Hrows : exists out pref0,
             output_rows l2c (label_col meta) (accession_col meta)
               (List.filter is_extra_col (header meta)) (rows meta) ∅ = inr (out, pref0)
             /\ rs = out /\ pref = pref0).
  { unfold build_output_metadata in Hb. cbv zeta in Hb.
    destruct (extra_types_of _ _ _) as [e|ts]; [done|].
    destruct (output_rows _ _ _ _ _ _) as [e|[out pref0]]; [done|].
    injection Hb as _ _ <- <-. eauto. }
  destruct Hrows as (out & pref0 & Hout & -> & ->).
  apply TableFacts.output_rows_inr in Hout as [Hshape Hpref].
  destruct (TableFacts.output_columns _ _ _ _ _ _ Hshape) as [C0 C1].
  split_and!; try done.
  - rewrite C0. apply (NoDup_fmap_2 Some). exact Na.
  - rewrite C1. apply (NoDup_fmap_2 Some). by apply TableFacts.sanitized_labels_NoDup.
  - intros code [taxon Hc]. apply Hpref. right.
    pose proof (TableFacts.strict_index_roundtrip _ _ _ _ _ El Hc) as Hk.
    assert (Hin : clean_alnum taxon ∈ clean_alnum <$> ((fun row => row_value row (label_col meta)) <$> rows meta)).
    { eapply TableFacts.reference_coverage_inr; [exact Hl | exact E1 | eauto]. }
    apply list_elem_of_fmap in Hin as (l & Hkey & (row & -> & Hrow)%list_elem_of_fmap).
    exists row, (row_value row (label_col meta)). split_and!; [done | | by rewrite <- Hkey].
    apply list_elem_of_lookup in Hrow as [i Hi].
    destruct (Forall2_lookup_l _ _ _ _ _ Hshape Hi) as (r & _ & l' & a' & Hl' & _).
    unfold row_value. by rewrite Hl'.
  - intros name Hname.
    pose proof (TableFacts.readset_presence_inr _ _ _ _ Hl E2 Hname) as Hin.
    assert (Hs : Some (tree_label_sanitize name) ∈ (fun r : list string => r !! 1%nat) <$> out).
    { rewrite C1. by apply list_elem_of_fmap_2, list_elem_of_fmap_2. }
    apply list_elem_of_fmap in Hs as (r & Hr & Hin'). eauto.
Qed.

Lemma validate_main_sound_witness :
  validate_main
    [["label"; "accession"]; ["character"; "character"];
     ["Homo sapiens"; "GCF1"]; ["reads_A"; "SRR1"]]
    [tsv_line "Homo sapiens" "HOMSA"] ["reads_A_all_cov.txt"; "notes.txt"]
  = inr tt
  /\ exists meta,
       Prepare.parse_metadata_csv
         [["label"; "accession"]; ["character"; "character"];
          ["Homo sapiens"; "GCF1"]; ["reads_A"; "SRR1"]]
       = inr meta.
Proof.
  assert (H : validate_main
    [["label"; "accession"]; ["character"; "character"];
     ["Homo sapiens"; "GCF1"]; ["reads_A"; "SRR1"]]
    [tsv_line "Homo sapiens" "HOMSA"] ["reads_A_all_cov.txt"; "notes.txt"]
  = inr tt) by (vm_compute; reflexivity).
  split; [exact H|].
  destruct (validate_main_sound _ _ _ H) as (meta & _ & _ & _ & _ & _ & _ & _ & Hp & _).
  exists meta. exact Hp.
Defined.

(** ** Readsets of the results directory *)

Module CovFacts.

Lemma string_length_chars (s : string) :
  String.length s = length (list_ascii_of_string s).
Proof. induction s as [|c s IH]; [done|]. cbn. by rewrite IH. Qed.

Lemma drop_last_append (name suffix : string) :
  drop_last (String.length suffix) (name +:+ suffix) = name.
Proof.
  apply chars_inj. unfold drop_last. rewrite on_chars_chars, chars_of_append.
  rewrite length_app, string_length_chars.
  replace (length (list_ascii_of_string name) + length (list_ascii_of_string suffix)
           - length (list_ascii_of_string suffix))%nat
    with (length (list_ascii_of_string name)) by lia.
  by rewrite take_app_length.
Qed.

Lemma ends_with_append (suffix name : string) :
  ends_with suffix name = true <-> exists stem, name = stem +:+ suffix.
Proof.
  unfold ends_with. rewrite bool_decide_eq_true. split.
  - intros [k Hk]. exists (string_of_list_ascii k). apply chars_inj.
    by rewrite chars_of_append, list_ascii_of_string_of_list_ascii.
  - intros [stem ->]. exists (list_ascii_of_string stem). apply chars_of_append.
Qed.

Lemma append_empty_stem (stem suffix : string) : stem +:+ suffix = suffix <-> stem = "".
Proof.
  split; [|by intros ->]. intros E. apply (f_equal String.length) in E.
  rewrite !string_length_chars, chars_of_append, length_app in E.
  destruct stem; [done|]. cbn in E. lia.
Qed.

(** The stems kept by [load_readsets_from_cov], before sorting. *)
Lemma stems_elem_of (files : list string) (name : string) :
  name ∈ drop_last (String.length cov_suffix)
           <$> List.filter (fun name => ends_with cov_suffix name
                                        && negb (bool_decide (name = cov_suffix))) files
  <-> name <> "" /\ name +:+ cov_suffix ∈ files.
Proof.
  rewrite list_elem_of_fmap. split.
  - intros (f & -> & Hf). apply list_filter_elem_of in Hf as [Hin Hf].
    apply andb_true_iff in Hf as [[stem ->]%ends_with_append Hne].
    rewrite negb_true_iff, bool_decide_eq_false, append_empty_stem in Hne.
    by rewrite drop_last_append.
  - intros [Hne Hin]. exists (name +:+ cov_suffix).
    split; [by rewrite drop_last_append|].
    apply list_filter_elem_of. split; [done|]. apply andb_true_iff. split.
    + apply ends_with_append. eauto.
    + by rewrite negb_true_iff, bool_decide_eq_false, append_empty_stem.
Qed.

End CovFacts.

(** X17.  [load_readsets_from_cov] raises exactly when no file of the
    directory is named by a non-empty stem followed by [_all_cov.txt].
    Otherwise it returns the stems of those files (a file called
    [_all_cov.txt] gives none), each once, in ascending order. *)
Theorem load_readsets_from_cov_spec (files : list string) :
  (load_readsets_from_cov files = inl NoCovFiles
   <-> forall name, name +:+ cov_suffix ∈ files -> name = "")
  /\ (forall names,
        load_readsets_from_cov files = inr names ->
        StronglySorted (fun a b => String.leb a b = true) names
        /\ NoDup names
        /\ forall name, name ∈ names <-> name <> "" /\ name +:+ cov_suffix ∈ files).
Proof.
  unfold load_readsets_from_cov. cbv zeta.
  pose proof (sort_by_sorted String.leb String.leb_total KeyFacts.leb_trans
    (distinct (drop_last (String.length cov_suffix)
                 <$> List.filter (fun name => ends_with cov_suffix name
                                              && negb (bool_decide (name = cov_suffix)))
                       files))) as Hsorted.
  assert (Hnd : NoDup (sort_by String.leb
    (distinct (drop_last (String.length cov_suffix)
                 <$> List.filter (fun name => ends_with cov_suffix name
                                              && negb (bool_decide (name = cov_suffix)))
                       files)))).
  { rewrite sort_by_perm. apply distinct_NoDup. }
  assert (Hin : forall name,
    name ∈ sort_by String.leb
      (distinct (drop_last (String.length cov_suffix)
                   <$> List.filter (fun name => ends_with cov_suffix name
                                                && negb (bool_decide (name = cov_suffix)))
                         files))
    <-> name <> "" /\ name +:+ cov_suffix ∈ files).
  { intros name. by rewrite sort_by_elem_of, distinct_elem_of, CovFacts.stems_elem_of. }
  destruct (sort_by String.leb _) as [|n ns].
  - split; [|done]. split; [|done]. intros _ name Hf.
    destruct (decide (name = "")) as [|Hne]; [done|].
    exfalso. apply (not_elem_of_nil name). by apply Hin.
  - split; [|by intros names [= <-]]. split; [done|]. intros Hall.
    assert (Hn : n ∈ n :: ns) by left. apply Hin in Hn as [Hne Hf].
    destruct Hne. by apply Hall.
Qed.

(** ** Relabeling of the samples of an alignment *)

Module RelabelFacts.

Lemma relabel_records_elem_of {A} (lookup : gmap string string)
    (records : list (string * A)) (label : string) (data : A) :
  (label, data) ∈ relabel_records lookup records
  <-> exists id, (id, data) ∈ records /\ lookup !! normalize_msa_id id = Some label.
Proof.
  unfold relabel_records. cbv zeta. rewrite list_elem_of_fmap. split.
  - intros ([c d] & [= -> ->] & Hin). apply list_filter_elem_of in Hin as [Hin Hs].
    apply bool_decide_eq_true in Hs as [l Hl]. cbn in Hl.
    apply list_elem_of_fmap in Hin as ([id d'] & [= -> ->] & Hin).
    exists id. cbn. rewrite Hl. done.
  - intros (id & Hin & Hl). exists (normalize_msa_id id, data). cbn. rewrite Hl.
    split; [done|]. apply list_filter_elem_of. split.
    + apply list_elem_of_fmap. by exists (id, data).
    + apply bool_decide_eq_true. cbn. eauto.
Qed.

Lemma relabel_records_sublist {A} (lookup : gmap string string)
    (records : list (string * A)) :
  (relabel_records lookup records).*2 `sublist_of` records.*2.
Proof.
  unfold relabel_records. cbv zeta. induction records as [|[id d] records IH]; [done|].
  cbn. destruct (bool_decide _); cbn; by constructor.
Qed.

Lemma set_add_elem_of (x y : string) (s : list string) :
  y ∈ set_add x s <-> y = x \/ y ∈ s.
Proof.
  unfold set_add. case_decide as Hx.
  - split; [by right | by intros [->|?]].
  - rewrite elem_of_app, list_elem_of_singleton. tauto.
Qed.

Lemma candidate_ids_first (five_letter_map : gmap string string) (match_value : string) :
  normalize_msa_id match_value ∈ candidate_ids five_letter_map match_value.
Proof.
  unfold candidate_ids. cbv zeta.
  assert (H0 : normalize_msa_id match_value ∈ set_add (normalize_msa_id match_value) []).
  { apply set_add_elem_of. by left. }
  assert (H1 : normalize_msa_id match_value
               ∈ (if bool_decide (clean_alnum match_value = "")
                  then set_add (normalize_msa_id match_value) []
                  else set_add (normalize_msa_id (clean_alnum match_value))
                         (set_add (normalize_msa_id match_value) []))).
  { case_bool_decide; [done|]. apply set_add_elem_of. by right. }
  destruct (five_letter_map !! clean_alnum match_value) as [code|]; [|exact H1].
  destruct (bool_decide (code = "")); [exact H1|]. apply set_add_elem_of. by right.
Qed.

Lemma first_label_is_Some (bs : list (option (string * list string))) (c : string) :
  is_Some (first_label bs c) <-> exists l cands, Some (l, cands) ∈ bs /\ c ∈ cands.
Proof.
  induction bs as [|[[l0 cands0]|] bs IH]; cbn.
  - split; [by intros [? ?]|]. intros (l & cands & H & _). by apply not_elem_of_nil in H.
  - case_decide as Hc.
    + split; [|eauto]. intros _. exists l0, cands0. split; [left | done].
    + rewrite IH. split.
      * intros (l & cands & Hin & Hc'). exists l, cands. split; [by right | done].
      * intros (l & cands & [[= -> ->]|Hin]%elem_of_cons & Hc'); [done | eauto].
  - rewrite IH. split.
    + intros (l & cands & Hin & Hc'). exists l, cands. split; [by right | done].
    + intros (l & cands & [?|Hin]%elem_of_cons & Hc'); [done | eauto].
Qed.

Lemma first_label_elem_of (bs : list (option (string * list string))) (c l : string) :
  first_label bs c = Some l -> exists cands, Some (l, cands) ∈ bs /\ c ∈ cands.
Proof.
  induction bs as [|[[l0 cands0]|] bs IH]; cbn; [done| |].
  - case_decide as Hc.
    + intros [= ->]. exists cands0. split; [left | done].
    + intros (cands & Hin & Hc')%IH. exists cands. split; [by right | done].
  - intros (cands & Hin & Hc')%IH. exists cands. split; [by right | done].
Qed.

(** The lookup returned by [build_metadata_label_lookup]. *)
Lemma lookup_is_first_label (metadata : data_frame) (match_column : string)
    (five_letter_map lookup : gmap string string) (collisions : nat) (c : string) :
  build_metadata_label_lookup metadata match_column five_letter_map
  = inr (lookup, collisions) ->
  lookup !! c
  = if bool_decide (c = "") then None
    else first_label (metadata_bindings metadata match_column five_letter_map) c.
Proof.
  unfold build_metadata_label_lookup. case_decide as Hcol; [|done]. intros [= E].
  destruct (LookupFacts.fold_bind_rows _
              (LookupFacts.metadata_bindings_NoDup metadata match_column five_letter_map))
    as (lookup' & E' & Hl).
  rewrite E in E'. injection E' as <- _. apply Hl.
Qed.

Lemma row_bindings_Some (five_letter_map : gmap string string) (columns : list string)
    (match_column output_column : string) (row : list cell) (l : string)
    (cands : list string) :
  row_bindings five_letter_map columns match_column output_column row = Some (l, cands)
  <-> exists m raw,
        row_get columns row match_column = Some m /\ strip m <> ""
        /\ row_get columns row output_column = Some raw /\ strip raw <> ""
        /\ l = strip raw /\ cands = candidate_ids five_letter_map (strip m).
Proof.
  unfold row_bindings. split.
  - destruct (row_get columns row match_column) as [m|]; [|done]. cbv zeta.
    case_bool_decide as Hm; [done|].
    destruct (row_get columns row output_column) as [raw|]; [|done].
    case_bool_decide as Hr; [done|]. intros [= <- <-]. exists m, raw. done.
  - intros (m & raw & -> & Hm & -> & Hr & -> & ->). cbv zeta.
    by rewrite !bool_decide_eq_false_2.
Qed.

End RelabelFacts.

(** X18.  Relabeling the records of an alignment with the lookup of
    [build_metadata_label_lookup] keeps the records in their order, and
    - every record kept is labelled with the stripped, non-empty output
      label of a metadata row;
    - a record is kept whenever its normalized id is not empty and is the
      normalized match value of a metadata row whose match value and output
      label are not blank. *)
Theorem relabel_records_labels {A : Type} (metadata : data_frame) (match_column : string)
    (five_letter_map lookup : gmap string string) (collisions : nat)
    (records : list (string * A)) :
  build_metadata_label_lookup metadata match_column five_letter_map
  = inr (lookup, collisions) ->
  (relabel_records lookup records).*2 `sublist_of` records.*2
  /\ (forall label data,
        (label, data) ∈ relabel_records lookup records ->
        label <> ""
        /\ exists id row raw,
             (id, data) ∈ records /\ row ∈ df_rows metadata
             /\ row_get (df_columns metadata) row (output_label_column metadata match_column)
                = Some raw
             /\ label = strip raw)
  /\ (forall id data row m raw,
        (id, data) ∈ records -> row ∈ df_rows metadata ->
        row_get (df_columns metadata) row match_column = Some m -> strip m <> "" ->
        row_get (df_columns metadata) row (output_label_column metadata match_column)
        = Some raw ->
        strip raw <> "" ->
        normalize_msa_id id = normalize_msa_id (strip m) -> normalize_msa_id id <> "" ->
        exists label, (label, data) ∈ relabel_records lookup records).
Proof.
  intros Hb. pose proof (fun c => RelabelFacts.lookup_is_first_label _ _ _ _ _ c Hb) as Hl.
  split_and!.
  - apply RelabelFacts.relabel_records_sublist.
  - intros label data (id & Hin & Hid)%RelabelFacts.relabel_records_elem_of.
    rewrite Hl in Hid. case_bool_decide as Hc; [done|].
    apply RelabelFacts.first_label_elem_of in Hid as (cands & Hbs & _).
    apply list_elem_of_fmap in Hbs as (row & Hrow & Hrin). symmetry in Hrow.
    apply RelabelFacts.row_bindings_Some in Hrow as (m & raw & _ & _ & Hraw & Hne & -> & _).
    split; [done|]. exists id, row, raw. done.
  - intros id data row m raw Hin Hrow Hm Hmne Hraw Hrne Hid Hne.
    assert (Hs : is_Some (first_label (metadata_bindings metadata match_column five_letter_map)
                            (normalize_msa_id id))).
    { apply RelabelFacts.first_label_is_Some.
      exists (strip raw), (candidate_ids five_letter_map (strip m)). split.
      - apply list_elem_of_fmap. exists row. split; [|done]. symmetry.
        apply RelabelFacts.row_bindings_Some. exists m, raw. done.
      - rewrite Hid. apply RelabelFacts.candidate_ids_first. }
    destruct Hs as [label Hlabel]. exists label.
    apply RelabelFacts.relabel_records_elem_of. exists id. split; [done|].
    by rewrite Hl, bool_decide_eq_false_2.
Qed.

Lemma relabel_records_labels_witness :
  build_metadata_label_lookup
    {| df_columns := ["label"]; df_rows := [[Some "reads A"]] |} "label" ∅
  = inr ({[ "reads A" := "reads A"; "readsA" := "reads A" ]}, 0%nat)
  /\ (relabel_records ({[ "reads A" := "reads A"; "readsA" := "reads A" ]})
        [("readsA_R1", 7%nat); ("other", 8%nat)]).*2
     `sublist_of` [("readsA_R1", 7%nat); ("other", 8%nat)].*2.
Proof.
  assert (H : build_metadata_label_lookup
    {| df_columns := ["label"]; df_rows := [[Some "reads A"]] |} "label" ∅
  = inr ({[ "reads A" := "reads A"; "readsA" := "reads A" ]}, 0%nat))
    by (vm_compute; reflexivity).
  split; [exact H|].
  exact (proj1 (relabel_records_labels _ _ _ _ _ [("readsA_R1", 7%nat); ("other", 8%nat)] H)).
Defined.

(** X19.  [maybe_drop_metadata_type_row] keeps the columns and drops at most
    the first row.  It drops the first row of a table with columns when every
    cell of that row is, once stripped and lower-cased, one of the types
    accepted by validate_metadata.py; it returns the table unchanged when a
    cell of the first row is a missing value. *)
Theorem maybe_drop_metadata_type_row_spec (metadata : data_frame) :
  df_columns (maybe_drop_metadata_type_row metadata) = df_columns metadata
  /\ (df_rows (maybe_drop_metadata_type_row metadata) = df_rows metadata
      \/ exists first_row,
           df_rows metadata = first_row :: df_rows (maybe_drop_metadata_type_row metadata))
  /\ (forall first_row rest,
        df_columns metadata <> [] -> df_rows metadata = first_row :: rest ->
        Forall (fun c => exists s, c = Some s /\ lower (strip s) ∈ VALID_TYPES) first_row ->
        df_rows (maybe_drop_metadata_type_row metadata) = rest)
  /\ (forall first_row rest,
        df_rows metadata = first_row :: rest -> None ∈ first_row ->
        maybe_drop_metadata_type_row metadata = metadata).
Proof.
  unfold maybe_drop_metadata_type_row.
  destruct metadata as [cols rws]. cbn [df_columns df_rows].
  destruct cols as [|c cols].
  { split_and!; [done | by left | done | done]. }
  destruct rws as [|first rest].
  { split_and!; [done | by left | done | done]. }
  destruct (forallb _ first) eqn:E.
  - split_and!; [done | right; eauto | by intros ? ? _ [= <- <-] _ |].
    intros ? ? [= <- <-] Hin. rewrite forallb_forall in E.
    apply list_elem_of_In, E in Hin. apply bool_decide_eq_true in Hin.
    cbn in Hin. exfalso. revert Hin. vm_compute.
    intros H. repeat (apply elem_of_cons in H as [H|H]; [discriminate H|]).
    by apply not_elem_of_nil in H.
  - split_and!; [done | by left | | done].
    intros ? ? _ [= <- <-] Hall. exfalso.
    apply not_true_iff_false in E. apply E, forallb_forall.
    intros x Hx%list_elem_of_In. apply bool_decide_eq_true.
    rewrite Forall_forall in Hall. destruct (Hall x Hx) as (s & -> & Hs).
    change (str_of_cell (Some s)) with s.
    revert Hs. generalize (lower (strip s)). intros t Ht.
    unfold VALID_TYPES in Ht. unfold METADATA_TYPE_VALUES.
    repeat (apply elem_of_cons in Ht as [->|Ht];
            [do 6 (first [by left | right])|]).
    by apply not_elem_of_nil in Ht.
Qed.

(** ** Rows and conflict records of the gene table *)

Section MappingRows.
Variable casefold : string -> string.

Lemma occurrences_dropna (g : gene) (s : list gene) :
  is_Some g ->
  occurrences g (List.filter (fun g => bool_decide (is_Some g)) s) = occurrences g s.
Proof.
  intros Hg. unfold occurrences. induction s as [|x s IH]; [done|]. cbn.
  case_bool_decide as Hx; cbn.
  - case_bool_decide; cbn; by rewrite IH.
  - rewrite IH. case_bool_decide as E; [|done]. subst x. done.
Qed.

Lemma value_counts_dropna_elem_of (s : list gene) (g : gene) (c : nat) :
  (g, c) ∈ value_counts true s <-> g ∈ s /\ is_Some g /\ c = occurrences g s.
Proof.
  unfold value_counts. cbv zeta iota.
  rewrite sort_by_elem_of, list_elem_of_fmap. split.
  - intros (g' & [= -> ->] & Hg'). rewrite distinct_elem_of, list_filter_elem_of in Hg'.
    destruct Hg' as [Hin Hs%bool_decide_eq_true].
    by rewrite occurrences_dropna.
  - intros (Hin & Hs & ->). exists g. rewrite occurrences_dropna by done.
    split; [done|]. rewrite distinct_elem_of, list_filter_elem_of.
    split; [done | by apply bool_decide_eq_true].
Qed.

Lemma distinct_two {A} `{EqDecision A} (l : list A) :
  (1 < length (distinct l))%nat <-> exists a b, a ∈ l /\ b ∈ l /\ a <> b.
Proof.
  pose proof (distinct_NoDup l) as Hnd.
  pose proof (fun x => distinct_elem_of x l) as Hin.
  destruct (distinct l) as [|x [|y r]]; cbn.
  - split; [lia|]. intros (a & _ & Ha & _). apply Hin in Ha. by apply not_elem_of_nil in Ha.
  - split; [lia|]. intros (a & b & Ha%Hin & Hb%Hin & Hne).
    apply list_elem_of_singleton in Ha, Hb. congruence.
  - split; [|lia]. intros _. exists x, y. split_and!.
    + apply Hin. left.
    + apply Hin. right. left.
    + intros ->. apply NoDup_cons in Hnd as [Hx _]. apply Hx. left.
Qed.

Lemma groupby_og_elem_of (work : list og_row) (og : string) (genes : list gene) :
  (og, genes) ∈ groupby_og work
  <-> og ∈ row_og <$> work
      /\ genes = row_gene <$> List.filter (fun r => bool_decide (row_og r = og)) work.
Proof.
  unfold groupby_og. rewrite list_elem_of_fmap. split.
  - intros (og' & [= -> ->] & Hin). by rewrite distinct_elem_of in Hin.
  - intros [Hin ->]. exists og. split; [done | by apply distinct_elem_of].
Qed.

(** The genes of a group are the genes of the rows of its OG. *)
Lemma group_gene_elem_of (work : list og_row) (og : string) (g : gene) :
  g ∈ row_gene <$> List.filter (fun r => bool_decide (row_og r = og)) work
  <-> {| row_og := og; row_gene := g |} ∈ work.
Proof.
  rewrite list_elem_of_fmap. split.
  - intros ([o g'] & -> & [Hin Ho%bool_decide_eq_true]%list_filter_elem_of).
    cbn in *. by subst o.
  - intros Hin. eexists. split; [|apply list_filter_elem_of; split; [exact Hin|]].
    + done.
    + by apply bool_decide_eq_true.
Qed.

(** What the loop of [build_mapping] appends for the groups [grps]. *)
Lemma mapping_of_groups_inr (grps : list (string * list gene))
    (records : list (string * string)) (conflicts : list conflict_record) :
  mapping_of_groups casefold grps = inr (records, conflicts) ->
  (forall og gene,
     (og, gene) ∈ records
     <-> exists genes c n,
           (og, genes) ∈ grps /\ choose_gene_name casefold genes = inr (gene, c, n))
  /\ (forall cr,
        cr ∈ conflicts
        <-> exists og genes chosen c n g k,
              (og, genes) ∈ grps
              /\ choose_gene_name casefold genes = inr (chosen, c, n)
              /\ (1 < n)%nat /\ (g, k) ∈ value_counts true genes
              /\ cr = {| conflict_og := og; conflict_gene_name := str_of_gene g;
                         conflict_count := k; conflict_chosen_gene := chosen;
                         conflict_chosen_count := c |}).
Proof.
  revert records conflicts.
  induction grps as [|[og0 genes0] grps IH]; intros records conflicts;
    cbn [mapping_of_groups]; unfold mapping_of_group.
  - intros [= <- <-]. split.
    + intros og gene. split; [by intros H%not_elem_of_nil|].
      by intros (? & ? & ? & H%not_elem_of_nil & _).
    + intros cr. split; [by intros H%not_elem_of_nil|].
      by intros (? & ? & ? & ? & ? & ? & ? & H%not_elem_of_nil & _).
  - destruct (choose_gene_name casefold genes0) as [e|[[chosen0 c0] n0]] eqn:E0; [done|].
    destruct (mapping_of_groups casefold grps) as [e|[recs css]] eqn:E1; [done|].
    intros [= <- <-]. destruct (IH recs css eq_refl) as [IH1 IH2]. split.
    + intros og gene. rewrite elem_of_cons, IH1. split.
      * intros [[= -> ->]|(genes & c & n & Hin & Hc)].
        -- exists genes0, c0, n0. split; [left | done].
        -- exists genes, c, n. split; [by right | done].
      * intros (genes & c & n & [[= -> ->]|Hin]%elem_of_cons & Hc).
        -- left. rewrite E0 in Hc. by injection Hc as ->.
        -- right. eauto.
    + intros cr. rewrite elem_of_app, IH2. split.
      * intros [Hcr|(og & genes & chosen & c & n & g & k & Hin & H)].
        -- destruct (1 <? n0)%nat eqn:Hn; [|by apply not_elem_of_nil in Hcr].
           apply list_elem_of_fmap in Hcr as ([g k] & -> & Hgk).
           exists og0, genes0, chosen0, c0, n0, g, k.
           split_and!; [left | done | by apply Nat.ltb_lt | done | done].
        -- exists og, genes, chosen, c, n, g, k. split; [by right | done].
      * intros (og & genes & chosen & c & n & g & k
                & [[= -> ->]|Hin]%elem_of_cons & Hc & Hn & Hgk & ->).
        -- left. rewrite E0 in Hc. injection Hc as -> -> ->.
           rewrite (proj2 (Nat.ltb_lt _ _) Hn).
           apply list_elem_of_fmap. by exists (g, k).
        -- right. exists og, genes, chosen, c, n, g, k. done.
Qed.

Lemma build_mapping_groups (df : list og_row) (keep_empty_gene : bool)
    (mapping : list (string * string)) (conflicts : list conflict_record) :
  build_mapping casefold df keep_empty_gene = inr (mapping, conflicts) ->
  exists records,
    mapping_of_groups casefold (groupby_og (surviving keep_empty_gene df))
    = inr (records, conflicts)
    /\ forall rc, rc ∈ mapping <-> rc ∈ records.
Proof.
  unfold build_mapping. cbv zeta.
  destruct (surviving keep_empty_gene df) as [|r0 work] eqn:Ew; [done|].
  destruct (mapping_of_groups casefold _) as [e|[records cs]]; [done|].
  intros [= <- <-]. exists records. split; [done|].
  intros rc. apply sort_by_elem_of.
Qed.

End MappingRows.

(** ** The sort key of a numbered OG *)

Module SortKeyFacts.
Import Chars.

Lemma span_all (p : ascii -> bool) (l r : list ascii) :
  Forall (fun c => p c = true) l ->
  (forall c r', r = c :: r' -> p c = false) ->
  span p (l ++ r) = (l, r).
Proof.
  intros Hl Hr. induction Hl as [|c l Hc _ IH]; cbn.
  - destruct r as [|c r']; [done|]. cbn. by rewrite (Hr c r' eq_refl).
  - by rewrite Hc, IH.
Qed.

Lemma digit_not_alpha_us (c : ascii) : is_digit c = true -> is_alpha_us c = false.
Proof.
  unfold is_digit, is_alpha_us, is_upper, is_lower, is_us, in_range.
  intros [H1%N.leb_le H2%N.leb_le]%andb_true_iff.
  rewrite !orb_false_iff, !andb_false_iff, !N.leb_gt. split_and!.
  - left. lia.
  - left. lia.
  - destruct (Ascii.eqb_spec c underscore) as [->|]; [|done].
    exfalso. vm_compute in H2. by apply H2.
Qed.

Lemma fold_digits (d e : Decimal.uint) :
  fold_left (fun acc d => 10 * acc + (code d - 48))
    (list_ascii_of_string (NilEmpty.string_of_uint d)) (DecimalPos.Unsigned.of_lu e)
  = DecimalPos.Unsigned.of_lu (Decimal.revapp d e).
Proof.
  revert e. induction d as [|d IH|d IH|d IH|d IH|d IH|d IH|d IH|d IH|d IH|d IH];
    intros e; [done|..];
    cbn [NilEmpty.string_of_uint list_ascii_of_string fold_left Decimal.revapp];
    rewrite <- IH; f_equal; rewrite (DecimalPos.Unsigned.of_lu_eqn (_ e));
    cbn [DecimalPos.Unsigned.hd DecimalPos.Unsigned.tl];
    match goal with |- context [code ?c] => let v := eval vm_compute in (code c) in
                                              change (code c) with v end; lia.
Qed.

Lemma int_of_digits_str (n : N) : int_of_digits (list_ascii_of_string (str_of_N n)) = n.
Proof.
  unfold str_of_N, int_of_digits.
  assert (E : NilZero.string_of_uint (N.to_uint n) = NilEmpty.string_of_uint (N.to_uint n)).
  { pose proof (NumeralFacts.N_to_uint_nonnil n) as Hn. by destruct (N.to_uint n). }
  rewrite E. change 0 with (DecimalPos.Unsigned.of_lu Decimal.Nil).
  rewrite fold_digits. change (Decimal.revapp ?d Decimal.Nil) with (Decimal.rev d).
  rewrite <- DecimalPos.Unsigned.of_uint_alt. apply DecimalN.Unsigned.of_to.
Qed.

Lemma str_of_N_nonempty (n : N) : list_ascii_of_string (str_of_N n) <> [].
Proof.
  unfold str_of_N. pose proof (NumeralFacts.N_to_uint_nonnil n) as Hn.
  by destruct (N.to_uint n).
Qed.

Lemma og_sort_key_numbered (p : string) (n : N) :
  p <> "" -> Forall (fun c => is_alpha_us c = true) (list_ascii_of_string p) ->
  og_sort_key (p +:+ str_of_N n) = (p, Fin n).
Proof.
  intros Hne Hp. unfold og_sort_key. rewrite chars_of_append.
  pose proof (NumeralFacts.str_of_N_digits n) as Hd.
  pose proof (str_of_N_nonempty n) as Hdn.
  rewrite (span_all is_alpha_us _ _ Hp).
  2:{ intros c r' E. rewrite E in Hd. apply Forall_cons in Hd as [Hc _].
      by apply digit_not_alpha_us. }
  rewrite <- (app_nil_r (list_ascii_of_string (str_of_N n))) at 1.
  rewrite (span_all is_digit _ [] Hd) by done.
  rewrite (bool_decide_eq_false_2 (list_ascii_of_string p = []))
    by (intros E; apply Hne, chars_inj; by rewrite E).
  rewrite (bool_decide_eq_false_2 (list_ascii_of_string (str_of_N n) = [])) by done.
  cbn [negb andb]. rewrite bool_decide_eq_true_2 by done. cbn [orb].
  by rewrite string_of_list_ascii_of_string, int_of_digits_str.
Qed.

End SortKeyFacts.

(** X20.  Every row [(OG, gene)] of the table of [build_mapping] names a
    gene observed in a surviving row of that OG; among the surviving rows of
    the OG no gene value occurs more often, and every gene value that occurs
    as often comes no earlier under [casefold]. *)
Theorem build_mapping_genes (casefold : string -> string)
    (df : list og_row) (keep_empty_gene : bool)
    (mapping : list (string * string)) (conflicts : list conflict_record) :
  build_mapping casefold df keep_empty_gene = inr (mapping, conflicts) ->
  forall og gene,
    (og, gene) ∈ mapping ->
    exists g,
      gene = str_of_gene g
      /\ {| row_og := og; row_gene := g |} ∈ surviving keep_empty_gene df
      /\ (forall g',
            (occurrences g'
               (row_gene <$> List.filter (fun r => bool_decide (row_og r = og))
                               (surviving keep_empty_gene df))
             <= occurrences g
                  (row_gene <$> List.filter (fun r => bool_decide (row_og r = og))
                                  (surviving keep_empty_gene df)))%nat)
      /\ (forall g',
            occurrences g'
              (row_gene <$> List.filter (fun r => bool_decide (row_og r = og))
                              (surviving keep_empty_gene df))
            = occurrences g
                (row_gene <$> List.filter (fun r => bool_decide (row_og r = og))
                                (surviving keep_empty_gene df)) ->
            String.leb (casefold (str_of_gene g)) (casefold (str_of_gene g')) = true).
Proof.
  intros E og gene Hin.
  destruct (build_mapping_groups casefold _ _ _ _ E) as (records & Hm & Heq).
  apply Heq in Hin. destruct (mapping_of_groups_inr _ _ _ _ Hm) as [H1 _].
  apply H1 in Hin as (genes & c & n & Hg & Hc).
  apply groupby_og_elem_of in Hg as [Hog ->].
  set (genes := row_gene <$> List.filter _ (surviving keep_empty_gene df)) in *.
  assert (Hne : genes <> []).
  { apply list_elem_of_fmap in Hog as (r & -> & Hr).
    assert (Hrg : row_gene r ∈ genes).
    { apply group_gene_elem_of. by destruct r. }
    intros E'. rewrite E' in Hrg. by apply not_elem_of_nil in Hrg. }
  destruct (choose_gene_name_ok casefold genes Hne) as (g & Hc' & Hgin & Hmax & Htie).
  rewrite Hc in Hc'. injection Hc' as -> _ _.
  exists g. split_and!; [done | by apply group_gene_elem_of | done | done].
Qed.

Lemma build_mapping_genes_witness :
  build_mapping casefold_ascii
    [ {| row_og := "OG1"; row_gene := Some "rpoB" |};
      {| row_og := "OG1"; row_gene := Some "RpoB" |};
      {| row_og := "OG1"; row_gene := Some "rpoB" |} ] false
  = inr ([("OG1", "rpoB")],
         [ {| conflict_og := "OG1"; conflict_gene_name := "rpoB"; conflict_count := 2;
              conflict_chosen_gene := "rpoB"; conflict_chosen_count := 2 |};
           {| conflict_og := "OG1"; conflict_gene_name := "RpoB"; conflict_count := 1;
              conflict_chosen_gene := "rpoB"; conflict_chosen_count := 2 |} ])
  /\ exists g,
       "rpoB" = str_of_gene g
       /\ {| row_og := "OG1"; row_gene := g |}
          ∈ surviving false
              [ {| row_og := "OG1"; row_gene := Some "rpoB" |};
                {| row_og := "OG1"; row_gene := Some "RpoB" |};
                {| row_og := "OG1"; row_gene := Some "rpoB" |} ].
Proof.
  assert (H : build_mapping casefold_ascii
    [ {| row_og := "OG1"; row_gene := Some "rpoB" |};
      {| row_og := "OG1"; row_gene := Some "RpoB" |};
      {| row_og := "OG1"; row_gene := Some "rpoB" |} ] false
  = inr ([("OG1", "rpoB")],
         [ {| conflict_og := "OG1"; conflict_gene_name := "rpoB"; conflict_count := 2;
              conflict_chosen_gene := "rpoB"; conflict_chosen_count := 2 |};
           {| conflict_og := "OG1"; conflict_gene_name := "RpoB"; conflict_count := 1;
              conflict_chosen_gene := "rpoB"; conflict_chosen_count := 2 |} ]))
    by (vm_compute; reflexivity).
  split; [exact H|].
  destruct (build_mapping_genes _ _ _ _ _ H "OG1" "rpoB") as (g & Hg & Hin & _); [left|].
  exists g. split; [exact Hg | exact Hin].
Defined.

(** X21.  The conflict records of [build_mapping] name exactly the OGs that
    have two surviving rows with different gene values.  Each record
    repeats the row of its OG in the table; it holds a gene name of a
    surviving row of the OG with the number of those rows, which is at least
    one and at most the count of the chosen gene. *)
Theorem build_mapping_conflicts (casefold : string -> string)
    (df : list og_row) (keep_empty_gene : bool)
    (mapping : list (string * string)) (conflicts : list conflict_record) :
  build_mapping casefold df keep_empty_gene = inr (mapping, conflicts) ->
  (forall og,
     og ∈ conflict_og <$> conflicts
     <-> exists r1 r2,
           r1 ∈ surviving keep_empty_gene df /\ r2 ∈ surviving keep_empty_gene df
           /\ row_og r1 = og /\ row_og r2 = og /\ row_gene r1 <> row_gene r2)
  /\ (forall cr,
        cr ∈ conflicts ->
        (conflict_og cr, conflict_chosen_gene cr) ∈ mapping
        /\ {| row_og := conflict_og cr; row_gene := Some (conflict_gene_name cr) |}
           ∈ surviving keep_empty_gene df
        /\ conflict_count cr
           = occurrences (Some (conflict_gene_name cr))
               (row_gene <$> List.filter (fun r => bool_decide (row_og r = conflict_og cr))
                               (surviving keep_empty_gene df))
        /\ (1 <= conflict_count cr <= conflict_chosen_count cr)%nat).
Proof.
  intros E.
  destruct (build_mapping_groups casefold _ _ _ _ E) as (records & Hm & Heq).
  destruct (mapping_of_groups_inr _ _ _ _ Hm) as [H1 H2].
  set (work := surviving keep_empty_gene df) in *.
  assert (Hchoose : forall og genes chosen c n,
            (og, genes) ∈ groupby_og work ->
            choose_gene_name casefold genes = inr (chosen, c, n) ->
            genes = row_gene <$> List.filter (fun r => bool_decide (row_og r = og)) work
            /\ n = length (distinct genes)
            /\ forall g', (occurrences g' genes <= c)%nat).
  { intros og genes chosen c n Hg Hc.
    pose proof (groupby_og_nonempty work) as Hne. rewrite Forall_forall in Hne.
    specialize (Hne _ Hg). cbn in Hne.
    destruct (choose_gene_name_ok casefold genes Hne) as (g & Hc' & _ & Hmax & _).
    rewrite Hc in Hc'. injection Hc' as _ -> ->.
    apply groupby_og_elem_of in Hg as [_ Hg]. done. }
  split.
  - intros og. split.
    + intros (cr & -> & Hcr)%list_elem_of_fmap.
      apply H2 in Hcr as (og & genes & chosen & c & n & g & k & Hg & Hc & Hn & _ & ->).
      cbn [conflict_og].
      destruct (Hchoose _ _ _ _ _ Hg Hc) as (-> & -> & _).
      apply distinct_two in Hn as (a & b & Ha & Hb & Hab).
      apply group_gene_elem_of in Ha, Hb.
      exists {| row_og := og; row_gene := a |}, {| row_og := og; row_gene := b |}. done.
    + intros ([o1 g1] & [o2 g2] & Hr1 & Hr2 & Ho1 & Ho2 & Hne). cbn in Ho1, Ho2, Hne.
      subst o1 o2.
      set (genes := row_gene <$> List.filter (fun r => bool_decide (row_og r = og)) work).
      assert (Hg1 : g1 ∈ genes) by (by apply group_gene_elem_of).
      assert (Hg2 : g2 ∈ genes) by (by apply group_gene_elem_of).
      assert (Hgrp : (og, genes) ∈ groupby_og work).
      { apply groupby_og_elem_of. split; [|done].
        apply list_elem_of_fmap. by exists {| row_og := og; row_gene := g1 |}. }
      assert (Hgne : genes <> []).
      { intros E'. rewrite E' in Hg1. by apply not_elem_of_nil in Hg1. }
      destruct (choose_gene_name_ok casefold genes Hgne) as (g & Hc & _).
      assert (Hn : (1 < length (distinct genes))%nat).
      { apply distinct_two. eauto. }
      assert (Hsome : exists s, Some s ∈ genes).
      { destruct g1 as [s|]; [eauto|]. destruct g2 as [s|]; [eauto | done]. }
      destruct Hsome as [s Hs].
      apply list_elem_of_fmap.
      exists {| conflict_og := og; conflict_gene_name := str_of_gene (Some s);
                conflict_count := occurrences (Some s) genes;
                conflict_chosen_gene := str_of_gene g;
                conflict_chosen_count := occurrences g genes |}.
      split; [done|]. apply H2.
      exists og, genes, (str_of_gene g), (occurrences g genes), (length (distinct genes)),
        (Some s), (occurrences (Some s) genes).
      split_and!; try done. apply value_counts_dropna_elem_of. eauto.
  - intros cr Hcr.
    apply H2 in Hcr as (og & genes & chosen & c & n & g & k & Hg & Hc & Hn & Hgk & ->).
    cbn [conflict_og conflict_chosen_gene conflict_gene_name conflict_count
         conflict_chosen_count].
    destruct (Hchoose _ _ _ _ _ Hg Hc) as (Hgenes & _ & Hmax).
    apply value_counts_dropna_elem_of in Hgk as (Hgin & [s ->] & ->).
    change (str_of_gene (Some s)) with s. split_and!.
    + apply Heq, H1. eauto.
    + apply group_gene_elem_of. by rewrite <- Hgenes.
    + by rewrite <- Hgenes.
    + by apply occurrences_pos.
    + apply Hmax.
Qed.

Lemma build_mapping_conflicts_witness :
  build_mapping casefold_ascii
    [ {| row_og := "OG1"; row_gene := Some "rpoB" |};
      {| row_og := "OG2"; row_gene := Some "gyrA" |};
      {| row_og := "OG1"; row_gene := Some "RpoB" |} ] false
  = inr ([("OG1", "rpoB"); ("OG2", "gyrA")],
         [ {| conflict_og := "OG1"; conflict_gene_name := "rpoB"; conflict_count := 1;
              conflict_chosen_gene := "rpoB"; conflict_chosen_count := 1 |};
           {| conflict_og := "OG1"; conflict_gene_name := "RpoB"; conflict_count := 1;
              conflict_chosen_gene := "rpoB"; conflict_chosen_count := 1 |} ])
  /\ exists r1 r2,
       r1 ∈ surviving false
              [ {| row_og := "OG1"; row_gene := Some "rpoB" |};
                {| row_og := "OG2"; row_gene := Some "gyrA" |};
                {| row_og := "OG1"; row_gene := Some "RpoB" |} ]
       /\ r2 ∈ surviving false
                 [ {| row_og := "OG1"; row_gene := Some "rpoB" |};
                   {| row_og := "OG2"; row_gene := Some "gyrA" |};
                   {| row_og := "OG1"; row_gene := Some "RpoB" |} ]
       /\ row_og r1 = "OG1" /\ row_og r2 = "OG1" /\ row_gene r1 <> row_gene r2.
Proof.
  assert (H : build_mapping casefold_ascii
    [ {| row_og := "OG1"; row_gene := Some "rpoB" |};
      {| row_og := "OG2"; row_gene := Some "gyrA" |};
      {| row_og := "OG1"; row_gene := Some "RpoB" |} ] false
  = inr ([("OG1", "rpoB"); ("OG2", "gyrA")],
         [ {| conflict_og := "OG1"; conflict_gene_name := "rpoB"; conflict_count := 1;
              conflict_chosen_gene := "rpoB"; conflict_chosen_count := 1 |};
           {| conflict_og := "OG1"; conflict_gene_name := "RpoB"; conflict_count := 1;
              conflict_chosen_gene := "rpoB"; conflict_chosen_count := 1 |} ]))
    by (vm_compute; reflexivity).
  split; [exact H|].
  apply (proj1 (build_mapping_conflicts _ _ _ _ _ H) "OG1"). left.
Defined.

(** X22.  [og_sort_key] reads back the number of a numbered OG: for a
    non-empty prefix over [[A-Za-z_]] the key of the prefix followed by the
    decimal numeral of [n] is [(prefix, n)], so two OGs with the same
    prefix are ordered by their numbers. *)
Theorem og_sort_key_reads_number (prefix : string) (n m : N) :
  prefix <> "" ->
  Forall (fun c => Chars.is_alpha_us c = true) (list_ascii_of_string prefix) ->
  og_sort_key (prefix +:+ str_of_N n) = (prefix, Fin n)
  /\ (og_le (prefix +:+ str_of_N n) (prefix +:+ str_of_N m) <-> n <= m).
Proof.
  intros Hne Hp. split; [by apply SortKeyFacts.og_sort_key_numbered|].
  unfold og_le. rewrite !SortKeyFacts.og_sort_key_numbered by done.
  unfold og_key_le. cbn [fst snd]. rewrite KeyFacts.compare_refl. cbn [og_number_le].
  apply N.leb_le.
Qed.

Lemma og_sort_key_reads_number_witness :
  "OG" <> ""
  /\ Forall (fun c => Chars.is_alpha_us c = true) (list_ascii_of_string "OG")
  /\ og_sort_key ("OG" +:+ str_of_N 9) = ("OG", Fin 9)
  /\ (og_le ("OG" +:+ str_of_N 9) ("OG" +:+ str_of_N 10) <-> 9 <= 10).
Proof.
  assert (H1 : "OG" <> "") by discriminate.
  assert (H2 : Forall (fun c => Chars.is_alpha_us c = true) (list_ascii_of_string "OG")).
  { repeat constructor. }
  split; [exact H1|]. split; [exact H2|].
  exact (og_sort_key_reads_number "OG" 9 10 H1 H2).
Defined.

(** X23.  The row loop of [parse_metadata_csv] in
    prepare_metadata_o2t_view.py, started at row number [i].  It returns
    exactly when no data row is longer than the header, and then it returns,
    in order, the dictionaries of the padded rows that have a non-empty
    value.  Otherwise it raises "more columns than header" with the number
    of the first data row that is longer than the header. *)
Theorem prepare_parse_rows_spec (header : list string) (i : nat) (data : list (list string)) :
  (forall rows,
     Prepare.parse_rows header i data = inr rows
     <-> Forall (fun raw => (length raw <= length header)%nat) data
         /\ rows = List.filter (fun row => negb (all_values_empty row))
                     ((fun raw => row_dict header (pad_row (length header) raw)) <$> data))
  /\ (forall e,
        Prepare.parse_rows header i data = inl e
        <-> exists k raw,
              data !! k = Some raw /\ (length header < length raw)%nat
              /\ Forall (fun raw' => (length raw' <= length header)%nat) (take k data)
              /\ e = RowTooLong (i + k)).
Proof.
  revert i. induction data as [|raw data IH]; intros i.
  - split.
    + intros rows. cbn. split; [by intros [= <-] | by intros [_ ->]].
    + intros e. cbn. split; [done | by intros (k & raw & H & _)].
  - destruct (IH (S i)) as [IH1 IH2]. cbn [Prepare.parse_rows].
    case_decide as Hlen.
    + split.
      * intros rows. split; [done|]. intros [Hall _].
        apply Forall_cons in Hall as [Hraw _]. lia.
      * intros e. split.
        -- intros [= <-]. exists 0%nat, raw. rewrite Nat.add_0_r.
           split_and!; [done | done | constructor | done].
        -- intros ([|k] & raw' & Hk & Hlong & Hpre & ->).
           ++ by rewrite Nat.add_0_r.
           ++ cbn in Hpre. apply Forall_cons in Hpre as [Hraw _]. lia.
    + cbv zeta. cbn [fmap list_fmap List.filter].
      change (list_fmap _ _ ?f data) with (f <$> data).
      destruct (all_values_empty (row_dict header (pad_row (length header) raw))) eqn:Eb;
        cbn [negb].
      * split.
        -- intros rows. rewrite IH1, Forall_cons. split; [intros [? ?] | intros [[_ ?] ?]];
             (split; [|done]); [split; [lia | done] | done].
        -- intros e. rewrite IH2. split.
           ++ intros (k & raw' & Hk & Hlong & Hpre & ->). exists (S k), raw'.
              split_and!; [done | done | | f_equal; lia].
              cbn. constructor; [lia | done].
           ++ intros ([|k] & raw' & Hk & Hlong & Hpre & ->).
              ** cbn in Hk. injection Hk as <-. lia.
              ** exists k, raw'. cbn in Hpre. apply Forall_cons in Hpre as [_ Hpre].
                 split_and!; [done | done | done | f_equal; lia].
      * split.
        -- intros rows. rewrite Forall_cons. split.
           ++ destruct (Prepare.parse_rows header (S i) data) as [e|rs] eqn:E; [done|].
              intros [= <-]. destruct (proj1 (IH1 rs) eq_refl) as [Hall ->].
              split; [split; [lia | done] | done].
           ++ intros [[_ Hall] ->].
              by rewrite (proj2 (IH1 _) (conj Hall eq_refl)).
        -- intros e. split.
           ++ destruct (Prepare.parse_rows header (S i) data) as [e'|rs] eqn:E; [|done].
              intros [= <-].
              destruct (proj1 (IH2 e') eq_refl) as (k & raw' & Hk & Hlong & Hpre & ->).
              exists (S k), raw'. split_and!; [done | done | | f_equal; lia].
              cbn. constructor; [lia | done].
           ++ intros ([|k] & raw' & Hk & Hlong & Hpre & ->).
              ** cbn in Hk. injection Hk as <-. lia.
              ** cbn in Hpre. apply Forall_cons in Hpre as [_ Hpre].
                 assert (E : Prepare.parse_rows header (S i) data = inl (RowTooLong (S i + k))).
                 { apply IH2. exists k, raw'. done. }
                 rewrite E. f_equal. f_equal. lia.
Qed.
